(** * django-bulk-update-or-create: the reconciler and its queue accumulator

    A shallow embedding of [bulk_update_or_create/query.py]:

    - [BulkUpdateOrCreateMixin.__bulk_update_or_create], a Python generator
      function, is a generator state ([gen]) with an explicit [gen_next];
    - [BulkUpdateOrCreateMixin.bulk_update_or_create] either hands the fresh
      generator back or drains it with [list_gen] (Python's [list(r)]);
    - [_BulkUpdateOrCreateContextManager] is the record [cm] with [queue],
      [dump_queue], [__enter__], [__exit__].

    Python objects live in a heap (location |-> attribute dictionary), so that
    [setattr] on an entity and [save()] on a record are seen through every
    alias.  The database behind the queryset ([filter], [bulk_update],
    [save]) and the status callback are external collaborators: they are
    parameters ([Store], [callback]), and so is [str.lower] ([PyStr]), which
    the code calls and the Python runtime defines.  Every call that leaves
    the module is appended to a log carried by the world. *)

From Stdlib Require Import ZArith Lia Ascii String.
From stdpp Require Import gmap strings list fin_maps.

(** ** Python values *)

(** Attribute values.  Only [str] has a [lower] method among these, and on
    these three constructors Python's [==] is structural equality. *)
Inductive value :=
  | VNone
  | VInt (z : Z)
  | VStr (s : string).

#[global] Instance value_eq_dec : EqDecision value.
Proof. solve_decision. Defined.

(** [str.lower()] belongs to the Python runtime and follows the Unicode case
    mappings; the code under study only calls it.  It is a parameter of the
    model: whatever is proved below holds for every [lower]. *)
Class PyStr := { lower : string → string }.

(** [lambda v: v.lower() if hasattr(v, 'lower') else v] *)
Definition lower_value `{PyStr} (v : value) : value :=
  match v with
  | VStr s => VStr (lower s)
  | _ => v
  end.

(** A match key: [tuple(...)] of attribute values. *)
Abbreviation key := (list value).

(** ** Insertion-ordered dictionaries

    A Python [dict] iterates in insertion order; assigning to a key that is
    already present replaces the value and keeps the key's position. *)
Section odict.
Context {K V : Type} `{EqDecision K}.

Definition odict := list (K * V).

(** [d[k]] ([None] stands for [KeyError]) *)
Fixpoint dget (d : odict) (k : K) : option V :=
  match d with
  | [] => None
  | (k', v') :: d' => if decide (k = k') then Some v' else dget d' k
  end.

(** [d[k] = v] *)
Fixpoint dset (d : odict) (k : K) (v : V) : odict :=
  match d with
  | [] => [(k, v)]
  | (k', v') :: d' =>
      if decide (k = k') then (k', v) :: d' else (k', v') :: dset d' k v
  end.

(** [del d[k]] ([None] stands for [KeyError]) *)
Fixpoint ddel (d : odict) (k : K) : option odict :=
  match d with
  | [] => None
  | (k', v') :: d' =>
      if decide (k = k') then Some d'
      else match ddel d' k with
           | Some d'' => Some ((k', v') :: d'')
           | None => None
           end
  end.

Definition dkeys (d : odict) : list K := map fst d.
Definition dvalues (d : odict) : list V := map snd d.

(** [{key(x): val(x) for x in xs}] *)
Definition dict_of (xs : list (K * V)) : odict :=
  foldl (λ d kv, dset d kv.1 kv.2) [] xs.
End odict.
Arguments odict : clear implicits.

(** ** Objects and the heap *)

Definition loc := nat.
Abbreviation attrs := (gmap string value).
Abbreviation heap := (gmap loc attrs).

Definition obj_attrs (h : heap) (o : loc) : attrs := default ∅ (h !! o).

Definition hasattr (h : heap) (o : loc) (f : string) : bool :=
  bool_decide (is_Some (obj_attrs h o !! f)).

(** [getattr(o, f)]; [None] stands for [AttributeError]. *)
Definition getattr (h : heap) (o : loc) (f : string) : option value :=
  obj_attrs h o !! f.

Definition setattr (h : heap) (o : loc) (f : string) (v : value) : heap :=
  <[o := <[f := v]> (obj_attrs h o)]> h.

(** A new object is placed at a location not yet in use. *)
Definition alloc (h : heap) (a : attrs) : loc * heap :=
  let l := fresh (dom h) in (l, <[l := a]> h).

Fixpoint alloc_all (h : heap) (rows : list attrs) : list loc * heap :=
  match rows with
  | [] => ([], h)
  | a :: rows' =>
      let '(l, h1) := alloc h a in
      let '(ls, h2) := alloc_all h1 rows' in
      (l :: ls, h2)
  end.

(** ** Exceptions and results *)

Inductive exn :=
  | ValueError (msg : string)
  | KeyError (k : key)
  | AttributeError (name : string)
  | ExternalError (tag : string).   (* raised by the store, the callback or a caller's block *)

Inductive res (A : Type) :=
  | Val (a : A)
  | Exc (e : exn).
Arguments Val {A} a.
Arguments Exc {A} e.

(** ** The queryset's database and the world *)

(** The keyword dictionary of one [models.Q] conjunction. *)
Abbreviation kwargs := (odict string value).

(** [Q() | Q(kw1) | Q(kw2) | ...]: the disjuncts, in the order they were
    or-ed together.  The store decides what satisfies them. *)
Abbreviation Q := (list kwargs).

(** ([created_objs], [to_update]) *)
Abbreviation outcome := (list loc * list loc)%type.

(** What the code asks of the queryset and of model instances.  Rows come
    back from [filter] as attribute dictionaries and become fresh objects;
    [bulk_update] reads the entities it is given; [save] may assign fields of
    the saved object (its primary key) and returns its attributes. *)
Class Store (S : Type) := {
  st_filter : Q → S → res (list attrs) * S;
  st_bulk_update : list attrs → list string → S → res unit * S;
  st_save : attrs → S → res attrs * S;
}.

Inductive event :=
  | EvReconcile (objs : list loc)       (* bulk_update_or_create(objs, ...) entered *)
  | EvFilter (q : Q)                    (* self.filter(q) evaluated *)
  | EvBulkUpdate (ents : list loc) (fields : list string)
  | EvSave (o : loc)                    (* o.save() *)
  | EvFlush                             (* dump_queue() entered *)
  | EvObserver (st : outcome).          (* status_cb(st) *)

Definition is_store_event (e : event) : bool :=
  match e with
  | EvFilter _ | EvBulkUpdate _ _ | EvSave _ => true
  | _ => false
  end.

Record world (S : Type) := World {
  w_heap : heap;
  w_db : S;
  w_log : list event;
}.
Arguments World {S}.
Arguments w_heap {S}.
Arguments w_db {S}.
Arguments w_log {S}.

Definition emit {S} (e : event) (w : world S) : world S :=
  World (w_heap w) (w_db w) (w_log w ++ [e]).

(** ** Computations: state and exceptions *)

Definition M (S A : Type) : Type := world S → res A * world S.

Definition ret {S A} (a : A) : M S A := λ w, (Val a, w).
Definition raise {S A} (e : exn) : M S A := λ w, (Exc e, w).

Definition bind {S A B} (m : M S A) (k : A → M S B) : M S B :=
  λ w, match m w with
       | (Val a, w') => k a w'
       | (Exc e, w') => (Exc e, w')
       end.

Notation "'do' x <- m ; k" := (bind m (λ x, k))
  (at level 10, x pattern, m at level 100, k at level 200,
   format "'[v' 'do'  x  <-  m ; '/' k ']'").
Notation "m ;; k" := (bind m (λ _, k))
  (at level 100, k at level 200, right associativity).

(** [for x in xs: body(x)] *)
Fixpoint for_each {S A} (xs : list A) (body : A → M S unit) : M S unit :=
  match xs with
  | [] => ret tt
  | x :: xs' => body x ;; for_each xs' body
  end.

(** A loop that threads a local variable through its body. *)
Fixpoint fold_each {S A B} (xs : list A) (body : B → A → M S B) (b : B) : M S B :=
  match xs with
  | [] => ret b
  | x :: xs' => do b' <- body b x; fold_each xs' body b'
  end.

(** ** The reconciler: [BulkUpdateOrCreateMixin] *)

(** [match_field] is a field name or a sequence of field names. *)
Inductive match_field_arg :=
  | MFStr (s : string)
  | MFSeq (fs : list string).

(** The arguments of [bulk_update_or_create] / [__bulk_update_or_create]. *)
Record args := Args {
  a_objs : list loc;
  a_update_fields : list string;
  a_match_field : match_field_arg;
  a_batch_size : option Z;
  a_case_insensitive_match : bool;
  a_yield_objects : bool;
}.

(** The locals the generator body keeps once its prologue has run. *)
Record frame := Frame {
  f_update_fields : list string;
  f_match_field : list string;
  f_case_insensitive_match : bool;
  f_yield_objects : bool;
}.

(** [(match_field,) if isinstance(match_field, str) else match_field] *)
Definition normalize_match_field (m : match_field_arg) : list string :=
  match m with
  | MFStr s => [s]
  | MFSeq fs => fs
  end.

(** *** Validation (lines 89-96) *)

(** The first field of [fs] that [o] lacks. *)
Fixpoint first_missing (h : heap) (o : loc) (fs : list string) : option string :=
  match fs with
  | [] => None
  | f :: fs' => if hasattr h o f then first_missing h o fs' else Some f
  end.

Definition match_field_msg (mf : list string) : string :=
  "some object does not have the match_field " ++ String.concat ", " mf.

Definition update_field_msg (f : string) : string :=
  "some object does not have the update_field " ++ f.

Definition validate_obj (h : heap) (mf uf : list string) (o : loc) : option exn :=
  if negb (forallb (hasattr h o) mf) then Some (ValueError (match_field_msg mf))
  else match first_missing h o uf with
       | Some f => Some (ValueError (update_field_msg f))
       | None => None
       end.

(** [for obj in objs: ...]: the first exception raised, if any. *)
Fixpoint validate (h : heap) (mf uf : list string) (objs : list loc) : option exn :=
  match objs with
  | [] => None
  | o :: objs' =>
      match validate_obj h mf uf o with
      | Some e => Some e
      | None => validate h mf uf objs'
      end
  end.

(** *** Batches (line 98) *)

(** [range(i, stop, step)] for a positive [step], unrolled at most [fuel]
    times. *)
Fixpoint range_from (fuel : nat) (i stop step : Z) : list Z :=
  match fuel with
  | O => []
  | S fuel' =>
      if (i <? stop)%Z then i :: range_from fuel' (i + step) stop step else []
  end.

(** [range(0, stop, step)] for [0 <= stop] and [step <> 0]: empty when the
    step is negative; when it is positive, [stop] unrollings reach the end
    ([range0_nth], [range0_length]). *)
Definition range0 (stop step : Z) : list Z :=
  if (0 <? step)%Z then range_from (Z.to_nat stop) 0 stop step else [].

(** [objs[lo:hi]] for [0 <= lo <= hi] *)
Definition slice {A} (objs : list A) (lo hi : Z) : list A :=
  take (Z.to_nat (hi - lo)) (drop (Z.to_nat lo) objs).

(** [(objs[i : i + batch_size] for i in range(0, len(objs), batch_size))].
    [objs] is a local list nobody mutates, so the lazily produced slices are
    the ones listed here. *)
Definition batches (objs : list loc) (batch_size : Z) : list (list loc) :=
  map (λ i, slice objs i (i + batch_size))
      (range0 (Z.of_nat (length objs)) batch_size).

(** The number of batches the spec announces: [ceil(m / n)]. *)
Definition ceil_div (m n : Z) : Z := ((m + n - 1) / n)%Z.

(** *** Keys (lines 100-122) *)

(** [tuple(map(partial(getattr, obj), fs))], on the attribute dictionary
    of [obj]: the first missing attribute raises. *)
Fixpoint getattrs (a : attrs) (fs : list string) : res key :=
  match fs with
  | [] => Val []
  | f :: fs' =>
      match a !! f with
      | None => Exc (AttributeError f)
      | Some v =>
          match getattrs a fs' with
          | Val vs => Val (v :: vs)
          | Exc e => Exc e
          end
      end
  end.

(** The key of an object with attribute dictionary [a], by the getter in
    force after line 108. *)
Definition attrs_key `{PyStr} (fr : frame) (a : attrs) : res key :=
  if f_case_insensitive_match fr then
    match getattrs a (f_match_field fr) with
    | Val k => Val (map lower_value k)
    | Exc e => Exc e
    end
  else getattrs a (f_match_field fr).

Definition _obj_key_getter_sensitive (mf : list string) (h : heap) (o : loc) : res key :=
  getattrs (obj_attrs h o) mf.

Definition _obj_key_getter `{PyStr} (fr : frame) (h : heap) (o : loc) : res key :=
  if f_case_insensitive_match fr then
    match _obj_key_getter_sensitive (f_match_field fr) h o with
    | Val k => Val (map lower_value k)
    | Exc e => Exc e
    end
  else _obj_key_getter_sensitive (f_match_field fr) h o.

(** [{k: obj_key[i] for i, k in enumerate(match_field)}] *)
Definition key_kwargs (mf : list string) (obj_key : key) : kwargs :=
  dict_of (zip mf obj_key).

(** [_obj_filter]: [reduce] over [obj_map.keys()], starting from [Q()]. *)
Definition _obj_filter (mf : list string) (obj_map : odict key loc) : Q :=
  foldl (λ acc_q obj_key, acc_q ++ [key_kwargs mf obj_key]) [] (dkeys obj_map).

Definition frame_of (a : args) : frame :=
  Frame (a_update_fields a) (normalize_match_field (a_match_field a))
        (a_case_insensitive_match a) (a_yield_objects a).

(** The prologue of the generator body (lines 76-98): everything that runs
    between the first [next] and the first batch.  It only reads the heap. *)
Definition start (a : args) (h : heap) : res (frame * list (list loc)) :=
  match a_objs a with
  | [] => Exc (ValueError "no objects to update_or_create...")
  | _ :: _ =>
      match a_update_fields a with
      | [] => Exc (ValueError "update_fields cannot be empty")
      | _ :: _ =>
          let objs := a_objs a in
          let batch_size := default (Z.of_nat (length objs)) (a_batch_size a) in
          let match_field := normalize_match_field (a_match_field a) in
          match validate h match_field (a_update_fields a) objs with
          | Some e => Exc e
          | None =>
              if (batch_size =? 0)%Z
              then Exc (ValueError "range() arg 3 must not be zero")
              else Val (frame_of a, batches objs batch_size)
          end
      end
  end.

(** A generator object of [__bulk_update_or_create]: not yet started,
    suspended at the [yield] with the batches still to come, or finished. *)
Inductive gen :=
  | GenCreated (a : args)
  | GenSuspended (fr : frame) (rest : list (list loc))
  | GenClosed.

Inductive step :=
  | Yield (st : outcome)
  | StopIteration.

(** What [bulk_update_or_create] returns: the generator or [list(r)]. *)
Inductive returned :=
  | RGen (g : gen)
  | RList (l : list outcome).

Section reconciler.
Context {S : Type} `{Store S} `{PyStr}.

Definition getattr_m (o : loc) (f : string) : M S value :=
  λ w, match getattr (w_heap w) o f with
       | Some v => (Val v, w)
       | None => (Exc (AttributeError f), w)
       end.

Definition setattr_m (o : loc) (f : string) (v : value) : M S unit :=
  λ w, (Val tt, World (setattr (w_heap w) o f v) (w_db w) (w_log w)).

Definition key_getter_m (fr : frame) (o : loc) : M S key :=
  λ w, (_obj_key_getter fr (w_heap w) o, w).

(** [list(self.filter(q))] *)
Definition filter_m (q : Q) : M S (list loc) :=
  λ w, let w1 := emit (EvFilter q) w in
       match st_filter q (w_db w1) with
       | (Val rows, s') =>
           let '(ls, h') := alloc_all (w_heap w1) rows in
           (Val ls, World h' s' (w_log w1))
       | (Exc e, s') => (Exc e, World (w_heap w1) s' (w_log w1))
       end.

(** [self.bulk_update(ents, fields)] *)
Definition bulk_update_m (ents : list loc) (fields : list string) : M S unit :=
  λ w, let w1 := emit (EvBulkUpdate ents fields) w in
       let '(r, s') := st_bulk_update (map (obj_attrs (w_heap w1)) ents) fields (w_db w1) in
       (r, World (w_heap w1) s' (w_log w1)).

(** [obj.save()] *)
Definition save_m (o : loc) : M S unit :=
  λ w, let w1 := emit (EvSave o) w in
       match st_save (obj_attrs (w_heap w1) o) (w_db w1) with
       | (Val a', s') => (Val tt, World (<[o := a']> (w_heap w1)) s' (w_log w1))
       | (Exc e, s') => (Exc e, World (w_heap w1) s' (w_log w1))
       end.

Definition dget_m (obj_map : odict key loc) (k : key) : M S loc :=
  match dget obj_map k with
  | Some o => ret o
  | None => raise (KeyError k)
  end.

Definition ddel_m (obj_map : odict key loc) (k : key) : M S (odict key loc) :=
  match ddel obj_map k with
  | Some d => ret d
  | None => raise (KeyError k)
  end.

(** [obj_map = {_obj_key_getter(obj): obj for obj in batch}] (line 125) *)
Definition build_obj_map (fr : frame) (batch : list loc) : M S (odict key loc) :=
  fold_each batch
    (λ obj_map obj, do k <- key_getter_m fr obj; ret (dset obj_map k obj)) [].

(** The body of [for to_u in to_update] (lines 130-133). *)
Definition update_one (fr : frame) (obj_map : odict key loc) (to_u : loc)
  : M S (odict key loc) :=
  do k <- key_getter_m fr to_u;
  do obj <- dget_m obj_map k;
  for_each (f_update_fields fr)
    (λ _f, do v <- getattr_m obj _f; setattr_m to_u _f v) ;;
  do k' <- key_getter_m fr to_u;
  ddel_m obj_map k'.

(** The body of [for obj in obj_map.values()] (lines 139-140). *)
Definition create_one (created_objs : list loc) (obj : loc) : M S (list loc) :=
  save_m obj ;; ret (created_objs ++ [obj]).

(** One turn of [for batch in batches] up to the [yield] (lines 125-140). *)
Definition process_batch (fr : frame) (batch : list loc) : M S outcome :=
  do obj_map <- build_obj_map fr batch;
  do to_update <- filter_m (_obj_filter (f_match_field fr) obj_map);
  do obj_map' <- fold_each to_update (update_one fr) obj_map;
  bulk_update_m to_update (f_update_fields fr) ;;
  do created_objs <- fold_each (dvalues obj_map') create_one [];
  ret (created_objs, to_update).

(** [for batch in batches: ...; if yield_objects: yield ...] resumed with
    [rest] still to come: runs to the next [yield] or to the end. *)
Fixpoint gen_loop (fr : frame) (rest : list (list loc)) (w : world S)
  : res step * gen * world S :=
  match rest with
  | [] => (Val StopIteration, GenClosed, w)
  | batch :: rest' =>
      match process_batch fr batch w with
      | (Exc e, w') => (Exc e, GenClosed, w')
      | (Val st, w') =>
          if f_yield_objects fr
          then (Val (Yield st), GenSuspended fr rest', w')
          else gen_loop fr rest' w'
      end
  end.

(** [next(g)]: the result, the generator afterwards, the world afterwards. *)
Definition gen_next (g : gen) (w : world S) : res step * gen * world S :=
  match g with
  | GenCreated a =>
      match start a (w_heap w) with
      | Exc e => (Exc e, GenClosed, w)
      | Val (fr, bs) => gen_loop fr bs w
      end
  | GenSuspended fr rest => gen_loop fr rest w
  | GenClosed => (Val StopIteration, GenClosed, w)
  end.

(** Consuming a generator to its end, [body] run on every item with a
    local variable threaded through: the shape shared by [list(r)] and
    [for st in r: ...].  It is the iterator protocol over [gen_next]
    ([iter_gen_protocol]). *)
Fixpoint iter_rest {B} (fr : frame) (body : B → outcome → M S B)
    (rest : list (list loc)) (b : B) : M S B :=
  match rest with
  | [] => ret b
  | batch :: rest' =>
      do st <- process_batch fr batch;
      do b' <- (if f_yield_objects fr then body b st else ret b);
      iter_rest fr body rest' b'
  end.

Definition iter_gen {B} (body : B → outcome → M S B) (g : gen) (b : B) : M S B :=
  match g with
  | GenCreated a =>
      λ w, match start a (w_heap w) with
           | Exc e => (Exc e, w)
           | Val (fr, bs) => iter_rest fr body bs b w
           end
  | GenSuspended fr rest => iter_rest fr body rest b
  | GenClosed => ret b
  end.

(** [list(r)] *)
Definition list_gen (g : gen) : M S (list outcome) :=
  iter_gen (λ acc st, ret (acc ++ [st])) g [].

(** [for st in r: body(st)] *)
Definition for_gen (body : outcome → M S unit) (g : gen) : M S unit :=
  iter_gen (λ _ st, body st) g tt.

(** [__bulk_update_or_create(...)]: a generator function; calling it runs
    nothing of its body. *)
Definition __bulk_update_or_create (a : args) : gen := GenCreated a.

(** [bulk_update_or_create] (lines 55-65) *)
Definition bulk_update_or_create (a : args) : M S returned :=
  λ w, let w1 := emit (EvReconcile (a_objs a)) w in
       let r := __bulk_update_or_create a in
       if a_yield_objects a then (Val (RGen r), w1)
       else match list_gen r w1 with
            | (Val l, w2) => (Val (RList l), w2)
            | (Exc e, w2) => (Exc e, w2)
            end.

(** A caller that keeps every outcome the call produces: the list itself,
    or the items of the generator consumed to its end. *)
Definition collect (r : returned) : M S (list outcome) :=
  match r with
  | RGen g => list_gen g
  | RList l => ret l
  end.

Definition reconcile (a : args) : M S (list outcome) :=
  do r <- bulk_update_or_create a; collect r.

(** The batches processed one after the other, every outcome kept. *)
Fixpoint process_all (fr : frame) (bs : list (list loc)) : M S (list outcome) :=
  match bs with
  | [] => ret []
  | batch :: bs' =>
      do st <- process_batch fr batch;
      do sts <- process_all fr bs';
      ret (st :: sts)
  end.
End reconciler.

(** ** The queue accumulator: [_BulkUpdateOrCreateContextManager] *)

(** [status_cb]: a callable of the caller.  It sees the outcome, may touch
    objects and the database, and may raise. *)
Definition callback (S : Type) : Type :=
  outcome → heap * S → res unit * (heap * S).

(** The attributes of the context manager.  [_queryset] is the world's
    database; [_kwargs] holds [match_field] and [case_insensitive_match], as
    [bulk_update_or_create_context] builds it. *)
Record cm (S : Type) := CM {
  _queue : list loc;
  _batch_size : Z;
  _cb : option (callback S);
  _fields : list string;
  _kwargs_match_field : match_field_arg;
  _kwargs_case_insensitive_match : bool;
}.
Arguments CM {S}.
Arguments _queue {S}.
Arguments _batch_size {S}.
Arguments _cb {S}.
Arguments _fields {S}.
Arguments _kwargs_match_field {S}.
Arguments _kwargs_case_insensitive_match {S}.

Definition set_queue {S} (c : cm S) (q : list loc) : cm S :=
  CM q (_batch_size c) (_cb c) (_fields c)
     (_kwargs_match_field c) (_kwargs_case_insensitive_match c).

Section accumulator.
Context {S : Type} `{Store S} `{PyStr}.

(** A method of the context manager: result, [self] afterwards, world
    afterwards. *)
Definition method (A : Type) : Type :=
  cm S → world S → res A * cm S * world S.

(** [bulk_update_or_create_context] (lines 27-34) and [__init__]. *)
Definition bulk_update_or_create_context (update_fields : list string)
    (match_field : match_field_arg) (batch_size : Z)
    (case_insensitive_match : bool) (status_cb : option (callback S)) : cm S :=
  CM [] batch_size status_cb update_fields match_field case_insensitive_match.

(** [self._cb(st)] *)
Definition call_cb (cb : callback S) (st : outcome) : M S unit :=
  λ w, let w1 := emit (EvObserver st) w in
       let '(r, (h', s')) := cb st (w_heap w1, w_db w1) in
       (r, World h' s' (w_log w1)).

(** The arguments [dump_queue] passes on (lines 170-175): no
    [batch_size]. *)
Definition dump_args (c : cm S) : args :=
  Args (_queue c) (_fields c) (_kwargs_match_field c) None
       (_kwargs_case_insensitive_match c)
       (match _cb c with Some _ => true | None => false end).

(** [for st in r: self._cb(st)], [r] being what [bulk_update_or_create]
    returned. *)
Definition for_returned (cb : callback S) (r : returned) : M S unit :=
  match r with
  | RGen g => for_gen (call_cb cb) g
  | RList l => for_each l (call_cb cb)
  end.

(** [dump_queue] (lines 166-180) *)
Definition dump_queue : method unit :=
  λ c w,
    let w0 := emit EvFlush w in
    match _queue c with
    | [] => (Val tt, c, w0)
    | _ :: _ =>
        match bulk_update_or_create (dump_args c) w0 with
        | (Exc e, w1) => (Exc e, c, w1)
        | (Val r, w1) =>
            match _cb c with
            | Some cb =>
                match for_returned cb r w1 with
                | (Exc e, w2) => (Exc e, c, w2)
                | (Val _, w2) => (Val tt, set_queue c [], w2)
                end
            | None => (Val tt, set_queue c [], w1)
            end
        end
    end.

(** [queue] (lines 161-164) *)
Definition queue (obj : loc) : method unit :=
  λ c w,
    let c1 := set_queue c (_queue c ++ [obj]) in
    if (Z.of_nat (length (_queue c1)) >=? _batch_size c1)%Z
    then dump_queue c1 w
    else (Val tt, c1, w).

Definition __enter__ (c : cm S) : cm S := c.

(** [__exit__(type, value, traceback)]: the exception, if any, is not
    looked at, and the method returns [None]. *)
Definition __exit__ (exc : option exn) : method unit :=
  λ c w, dump_queue c w.

(** [with mgr as c: body].  [__exit__] returns [None], which is falsy: an
    exception of the block is raised again after [__exit__], unless
    [__exit__] itself raises. *)
Definition with_ {A} (mgr : cm S) (body : method A) : world S → res A * cm S * world S :=
  λ w,
    match body (__enter__ mgr) w with
    | (Val a, c1, w1) =>
        match __exit__ None c1 w1 with
        | (Val _, c2, w2) => (Val a, c2, w2)
        | (Exc e', c2, w2) => (Exc e', c2, w2)
        end
    | (Exc e, c1, w1) =>
        match __exit__ (Some e) c1 w1 with
        | (Val _, c2, w2) => (Exc e, c2, w2)
        | (Exc e', c2, w2) => (Exc e', c2, w2)
        end
    end.
End accumulator.

(** [dst] with the fields [fields] overwritten by those of [src]: what
    [for _f in update_fields: setattr(to_u, _f, getattr(obj, _f))] leaves in
    [to_u]. *)
Definition copy_fields (fields : list string) (src dst : attrs) : attrs :=
  foldl (λ d f, match src !! f with
                | Some v => <[f := v]> d
                | None => d
                end) dst fields.

(** ** A database to run the code against

    A single table held in memory, enough to execute the reconciler on
    concrete inputs: [filter] returns the rows that satisfy one of the
    disjuncts (comparing strings up to case when the table's collation is
    case-insensitive), [bulk_update] rewrites the named fields of the rows
    with the same ["pk"], [save] inserts a row and assigns ["pk"] when the
    object has none. *)
Module MemStore.
Record table := Table {
  rows : list attrs;
  ci_collation : bool;
  next_pk : Z;
}.

(** A case-insensitive collation of the table: ASCII letters compare
    equal up to case, every other byte compares as it is. *)
Definition fold_char (c : ascii) : ascii :=
  let n := nat_of_ascii c in
  if (65 <=? n)%nat && (n <=? 90)%nat then ascii_of_nat (n + 32) else c.

Fixpoint fold_case (s : string) : string :=
  match s with
  | EmptyString => EmptyString
  | String c s' => String (fold_char c) (fold_case s')
  end.

Definition fold_value (v : value) : value :=
  match v with
  | VStr s => VStr (fold_case s)
  | _ => v
  end.

Definition same (ci : bool) (v v' : value) : bool :=
  if ci then bool_decide (fold_value v = fold_value v')
  else bool_decide (v = v').

Definition satisfies (ci : bool) (r : attrs) (kw : kwargs) : bool :=
  forallb (λ fv, match r !! fv.1 with
                 | Some v' => same ci fv.2 v'
                 | None => false
                 end) kw.

Definition select (q : Q) (t : table) : list attrs :=
  match q with
  | [] => rows t
  | _ :: _ => List.filter (λ r, existsb (satisfies (ci_collation t) r) q) (rows t)
  end.

Definition update_row (fields : list string) (ent r : attrs) : attrs :=
  if bool_decide (is_Some (ent !! "pk") ∧ ent !! "pk" = r !! "pk")
  then copy_fields fields ent r else r.

Definition update_rows (ents : list attrs) (fields : list string) (t : table) : table :=
  Table (foldl (λ rs ent, map (update_row fields ent) rs) (rows t) ents)
        (ci_collation t) (next_pk t).

Definition insert_row (a : attrs) (t : table) : attrs * table :=
  match a !! "pk" with
  | Some (VInt _) => (a, Table (rows t ++ [a]) (ci_collation t) (next_pk t))
  | _ =>
      let a' := <["pk" := VInt (next_pk t)]> a in
      (a', Table (rows t ++ [a']) (ci_collation t) (next_pk t + 1))
  end.

#[global] Instance store : Store table := {
  st_filter q t := (Val (select q t), t);
  st_bulk_update ents fields t := (Val tt, update_rows ents fields t);
  st_save a t := let '(a', t') := insert_row a t in (Val a', t');
}.

(** A record with a name and a number, and the world that holds some. *)
Definition person (name : string) (n : Z) : attrs :=
  <["name" := VStr name]> (<["num" := VInt n]> ∅).

Definition stored (pk : Z) (name : string) (n : Z) : attrs :=
  <["pk" := VInt pk]> (person name n).

Definition heap_of (objs : list attrs) : heap :=
  (alloc_all ∅ objs).2.

Definition world_of (objs : list attrs) (db : list attrs) (ci : bool) : world table :=
  World (heap_of objs) (Table db ci 100) [].
End MemStore.

(** ** Vocabulary of the statements *)

(** A batch size the contract allows: omitted or positive. *)
Definition valid_batch_size (bs : option Z) : Prop :=
  ∀ n, bs = Some n → (0 < n)%Z.

(** Every record has every match field and every update field. *)
Definition well_formed (h : heap) (a : args) : Prop :=
  ∀ o f, o ∈ a_objs a →
    f ∈ normalize_match_field (a_match_field a) ++ a_update_fields a →
    hasattr h o f = true.

(** [m] only appends to the log, and only events that satisfy [P]. *)
Definition emits_only {S A} (P : event → Prop) (m : M S A) : Prop :=
  ∀ w r w', m w = (r, w') → ∃ evs, w_log w' = w_log w ++ evs ∧ Forall P evs.

Definition store_event (e : event) : Prop := is_store_event e = true.

(** Some record lacks a match field or an update field. *)
Definition missing_field (h : heap) (a : args) : Prop :=
  ∃ o f, o ∈ a_objs a ∧
    f ∈ normalize_match_field (a_match_field a) ++ a_update_fields a ∧
    hasattr h o f = false.

(** The input [start] rejects. *)
Definition rejected (h : heap) (a : args) : Prop :=
  a_objs a = [] ∨ a_update_fields a = [] ∨ missing_field h a.

(** The input the contract of [reconcile] allows. *)
Definition accepted (h : heap) (a : args) : Prop :=
  a_objs a ≠ [] ∧ a_update_fields a ≠ [] ∧ well_formed h a ∧
  valid_batch_size (a_batch_size a).

(** The batches of an accepted input. *)
Definition batches_of (a : args) : list (list loc) :=
  batches (a_objs a) (default (Z.of_nat (length (a_objs a))) (a_batch_size a)).

(** [st] is what processing [b] returns from some world. *)
Definition outcome_of (S : Type) `{Store S} `{PyStr} (fr : frame) (b : list loc) (st : outcome) : Prop :=
  ∃ w1 w2 : world S, process_batch fr b w1 = (Val st, w2).

(** A decision procedure for [accepted]. *)
Definition acceptedb (h : heap) (a : args) : bool :=
  match a_objs a, a_update_fields a with
  | _ :: _, _ :: _ =>
      match validate h (normalize_match_field (a_match_field a))
                     (a_update_fields a) (a_objs a), a_batch_size a with
      | None, None => true
      | None, Some n => (0 <? n)%Z
      | Some _, _ => false
      end
  | _, _ => false
  end.

(** ** Inputs used to exercise the statements *)
Module Examples.
Import MemStore.

(** A record that has a name and no number. *)
Definition named (name : string) : attrs := <["name" := VStr name]> ∅.

(** Three new people, an empty table. *)
Definition three_new : world table :=
  world_of [person "ann" 1; person "bob" 2; person "cat" 3] [] false.

(** The third record lacks the update field. *)
Definition third_malformed : world table :=
  world_of [person "ann" 1; person "bob" 2; named "cat"] [] false.

(** Reconcile [objs] by name, updating the number. *)
Definition by_name_on (objs : list loc) (batch_size : option Z)
    (yield_objects : bool) : args :=
  Args objs ["num"] (MFStr "name") batch_size false yield_objects.

Definition by_name (batch_size : option Z) (yield_objects : bool) : args :=
  by_name_on [0; 1; 2]%nat batch_size yield_objects.

(** An accumulator keyed by name, with [buffer] already queued. *)
Definition accumulator (buffer : list loc) (threshold : Z)
    (status_cb : option (callback table)) : cm table :=
  CM buffer threshold status_cb ["num"] (MFStr "name") false.

(** Two records named "ann", one named "bob" between them. *)
Definition two_anns : world table :=
  world_of [person "ann" 1; person "bob" 2; person "ann" 3] [] false.

(** Three people who are all in the table already. *)
Definition three_known : world table :=
  world_of [person "ann" 1; person "bob" 2; person "cat" 3]
           [stored 1 "ann" 0; stored 2 "bob" 0; stored 3 "cat" 0] false.



(** A record named "foo"; the table, compared up to case, holds "Foo". *)
Definition foo_and_Foo : world table :=
  world_of [person "foo" 1] [stored 1 "Foo" 0] true.

Definition quiet_observer : callback table := λ _ hs, (Val tt, hs).

Definition raising_observer : callback table :=
  λ _ hs, (Exc (ExternalError "observer"), hs).

(** The text of these inputs is ASCII, where [str.lower()] maps [A-Z] to
    [a-z] and leaves every other character alone. *)
Definition ascii_text : PyStr := {| lower := fold_case |}.
End Examples.

(** What the log says: the number of flushes, the reconcile calls with
    their record sequences, and the outcomes handed to the observer. *)
Definition flush_count (log : list event) : nat :=
  length (List.filter (λ e, match e with EvFlush => true | _ => false end) log).

Definition reconcile_calls (log : list event) : list (list loc) :=
  omap (λ e, match e with EvReconcile objs => Some objs | _ => None end) log.

Definition observed (log : list event) : list outcome :=
  omap (λ e, match e with EvObserver st => Some st | _ => None end) log.

Definition store_calls (log : list event) : list event :=
  List.filter is_store_event log.

(** An event the reconciler or the observer call leaves behind. *)
Definition inner_event (e : event) : Prop :=
  store_event e ∨ ∃ st, e = EvObserver st.

(** The key of [o] in heap [h] (the empty tuple if the getter raises). *)
Definition key_at `{PyStr} (fr : frame) (h : heap) (o : loc) : key :=
  match _obj_key_getter fr h o with
  | Val k => k
  | Exc _ => []
  end.

Definition keys_at `{PyStr} (fr : frame) (h : heap) (objs : list loc) : list key :=
  map (key_at fr h) objs.

(** The existence query of every batch, asked in the world the batch is
    processed in, finds no matching entity. *)
Fixpoint finds_nothing {S : Type} `{Store S} `{PyStr}
    (fr : frame) (bs : list (list loc)) (w : world S) : Prop :=
  match bs with
  | [] => True
  | b :: bs' =>
      (∃ s', st_filter (map (key_kwargs (f_match_field fr)) (keys_at fr (w_heap w) b))
                       (w_db w) = (Val [], s')) ∧
      finds_nothing fr bs' (process_batch fr b w).2
  end.

(** The store's writes do not raise. *)
Definition writes_succeed (S : Type) `{Store S} : Prop :=
  (∀ ents fields s, ∃ s', st_bulk_update ents fields s = (Val tt, s')) ∧
  (∀ a s, ∃ a' s', st_save a s = (Val a', s')).

(** The store calls of a batch whose records are all new. *)
Definition created_events `{PyStr} (fr : frame) (h : heap) (batch : list loc) : list event :=
  EvFilter (map (key_kwargs (f_match_field fr)) (keys_at fr h batch))
  :: EvBulkUpdate [] (f_update_fields fr)
  :: map EvSave batch.

(** The records saved and the entities bulk-updated, as the log has them. *)
Definition saved (log : list event) : list loc :=
  omap (λ e, match e with EvSave o => Some o | _ => None end) log.

Definition bulk_updated (log : list event) : list loc :=
  concat (omap (λ e, match e with EvBulkUpdate ents _ => Some ents | _ => None end) log).

(** The key of a row (the empty tuple if the getter raises). *)
Definition row_key `{PyStr} (fr : frame) (r : attrs) : key :=
  match attrs_key fr r with
  | Val k => k
  | Exc _ => []
  end.


(** The store calls of a batch whose records all exist. *)
Definition updated_events `{PyStr} (fr : frame) (h : heap) (batch : list loc) (st : outcome)
  : list event :=
  [EvFilter (map (key_kwargs (f_match_field fr)) (keys_at fr h batch));
   EvBulkUpdate st.2 (f_update_fields fr)].

(** Every record of [batch] has its entity in [ents], with the record's key
    and the record's values in the update fields. *)
Definition all_copied `{PyStr} (fr : frame) (h h' : heap) (batch ents : list loc) : Prop :=
  ∀ o, o ∈ batch →
    ∃ e, e ∈ ents ∧ key_at fr h' e = key_at fr h o ∧
         ∀ f, f ∈ f_update_fields fr → getattr h' e f = getattr h o f.

(** A record as validation leaves it: it is on the heap, it has a key and
    it has every update field. *)
Definition record_ok `{PyStr} (fr : frame) (h : heap) (o : loc) : Prop :=
  is_Some (h !! o) ∧ (∃ k, _obj_key_getter fr h o = Val k) ∧
  ∀ f, f ∈ f_update_fields fr → is_Some (obj_attrs h o !! f).

(** What the key getter does to the tuple of match-field values. *)
Definition normalize `{PyStr} (fr : frame) (vs : key) : key :=
  if f_case_insensitive_match fr then map lower_value vs else vs.

(** The store calls a batch can leave in the log: none (the lookup map
    could not be built), the query alone, or the query, one bulk update and
    the saves made so far. *)
Definition batch_calls (fr : frame) (evs : list event) : Prop :=
  evs = [] ∨ (∃ q, evs = [EvFilter q]) ∨
  (∃ q ents done,
     evs = EvFilter q :: EvBulkUpdate ents (f_update_fields fr) :: map EvSave done).

(** The existence queries in a log. *)
Definition queries (log : list event) : list Q :=
  omap (λ e, match e with EvFilter q => Some q | _ => None end) log.

(** A caller that pushes [objs] one after the other:
    [for obj in objs: mgr.queue(obj)]. *)
Fixpoint queue_all {S : Type} `{Store S} `{PyStr} (objs : list loc) (c : cm S) (w : world S)
  : res unit * cm S * world S :=
  match objs with
  | [] => (Val tt, c, w)
  | obj :: objs' =>
      match queue obj c w with
      | (Val _, c1, w1) => queue_all objs' c1 w1
      | (Exc e, c1, w1) => (Exc e, c1, w1)
      end
  end.

(** Further inputs: a new record followed by a record whose name two rows
    of the table share. *)
Module Scenarios.
Import MemStore.

Definition new_then_ambiguous : world table :=
  world_of [person "bob" 2; person "ann" 1]
           [stored 1 "ann" 0; stored 2 "ann" 0] false.
End Scenarios.

(** ** The store's side of the claims

    What the spec says happens to records that are all new, or all known,
    written from its words in terms of the store's three operations alone.
    The reconciler is compared with these runs. *)
Section store_runs.
Context {S : Type} `{Store S} `{PyStr}.

(** "Persist it as a new entity via a single-row insert", record after
    record: the store is handed the record's attributes and the record takes
    the attributes the save gives back.  The first exception ends the run. *)
Fixpoint save_each (objs : list loc) (h : heap) (s : S) : res unit * heap * S :=
  match objs with
  | [] => (Val tt, h, s)
  | o :: objs' =>
      match st_save (obj_attrs h o) s with
      | (Val a', s') => save_each objs' (<[o := a']> h) s'
      | (Exc e, s') => (Exc e, h, s')
      end
  end.

(** A sub-batch of new records: the existence query, a bulk update of no
    entity, then the saves. *)
Definition insert_batch (fr : frame) (batch : list loc) (h : heap) (s : S)
  : res unit * heap * S :=
  match st_filter (map (key_kwargs (f_match_field fr)) (keys_at fr h batch)) s with
  | (Exc e, s1) => (Exc e, h, s1)
  | (Val _, s1) =>
      match st_bulk_update [] (f_update_fields fr) s1 with
      | (Exc e, s2) => (Exc e, h, s2)
      | (Val _, s2) => save_each batch h s2
      end
  end.

Fixpoint insert_batches (fr : frame) (bs : list (list loc)) (h : heap) (s : S)
  : res unit * heap * S :=
  match bs with
  | [] => (Val tt, h, s)
  | b :: bs' =>
      match insert_batch fr b h s with
      | (Val _, h1, s1) => insert_batches fr bs' h1 s1
      | (Exc e, h1, s1) => (Exc e, h1, s1)
      end
  end.

(** The record of [batch] whose key is [k]: the first one, if any. *)
Definition record_with_key (fr : frame) (h : heap) (batch : list loc) (k : key)
  : option loc :=
  List.find (λ o, bool_decide (key_at fr h o = k)) batch.

(** "Copy the value of every field in [update_fields] from the input record
    onto the matching existing entity": the row as it is submitted to the
    bulk update. *)
Definition with_record_values (fr : frame) (h : heap) (batch : list loc)
    (row : attrs) : attrs :=
  match record_with_key fr h batch (row_key fr row) with
  | Some o => copy_fields (f_update_fields fr) (obj_attrs h o) row
  | None => row
  end.



(** A caller that advances the generator up to [n] times, keeps what is
    yielded and stops at the first advance that yields nothing. *)
Fixpoint nexts (n : nat) (g : gen) (w : world S) : list outcome * gen * world S :=
  match n with
  | O => ([], g, w)
  | Datatypes.S n' =>
      match gen_next g w with
      | (Val (Yield st), g', w') =>
          let '(sts, g'', w'') := nexts n' g' w' in (st :: sts, g'', w'')
      | (_, g', w') => ([], g', w')
      end
  end.
End store_runs.


(** The distinct elements of a list, each at its first occurrence. *)
Fixpoint first_occurrences {A} `{EqDecision A} (l : list A) : list A :=
  match l with
  | [] => []
  | x :: l' => x :: filter (λ y, y ≠ x) (first_occurrences l')
  end.

(** * Properties *)

Section properties.
Context `{PyStr}.


(** ** Batches *)

Lemma ceil_div_nonpos m n : (0 < n)%Z → (m ≤ 0)%Z → Z.to_nat (ceil_div m n) = 0%nat.
Proof.
  intros Hn Hm. unfold ceil_div.
  assert ((m + n - 1) `div` n < 1)%Z by (apply Z.div_lt_upper_bound; lia).
  lia.
Qed.

Lemma ceil_div_step m n :
  (0 < n)%Z → (0 < m)%Z → Z.to_nat (ceil_div m n) = S (Z.to_nat (ceil_div (m - n) n)).
Proof.
  intros Hn Hm. unfold ceil_div.
  replace (m + n - 1)%Z with ((m - n + n - 1) + 1 * n)%Z by lia.
  rewrite Z.div_add by lia.
  assert (-1 < (m - n + n - 1) `div` n)%Z.
  { apply Z.lt_le_trans with 0%Z; [lia|]. apply Z.div_pos; lia. }
  lia.
Qed.

Lemma ceil_div_covers m n : (0 < n)%Z → (m ≤ ceil_div m n * n)%Z.
Proof.
  intros Hn. unfold ceil_div.
  pose proof (Z.div_mod (m + n - 1) n ltac:(lia)).
  pose proof (Z.mod_pos_bound (m + n - 1) n Hn). nia.
Qed.

Lemma ceil_div_tight m n : (0 < n)%Z → (0 < m)%Z → ((ceil_div m n - 1) * n < m)%Z.
Proof.
  intros Hn Hm. unfold ceil_div.
  pose proof (Z.div_mod (m + n - 1) n ltac:(lia)).
  pose proof (Z.mod_pos_bound (m + n - 1) n Hn). nia.
Qed.

(** With [stop - i <= fuel * step] the unrolling reaches [stop]. *)
Lemma range_from_enough fuel i stop step :
  (0 < step)%Z → (stop - i ≤ Z.of_nat fuel * step)%Z →
  range_from fuel i stop step =
  map (λ k : nat, (i + Z.of_nat k * step)%Z)
      (seq 0 (Z.to_nat (ceil_div (stop - i) step))).
Proof.
  intros Hstep. revert i. induction fuel as [|fuel IH]; intros i Hfuel; simpl.
  - rewrite ceil_div_nonpos by lia. done.
  - destruct (Z.ltb_spec i stop) as [Hlt|Hge].
    + rewrite ceil_div_step by lia. simpl. f_equal; [lia|].
      rewrite IH by lia. rewrite <- seq_shift, map_map.
      replace (stop - (i + step))%Z with (stop - i - step)%Z by lia.
      apply map_ext. intros k. lia.
    + rewrite ceil_div_nonpos by lia. done.
Qed.

Lemma range0_nth stop step :
  (0 ≤ stop)%Z → (0 < step)%Z →
  range0 stop step =
  map (λ k : nat, (Z.of_nat k * step)%Z) (seq 0 (Z.to_nat (ceil_div stop step))).
Proof.
  intros Hstop Hstep. unfold range0.
  destruct (Z.ltb_spec 0 step); [|lia].
  rewrite range_from_enough by nia.
  replace (stop - 0)%Z with stop by lia. done.
Qed.

Lemma range0_length stop step :
  (0 ≤ stop)%Z → (0 < step)%Z →
  length (range0 stop step) = Z.to_nat (ceil_div stop step).
Proof. intros. rewrite range0_nth by done. by rewrite length_map, length_seq. Qed.

Lemma batches_chunks (objs : list loc) (N : Z) :
  (0 < N)%Z →
  batches objs N =
  map (λ k : nat, take (Z.to_nat N) (drop (k * Z.to_nat N) objs))
      (seq 0 (Z.to_nat (ceil_div (Z.of_nat (length objs)) N))).
Proof.
  intros HN. unfold batches. rewrite range0_nth by lia.
  rewrite map_map. apply map_ext. intros k. unfold slice.
  f_equal; [f_equal; lia|f_equal; nia].
Qed.

Lemma chunks_concat {A} (l : list A) (n c : nat) :
  concat (map (λ k : nat, take n (drop (k * n) l)) (seq 0 c)) = take (c * n) l.
Proof.
  induction c as [|c IH]; [done|].
  rewrite seq_S, map_app, concat_app, IH. simpl.
  rewrite app_nil_r, take_take_drop. f_equal. lia.
Qed.

Lemma batches_concat (objs : list loc) (N : Z) :
  (0 < N)%Z → concat (batches objs N) = objs.
Proof.
  intros HN. rewrite batches_chunks by done. rewrite chunks_concat.
  apply take_ge. pose proof (ceil_div_covers (Z.of_nat (length objs)) N HN).
  assert (0 ≤ ceil_div (Z.of_nat (length objs)) N)%Z by (apply Z.div_pos; lia).
  nia.
Qed.

Lemma batches_length (objs : list loc) (N : Z) :
  (0 < N)%Z →
  length (batches objs N) = Z.to_nat (ceil_div (Z.of_nat (length objs)) N).
Proof. intros HN. rewrite batches_chunks by done. by rewrite length_map, length_seq. Qed.

Lemma batches_lookup (objs : list loc) (N : Z) (i : nat) (b : list loc) :
  (0 < N)%Z → batches objs N !! i = Some b →
  b = take (Z.to_nat N) (drop (i * Z.to_nat N) objs) ∧ b ≠ [] ∧
  (Z.of_nat (length b) ≤ N)%Z.
Proof.
  intros HN Hb. rewrite batches_chunks in Hb by done.
  rewrite list_lookup_fmap in Hb.
  destruct (seq 0 _ !! i) as [k|] eqn:Hk; [|done]. simpl in Hb.
  apply lookup_seq in Hk as [-> Hlt]. simpl in *. injection Hb as <-.
  split; [done|].
  assert (0 < Z.of_nat (length objs))%Z as Hpos.
  { destruct (decide (0 < Z.of_nat (length objs))%Z); [done|].
    rewrite ceil_div_nonpos in Hlt by lia. lia. }
  pose proof (ceil_div_tight _ _ HN Hpos).
  split.
  - intros Hnil. apply (f_equal length) in Hnil.
    rewrite length_take, length_drop in Hnil. simpl in Hnil. nia.
  - rewrite length_take. lia.
Qed.

Lemma batches_default (objs : list loc) :
  objs ≠ [] → batches objs (Z.of_nat (length objs)) = [objs].
Proof.
  intros Hne. assert (0 < length objs) by (destruct objs; [done|simpl; lia]).
  rewrite batches_chunks by lia.
  replace (Z.to_nat (ceil_div _ _)) with 1.
  - simpl. rewrite drop_0, Nat2Z.id. by rewrite take_ge.
  - unfold ceil_div.
    replace (Z.of_nat (length objs) + Z.of_nat (length objs) - 1)%Z
      with ((Z.of_nat (length objs) - 1) + 1 * Z.of_nat (length objs))%Z by lia.
    rewrite Z.div_add by lia. rewrite Z.div_small by lia. done.
Qed.

(** ** Validation and the prologue *)

Lemma first_missing_None h o fs :
  first_missing h o fs = None ↔ ∀ f, f ∈ fs → hasattr h o f = true.
Proof.
  induction fs as [|f fs IH]; simpl.
  - split; [|done]. intros _ f Hf. by apply elem_of_nil in Hf.
  - destruct (hasattr h o f) eqn:E.
    + rewrite IH. split.
      * intros Hall g Hg. apply elem_of_cons in Hg as [->|Hg]; auto.
      * intros Hall g Hg. apply Hall. by right.
    + split; [done|]. intros Hall. rewrite Hall in E; [done|by left].
Qed.

Lemma validate_obj_None h mf uf o :
  validate_obj h mf uf o = None ↔ ∀ f, f ∈ mf ++ uf → hasattr h o f = true.
Proof.
  unfold validate_obj. destruct (forallb (hasattr h o) mf) eqn:E; simpl.
  - rewrite forallb_forall in E.
    destruct (first_missing h o uf) eqn:E2.
    + split; [done|]. intros Hall.
      assert (first_missing h o uf = None) as Hn; [|congruence].
      apply first_missing_None. intros f Hf. apply Hall, elem_of_app. by right.
    + split; [|done]. intros _ f Hf. apply elem_of_app in Hf as [Hf|Hf].
      * apply E. by apply list_elem_of_In.
      * by eapply first_missing_None.
  - split; [done|]. intros Hall.
    assert (forallb (hasattr h o) mf = true) as Ht; [|congruence].
    apply forallb_forall. intros f Hf. apply Hall, elem_of_app. left.
    by apply list_elem_of_In.
Qed.

Lemma validate_None h mf uf objs :
  validate h mf uf objs = None ↔
  ∀ o f, o ∈ objs → f ∈ mf ++ uf → hasattr h o f = true.
Proof.
  induction objs as [|o objs IH]; simpl.
  - split; [|done]. intros _ o f Ho. by apply elem_of_nil in Ho.
  - destruct (validate_obj h mf uf o) eqn:E.
    + split; [done|]. intros Hall.
      assert (validate_obj h mf uf o = None) as Hn; [|congruence].
      apply validate_obj_None. intros f Hf. apply Hall; [by left|done].
    + rewrite IH. rewrite validate_obj_None in E. split.
      * intros Hall o' f Ho'. apply elem_of_cons in Ho' as [->|Ho']; auto.
      * intros Hall o' f Ho'. apply Hall. by right.
Qed.

Lemma validate_Some_ValueError h mf uf objs e :
  validate h mf uf objs = Some e → ∃ msg, e = ValueError msg.
Proof.
  induction objs as [|o objs IH]; simpl; [done|].
  destruct (validate_obj h mf uf o) eqn:E; [|done].
  intros [= <-]. unfold validate_obj in E.
  destruct (negb _); [injection E as <-; eauto|].
  destruct (first_missing h o uf); [injection E as <-; eauto|done].
Qed.

Lemma start_valid (a : args) (h : heap) :
  a_objs a ≠ [] → a_update_fields a ≠ [] → well_formed h a →
  valid_batch_size (a_batch_size a) →
  start a h =
  Val (frame_of a,
       batches (a_objs a) (default (Z.of_nat (length (a_objs a))) (a_batch_size a))).
Proof.
  intros Hobjs Huf Hwf Hbs. unfold start.
  destruct (a_objs a) as [|o objs] eqn:Eo; [done|].
  destruct (a_update_fields a) as [|f uf] eqn:Ef; [done|].
  assert (validate h (normalize_match_field (a_match_field a)) (f :: uf) (o :: objs)
          = None) as ->.
  { apply validate_None. intros o' f' Ho' Hf'. apply Hwf; by rewrite ?Eo, ?Ef. }
  destruct (Z.eqb_spec (default (Z.of_nat (length (o :: objs))) (a_batch_size a)) 0)
    as [E0|_]; [|done].
  destruct (a_batch_size a) as [n|] eqn:En; simpl in E0; [|lia].
  specialize (Hbs n eq_refl). lia.
Qed.

Lemma start_invalid (a : args) (h : heap) :
  a_objs a = [] ∨ a_update_fields a = [] ∨ ¬ well_formed h a →
  ∃ msg, start a h = Exc (ValueError msg).
Proof.
  intros Hbad. unfold start.
  destruct (a_objs a) as [|o objs] eqn:Eo; [eauto|].
  destruct (a_update_fields a) as [|f uf] eqn:Ef; [eauto|].
  destruct Hbad as [?|[?|Hwf]]; [done..|].
  destruct (validate h _ (f :: uf) (o :: objs)) as [e|] eqn:Ev.
  - apply validate_Some_ValueError in Ev as [msg ->]. eauto.
  - exfalso. apply Hwf. intros o' f' Ho' Hf'.
    rewrite validate_None in Ev. apply Ev; by rewrite <- ?Eo, <- ?Ef.
Qed.

(** ** The monad and the log *)

Section log.
Context {S : Type} `{Store S}.
Implicit Types (P : event → Prop) (w : world S).

Lemma emits_only_weaken {A} P P' (m : M S A) :
  (∀ e, P e → P' e) → emits_only P m → emits_only P' m.
Proof.
  intros HPP Hm w r w' E. destruct (Hm _ _ _ E) as (evs & ? & HF).
  exists evs. split; [done|]. eapply Forall_impl; eauto.
Qed.

Lemma emits_only_silent {A} P (m : M S A) :
  (∀ w r w', m w = (r, w') → w_log w' = w_log w) → emits_only P m.
Proof.
  intros Hm w r w' E. exists []. rewrite app_nil_r. split; [by eapply Hm|done].
Qed.

Lemma emits_only_ret {A} P (a : A) : emits_only P (ret (S:=S) a).
Proof. apply emits_only_silent. by intros w r w' [= _ <-]. Qed.

Lemma emits_only_raise {A} P e : emits_only P (raise (S:=S) (A:=A) e).
Proof. apply emits_only_silent. by intros w r w' [= _ <-]. Qed.

Lemma emits_only_bind {A B} P (m : M S A) (k : A → M S B) :
  emits_only P m → (∀ a, emits_only P (k a)) → emits_only P (bind m k).
Proof.
  intros Hm Hk w r w' E. unfold bind in E.
  destruct (m w) as [[a|e] w1] eqn:Em.
  - destruct (Hm _ _ _ Em) as (evs1 & E1 & F1).
    destruct (Hk a _ _ _ E) as (evs2 & E2 & F2).
    exists (evs1 ++ evs2). rewrite E2, E1, app_assoc.
    split; [done|]. by apply Forall_app.
  - injection E as <- <-. by eapply Hm.
Qed.

Lemma emits_only_for_each {A} P (xs : list A) (body : A → M S unit) :
  (∀ x, emits_only P (body x)) → emits_only P (for_each xs body).
Proof.
  intros Hb. induction xs as [|x xs IH]; simpl.
  - apply emits_only_ret.
  - apply emits_only_bind; auto.
Qed.

Lemma emits_only_fold_each {A B} P (xs : list A) (body : B → A → M S B) b :
  (∀ b x, emits_only P (body b x)) → emits_only P (fold_each xs body b).
Proof.
  intros Hb. revert b. induction xs as [|x xs IH]; intros b; simpl.
  - apply emits_only_ret.
  - apply emits_only_bind; auto.
Qed.

Lemma emits_only_getattr_m P o f : emits_only P (getattr_m (S:=S) o f).
Proof.
  apply emits_only_silent. intros w r w'. unfold getattr_m.
  destruct (getattr _ _ _); by intros [= _ <-].
Qed.

Lemma emits_only_setattr_m P o f v : emits_only P (setattr_m (S:=S) o f v).
Proof. apply emits_only_silent. by intros w r w' [= _ <-]. Qed.

Lemma emits_only_key_getter_m P fr o : emits_only P (key_getter_m (S:=S) fr o).
Proof. apply emits_only_silent. by intros w r w' [= _ <-]. Qed.

Lemma emits_only_dget_m P d k : emits_only P (dget_m (S:=S) d k).
Proof.
  unfold dget_m. destruct (dget d k); [apply emits_only_ret|apply emits_only_raise].
Qed.

Lemma emits_only_ddel_m P d k : emits_only P (ddel_m (S:=S) d k).
Proof.
  unfold ddel_m. destruct (ddel d k); [apply emits_only_ret|apply emits_only_raise].
Qed.

Lemma emits_only_filter_m P q : P (EvFilter q) → emits_only P (filter_m q).
Proof.
  intros HP w r w' E. unfold filter_m in E. simpl in E.
  exists [EvFilter q]. split; [|by constructor].
  destruct (st_filter q (w_db w)) as [[rows|e] s'].
  - destruct (alloc_all _ rows) as [ls h']. by injection E as <- <-.
  - by injection E as <- <-.
Qed.

Lemma emits_only_bulk_update_m P ents fields :
  P (EvBulkUpdate ents fields) → emits_only P (bulk_update_m ents fields).
Proof.
  intros HP w r w' E. unfold bulk_update_m in E. simpl in E.
  exists [EvBulkUpdate ents fields]. split; [|by constructor].
  destruct (st_bulk_update _ fields (w_db w)) as [r' s']. by injection E as <- <-.
Qed.

Lemma emits_only_save_m P o : P (EvSave o) → emits_only P (save_m o).
Proof.
  intros HP w r w' E. unfold save_m in E. simpl in E.
  exists [EvSave o]. split; [|by constructor].
  destruct (st_save _ (w_db w)) as [[a'|e] s']; by injection E as <- <-.
Qed.

Lemma emits_only_process_batch P fr batch :
  (∀ e, store_event e → P e) → emits_only P (process_batch fr batch).
Proof.
  intros HP. unfold process_batch, build_obj_map, update_one, create_one.
  repeat first
    [ apply emits_only_bind; [|intros ?]
    | apply emits_only_fold_each; intros ? ?
    | apply emits_only_for_each; intros ?
    | apply emits_only_ret
    | apply emits_only_key_getter_m
    | apply emits_only_getattr_m
    | apply emits_only_setattr_m
    | apply emits_only_dget_m
    | apply emits_only_ddel_m
    | apply emits_only_filter_m; by apply HP
    | apply emits_only_bulk_update_m; by apply HP
    | apply emits_only_save_m; by apply HP ].
Qed.

Lemma emits_only_iter_rest {B} P fr (body : B → outcome → M S B) rest b :
  (∀ e, store_event e → P e) → (∀ b st, emits_only P (body b st)) →
  emits_only P (iter_rest fr body rest b).
Proof.
  intros HP Hb. revert b. induction rest as [|batch rest IH]; intros b; simpl.
  - apply emits_only_ret.
  - apply emits_only_bind; [by apply emits_only_process_batch|intros st].
    apply emits_only_bind; [|auto].
    destruct (f_yield_objects fr); [auto|apply emits_only_ret].
Qed.

Lemma emits_only_iter_gen {B} P (body : B → outcome → M S B) g b :
  (∀ e, store_event e → P e) → (∀ b st, emits_only P (body b st)) →
  emits_only P (iter_gen body g b).
Proof.
  intros HP Hb. destruct g as [a|fr rest|]; simpl.
  - intros w r w' E. destruct (start a (w_heap w)) as [[fr bs]|e].
    + by eapply emits_only_iter_rest.
    + injection E as <- <-. exists []. by rewrite app_nil_r.
  - by apply emits_only_iter_rest.
  - apply emits_only_ret.
Qed.

Lemma emits_only_list_gen P g :
  (∀ e, store_event e → P e) → emits_only P (list_gen g).
Proof. intros HP. apply emits_only_iter_gen; [done|]. intros. apply emits_only_ret. Qed.

Lemma emits_only_call_cb P (cb : callback S) st :
  P (EvObserver st) → emits_only P (call_cb cb st).
Proof.
  intros HP w r w' E. unfold call_cb in E. simpl in E.
  exists [EvObserver st]. split; [|by constructor].
  destruct (cb st _) as [r' [h' s']]. by injection E as <- <-.
Qed.
End log.

(** ** The generator *)

Section generator.
Context {S : Type} `{Store S}.
Implicit Types (w : world S) (fr : frame) (a : args).

Lemma iter_rest_protocol {B} fr (body : B → outcome → M S B) rest b w :
  iter_rest fr body rest b w =
  match gen_loop fr rest w with
  | (Exc e, _, w') => (Exc e, w')
  | (Val StopIteration, _, w') => (Val b, w')
  | (Val (Yield st), g', w') => (do b' <- body b st; iter_gen body g' b') w'
  end.
Proof.
  revert w. induction rest as [|batch rest IH]; intros w; simpl; [done|].
  unfold bind at 1. destruct (process_batch fr batch w) as [[st|e] w1]; [|done].
  destruct (f_yield_objects fr); [done|].
  unfold bind, ret. apply IH.
Qed.

(** Consuming a generator is calling [next] until [StopIteration]. *)
Lemma iter_gen_protocol {B} (body : B → outcome → M S B) g b w :
  iter_gen body g b w =
  match gen_next g w with
  | (Exc e, _, w') => (Exc e, w')
  | (Val StopIteration, _, w') => (Val b, w')
  | (Val (Yield st), g', w') => (do b' <- body b st; iter_gen body g' b') w'
  end.
Proof.
  destruct g as [a|fr rest|]; simpl; [|apply iter_rest_protocol|done].
  destruct (start a (w_heap w)) as [[fr bs]|e]; [apply iter_rest_protocol|done].
Qed.

Lemma gen_loop_no_yield fr rest w :
  f_yield_objects fr = false →
  ∃ r w', gen_loop fr rest w = (r, GenClosed, w') ∧
          (r = Val StopIteration ∨ ∃ e, r = Exc e).
Proof.
  intros Hy. revert w. induction rest as [|batch rest IH]; intros w; simpl.
  - eauto.
  - destruct (process_batch fr batch w) as [[st|e] w1]; [|eauto 6].
    rewrite Hy. apply IH.
Qed.

Lemma iter_rest_collect fr rest acc w :
  iter_rest fr (λ acc st, ret (acc ++ [st])) rest acc w =
  match process_all fr rest w with
  | (Val sts, w') => (Val (acc ++ (if f_yield_objects fr then sts else [])), w')
  | (Exc e, w') => (Exc e, w')
  end.
Proof.
  revert acc w. induction rest as [|batch rest IH]; intros acc w; simpl.
  - unfold ret. destruct (f_yield_objects fr); by rewrite app_nil_r.
  - unfold bind at 1 3. destruct (process_batch fr batch w) as [[st|e] w1]; [|done].
    destruct (f_yield_objects fr) eqn:Hy; unfold bind, ret; rewrite IH, ?Hy;
      destruct (process_all fr rest w1) as [[sts|e] w2]; try done.
    by rewrite <- app_assoc.
Qed.

Lemma process_all_outcomes fr bs w sts w' :
  process_all fr bs w = (Val sts, w') → Forall2 (outcome_of S fr) bs sts.
Proof.
  revert w sts w'. induction bs as [|b bs IH]; intros w sts w'; simpl.
  - intros [= <- _]. constructor.
  - unfold bind at 1. destruct (process_batch fr b w) as [[st|e] w1] eqn:Eb; [|done].
    unfold bind at 1. destruct (process_all fr bs w1) as [[sts'|e] w2] eqn:Ebs; [|done].
    intros [= <- _]. constructor; [by exists w, w1|by eapply IH].
Qed.

Lemma accepted_start a h : accepted h a → start a h = Val (frame_of a, batches_of a).
Proof. intros (? & ? & ? & ?). by apply start_valid. Qed.

Lemma missing_field_not_well_formed h a : missing_field h a → ¬ well_formed h a.
Proof. intros (o & f & Ho & Hf & E) Hwf. rewrite (Hwf o f) in E; done. Qed.

Lemma rejected_start a h : rejected h a → ∃ msg, start a h = Exc (ValueError msg).
Proof.
  intros [?|[?|?]]; apply start_invalid; auto using missing_field_not_well_formed.
Qed.

Lemma reconcile_unfold a w :
  reconcile a w = list_gen (GenCreated a) (emit (EvReconcile (a_objs a)) w).
Proof.
  unfold reconcile, bind, bulk_update_or_create, __bulk_update_or_create.
  destruct (a_yield_objects a) eqn:Hy; [done|].
  unfold list_gen. rewrite iter_gen_protocol. simpl.
  destruct (start a (w_heap w)) as [[fr bs]|e] eqn:Es; [|done].
  assert (f_yield_objects fr = false) as Hfr.
  { unfold start in Es. repeat case_match; simplify_eq; done. }
  destruct (gen_loop_no_yield fr bs (emit (EvReconcile (a_objs a)) w) Hfr)
    as (r & w' & -> & [->|[e ->]]); done.
Qed.

(** What a caller gets out of an accepted input. *)
Lemma reconcile_accepted a w :
  accepted (w_heap w) a →
  reconcile a w =
  match process_all (frame_of a) (batches_of a) (emit (EvReconcile (a_objs a)) w) with
  | (Val sts, w') => (Val (if a_yield_objects a then sts else []), w')
  | (Exc e, w') => (Exc e, w')
  end.
Proof.
  intros Hacc. rewrite reconcile_unfold. unfold list_gen. simpl.
  rewrite accepted_start by done. apply iter_rest_collect.
Qed.

Lemma reconcile_rejected a w :
  rejected (w_heap w) a →
  ∃ msg, reconcile a w = (Exc (ValueError msg), emit (EvReconcile (a_objs a)) w).
Proof.
  intros Hrej. rewrite reconcile_unfold. unfold list_gen. simpl.
  destruct (rejected_start _ _ Hrej) as [msg ->]. eauto.
Qed.
End generator.

Lemma acceptedb_accepted h a : acceptedb h a = true → accepted h a.
Proof.
  unfold acceptedb, accepted. intros Hb.
  destruct (a_objs a) as [|o objs] eqn:Eo; [done|].
  destruct (a_update_fields a) as [|f uf] eqn:Ef; [done|].
  destruct (validate h _ (f :: uf) (o :: objs)) eqn:Ev; [done|].
  rewrite validate_None in Ev.
  repeat split; try done.
  - intros o' f' Ho' Hf'. apply Ev; by rewrite <- ?Eo, <- ?Ef.
  - intros n Hn. rewrite Hn in Hb. by apply Z.ltb_lt.
Qed.

(** ** Claims about validation, laziness and batching *)

Section reconcile_claims.
Context {S : Type} `{Store S}.
Implicit Types (w : world S) (a : args).

(** C4.  When the record sequence is empty, or [update_fields] is empty, or
    some record anywhere in the input lacks a match field or an update
    field, the first advance of the generator raises [ValueError] (the
    spec's ValidationError) and leaves the world exactly as it was: no
    store call, no write, nothing logged.  A caller that consumes the
    call's result sees that exception, the log holding nothing but the
    record of the call itself. *)
Theorem validation_before_store a w :
  rejected (w_heap w) a →
  ∃ msg,
    gen_next (__bulk_update_or_create a) w = (Exc (ValueError msg), GenClosed, w) ∧
    reconcile a w = (Exc (ValueError msg), emit (EvReconcile (a_objs a)) w).
Proof.
  intros Hrej. destruct (rejected_start _ _ Hrej) as [msg Hs].
  exists msg. split.
  - simpl. by rewrite Hs.
  - rewrite reconcile_unfold. unfold list_gen. simpl. by rewrite Hs.
Qed.

(** C10.  With [yield_objects=True] the call returns the generator, not
    yet started, whatever the arguments: the world is untouched but for
    the record of the call; a rejected input raises its [ValueError] at the
    first [next], and an accepted one starts its first batch there.  With
    [yield_objects=False] the call is one [next] of that generator, which
    runs every batch and leaves the generator finished: its exception is
    the call's, and otherwise the call returns the empty list. *)
Theorem generator_is_lazy objs uf mf bs ci w :
  let lazy := Args objs uf mf bs ci true in
  let eager := Args objs uf mf bs ci false in
  let w1 := emit (EvReconcile objs) w in
  bulk_update_or_create lazy w = (Val (RGen (GenCreated lazy)), w1) ∧
  (rejected (w_heap w) lazy →
     ∃ msg, gen_next (GenCreated lazy) w1 = (Exc (ValueError msg), GenClosed, w1)) ∧
  (accepted (w_heap w) lazy →
     gen_next (GenCreated lazy) w1 = gen_loop (frame_of lazy) (batches_of lazy) w1) ∧
  (∃ r w',
     gen_next (GenCreated eager) w1 = (r, GenClosed, w') ∧
     ((r = Val StopIteration ∧ bulk_update_or_create eager w = (Val (RList []), w')) ∨
      (∃ e, r = Exc e ∧ bulk_update_or_create eager w = (Exc e, w')))).
Proof.
  intros lazy eager w1. split; [done|]. split; [|split].
  - intros Hrej. destruct (rejected_start _ _ Hrej) as [msg Hs].
    exists msg. simpl. by rewrite Hs.
  - intros Hacc. simpl. by rewrite (accepted_start lazy (w_heap w)).
  - assert (a_yield_objects eager = false) as Hy by done.
    unfold bulk_update_or_create, __bulk_update_or_create, list_gen.
    rewrite Hy. change (emit (EvReconcile (a_objs eager)) w) with w1.
    rewrite iter_gen_protocol.
    assert (∃ r w', gen_next (GenCreated eager) w1 = (r, GenClosed, w') ∧
              (r = Val StopIteration ∨ ∃ e, r = Exc e)) as (r & w' & E & Hr).
    { simpl. destruct (start eager (w_heap w)) as [[fr rest]|e] eqn:Es; [|eauto 6].
      apply gen_loop_no_yield. unfold start in Es.
      repeat case_match; simplify_eq; done. }
    exists r, w'. rewrite E. split; [done|].
    destruct Hr as [->|[e ->]]; [left|right]; eauto.
Qed.

(** C3 (amended).  For an accepted input of M records, a positive
    [batch_size] N cuts it into ceil(M/N) batches, the i-th being the
    records from position i*N on, at most N of them and at least one, in
    input order; an omitted [batch_size] makes the whole input the only
    batch.  The batches are processed in that order.  With
    [yield_objects=True] a caller gets one outcome per batch, the i-th being
    that of the i-th batch; with [yield_objects=False] the same batches are
    processed and no outcome is produced. *)
Theorem batching_outcomes a w :
  accepted (w_heap w) a →
  let objs := a_objs a in
  let bs := batches_of a in
  (∀ N, a_batch_size a = Some N →
     length bs = Z.to_nat (ceil_div (Z.of_nat (length objs)) N) ∧
     ∀ i b, bs !! i = Some b →
       b = take (Z.to_nat N) (drop (i * Z.to_nat N) objs) ∧ b ≠ [] ∧
       (Z.of_nat (length b) ≤ N)%Z) ∧
  (a_batch_size a = None → bs = [objs]) ∧
  concat bs = objs ∧
  reconcile a w =
    match process_all (frame_of a) bs (emit (EvReconcile objs) w) with
    | (Val sts, w') => (Val (if a_yield_objects a then sts else []), w')
    | (Exc e, w') => (Exc e, w')
    end ∧
  (∀ sts w', reconcile a w = (Val sts, w') →
     if a_yield_objects a then Forall2 (outcome_of S (frame_of a)) bs sts
     else sts = []).
Proof.
  intros Hacc objs bs. pose proof Hacc as (Hne & _ & _ & Hbs).
  split; [|split; [|split; [|split]]].
  - intros N HN. specialize (Hbs N HN). subst bs. unfold batches_of.
    rewrite HN. simpl. split; [by apply batches_length|].
    intros i b. by apply batches_lookup.
  - intros HN. subst bs. unfold batches_of. rewrite HN. simpl.
    by apply batches_default.
  - subst bs. unfold batches_of. destruct (a_batch_size a) as [N|] eqn:HN; simpl.
    + apply batches_concat. by apply Hbs.
    + rewrite batches_default by done. simpl. by rewrite app_nil_r.
  - by apply reconcile_accepted.
  - intros sts w'. rewrite reconcile_accepted by done.
    destruct (process_all _ _ _) as [[sts'|e] w2] eqn:Ep; [|done].
    intros [= <- _]. destruct (a_yield_objects a); [|done].
    by eapply process_all_outcomes.
Qed.
End reconcile_claims.

(** ** The queue accumulator *)

Lemma flush_count_app l1 l2 : flush_count (l1 ++ l2) = flush_count l1 + flush_count l2.
Proof. unfold flush_count. by rewrite List.filter_app, length_app. Qed.

Lemma reconcile_calls_app l1 l2 :
  reconcile_calls (l1 ++ l2) = reconcile_calls l1 ++ reconcile_calls l2.
Proof. apply omap_app. Qed.

Lemma observed_app l1 l2 : observed (l1 ++ l2) = observed l1 ++ observed l2.
Proof. apply omap_app. Qed.

Lemma store_calls_app l1 l2 : store_calls (l1 ++ l2) = store_calls l1 ++ store_calls l2.
Proof. apply List.filter_app. Qed.

Lemma inner_events_quiet evs :
  Forall inner_event evs → flush_count evs = 0 ∧ reconcile_calls evs = [].
Proof.
  induction 1 as [|e evs He _ [IH1 IH2]]; [done|].
  change (e :: evs) with ([e] ++ evs).
  rewrite flush_count_app, reconcile_calls_app, IH1, IH2.
  destruct He as [He|[st ->]]; [|done]. by destruct e.
Qed.

Lemma store_events_unobserved evs : Forall store_event evs → observed evs = [].
Proof.
  induction 1 as [|e evs He _ IH]; [done|].
  change (e :: evs) with ([e] ++ evs). rewrite observed_app, IH. by destruct e.
Qed.

Section accumulator_facts.
Context {S : Type} `{Store S}.
Implicit Types (w : world S) (c : cm S) (cb : callback S).

(** With [yield_objects] set, the observer is called on every outcome as it
    is produced, and on nothing else. *)
Lemma iter_rest_observed fr cb rest w r w' :
  f_yield_objects fr = true →
  iter_rest fr (λ _ st, call_cb cb st) rest tt w = (r, w') →
  ∃ evs sts,
    w_log w' = w_log w ++ evs ∧ Forall inner_event evs ∧ observed evs = sts ∧
    Forall2 (outcome_of S fr) (take (length sts) rest) sts ∧
    (r = Val tt → length sts = length rest).
Proof.
  intros Hy. revert w. induction rest as [|batch rest IH]; intros w; simpl.
  - intros [= <- <-]. exists [], []. rewrite app_nil_r. repeat split; constructor.
  - unfold bind at 1. destruct (process_batch fr batch w) as [[st|e] w1] eqn:Eb.
    + destruct (emits_only_process_batch store_event fr batch (λ _ H, H) _ _ _ Eb)
        as (evs1 & E1 & F1).
      rewrite Hy. unfold bind at 1.
      destruct (call_cb cb st w1) as [[[]|e] w2] eqn:Ec.
      * destruct (emits_only_call_cb (λ e, e = EvObserver st) cb st eq_refl _ _ _ Ec)
          as (evs2 & E2 & F2).
        assert (evs2 = [EvObserver st]) as ->.
        { unfold call_cb in Ec. destruct (cb st _) as [r' [h' s']].
          injection Ec as _ <-. simpl in E2. by apply app_inv_head in E2. }
        intros Er. destruct (IH _ Er) as (evs3 & sts & E3 & F3 & Ho & HF & Hlen).
        exists (evs1 ++ [EvObserver st] ++ evs3), (st :: sts).
        split; [by rewrite E3, E2, E1, <- !app_assoc|].
        split.
        { apply Forall_app. split; [eapply Forall_impl; [exact F1|by left]|].
          constructor; [right; eauto|done]. }
        split; [by rewrite !observed_app, (store_events_unobserved evs1), Ho|].
        split; [simpl; constructor; [by exists w, w1|done]|].
        intros Hr. simpl. by rewrite Hlen.
      * intros [= <- <-].
        assert (w_log w2 = w_log w1 ++ [EvObserver st]) as E2.
        { unfold call_cb in Ec. destruct (cb st _) as [r' [h' s']].
          by injection Ec as _ <-. }
        exists (evs1 ++ [EvObserver st]), [st].
        split; [by rewrite E2, E1, <- app_assoc|].
        split.
        { apply Forall_app. split; [eapply Forall_impl; [exact F1|by left]|].
          constructor; [right; eauto|done]. }
        split; [by rewrite observed_app, (store_events_unobserved evs1)|].
        split; [simpl; rewrite take_0; constructor; [by exists w, w1|constructor]|done].
    + intros [= <- <-].
      destruct (emits_only_process_batch store_event fr batch (λ _ H, H) _ _ _ Eb)
        as (evs1 & E1 & F1).
      exists evs1, []. split; [done|].
      split; [eapply Forall_impl; [exact F1|by left]|].
      split; [by apply store_events_unobserved|]. split; [constructor|done].
Qed.
End accumulator_facts.

Lemma start_Val a h fr bs :
  start a h = Val (fr, bs) → fr = frame_of a ∧ bs = batches_of a.
Proof. unfold start, batches_of. intros Es. repeat case_match; by simplify_eq. Qed.

Section dump_queue_facts.
Context {S : Type} `{Store S}.
Implicit Types (w : world S) (c : cm S) (cb : callback S).

Lemma dump_args_batches c : _queue c ≠ [] → batches_of (dump_args c) = [_queue c].
Proof. intros Hq. unfold batches_of, dump_args. simpl. by apply batches_default. Qed.

Lemma dump_queue_empty c w : _queue c = [] → dump_queue c w = (Val tt, c, emit EvFlush w).
Proof. intros Hq. unfold dump_queue. by rewrite Hq. Qed.

(** A flush of a non-empty buffer: one reconcile call on the whole buffer;
    the buffer is emptied if and only if nothing raised. *)
Lemma dump_queue_nonempty c w r c' w' :
  _queue c ≠ [] → dump_queue c w = (r, c', w') →
  ∃ evs,
    w_log w' = w_log w ++ EvFlush :: EvReconcile (_queue c) :: evs ∧
    Forall inner_event evs ∧
    (r = Val tt → c' = set_queue c [] ∧
                  ∃ st, outcome_of S (frame_of (dump_args c)) (_queue c) st) ∧
    (∀ e, r = Exc e → c' = c) ∧
    (_cb c = None → observed evs = []) ∧
    (∀ cb, _cb c = Some cb →
       Forall2 (outcome_of S (frame_of (dump_args c)))
               (take (length (observed evs)) [_queue c]) (observed evs) ∧
       (r = Val tt → length (observed evs) = 1)).
Proof.
  intros Hq. unfold dump_queue.
  destruct (_queue c) as [|o q] eqn:Eq; [done|]. rewrite <- Eq in *.
  unfold bulk_update_or_create, __bulk_update_or_create.
  set (a := dump_args c). set (w0 := emit EvFlush w).
  change (a_objs a) with (_queue c).
  set (w1 := emit (EvReconcile (_queue c)) w0).
  assert (w_log w1 = w_log w ++ [EvFlush; EvReconcile (_queue c)]) as Elog.
  { simpl. by rewrite <- app_assoc. }
  assert (batches_of a = [_queue c]) as Hbs by apply (dump_args_batches c Hq).
  destruct (_cb c) as [cb|] eqn:Ecb.
  - assert (a_yield_objects a = true) as -> by (unfold a, dump_args; by rewrite Ecb).
    unfold for_returned, for_gen, iter_gen.
    destruct (start a (w_heap w1)) as [[fr bs]|e] eqn:Es.
    + apply start_Val in Es as [-> ->]. rewrite Hbs.
      destruct (iter_rest _ _ _ _ _) as [[[]|e] w2] eqn:Ei; intros [= <- <- <-];
        (apply iter_rest_observed in Ei; [|by unfold a, dump_args; simpl; rewrite Ecb]);
        destruct Ei as (evs & sts & E & F & Ho & HF & Hlen);
        exists evs; (split; [by rewrite E, Elog, <- app_assoc|]);
        (split; [done|]); subst sts.
      * split; [|split; [done|split; [done|]]].
        { intros _. split; [done|]. specialize (Hlen eq_refl). simpl in Hlen.
          destruct (observed evs) as [|st [|]]; simplify_eq/=.
          apply Forall2_cons_1 in HF as [? _]. eauto. }
        intros cb' [= <-]. split; [done|]. intros _. by apply Hlen.
      * split; [done|]. split; [by intros e' [= <-]|]. split; [done|].
        intros cb' [= <-]. split; [done|]. done.
    + intros [= <- <- <-]. exists []. split; [by rewrite Elog|].
      split; [constructor|]. split; [done|]. split; [done|]. split; [done|].
      intros cb' _. split; [constructor|done].
  - assert (a_yield_objects a = false) as Hy by (unfold a, dump_args; by rewrite Ecb).
    rewrite Hy.
    destruct (list_gen (GenCreated a) w1) as [[l|e] w2] eqn:El.
    + intros [= <- <- <-].
      destruct (emits_only_list_gen store_event _ (λ _ H, H) _ _ _ El) as (evs & E & F).
      exists evs. split; [by rewrite E, Elog, <- app_assoc|].
      split; [eapply Forall_impl; [exact F|by left]|].
      split; [|split; [done|split; [intros _; by apply store_events_unobserved|done]]].
      intros _. split; [done|].
      unfold list_gen, iter_gen in El.
      destruct (start a (w_heap w1)) as [[fr bs]|e] eqn:Es; [|done].
      apply start_Val in Es as [-> ->]. rewrite Hbs in El.
      rewrite iter_rest_collect in El.
      destruct (process_all _ _ _) as [[sts|e] w3] eqn:Ep; [|done].
      apply process_all_outcomes in Ep.
      apply Forall2_cons_inv_l in Ep as (st & ? & ? & _ & _). eauto.
    + intros [= <- <- <-].
      destruct (emits_only_list_gen store_event _ (λ _ H, H) _ _ _ El) as (evs & E & F).
      exists evs. split; [by rewrite E, Elog, <- app_assoc|].
      split; [eapply Forall_impl; [exact F|by left]|].
      split; [done|]. split; [by intros e' [= <-]|].
      split; [intros _; by apply store_events_unobserved|done].
Qed.

(** Whatever the buffer holds, a flush is logged once. *)
Lemma dump_queue_flush_count c w r c' w' :
  dump_queue c w = (r, c', w') → flush_count (w_log w') = Datatypes.S (flush_count (w_log w)).
Proof.
  intros E. destruct (decide (_queue c = [])) as [Hq|Hq].
  - rewrite dump_queue_empty in E by done. injection E as _ _ <-.
    simpl. rewrite flush_count_app. simpl. unfold flush_count at 2. simpl. lia.
  - destruct (dump_queue_nonempty _ _ _ _ _ Hq E) as (evs & -> & F & _).
    apply inner_events_quiet in F as [F _].
    change (EvFlush :: EvReconcile (_queue c) :: evs)
      with ([EvFlush; EvReconcile (_queue c)] ++ evs).
    rewrite !flush_count_app, F. unfold flush_count at 2. simpl. lia.
Qed.
End dump_queue_facts.

Section accumulator_claims.
Context {S : Type} `{Store S}.
Implicit Types (w : world S) (c : cm S) (cb : callback S).

(** C7.  [queue] appends the record to the buffer.  While the new length is
    below the threshold nothing else happens: no flush, the world is
    untouched.  Once it reaches the threshold, the push is that one flush of
    the extended buffer: exactly one flush is logged during the push, and if
    it completes the buffer is empty.  So, for a positive threshold, after
    every completed push the buffer is strictly shorter than the threshold. *)
Theorem queue_threshold c obj w :
  let c1 := set_queue c (_queue c ++ [obj]) in
  let n := Z.of_nat (length (_queue c) + 1) in
  ((n < _batch_size c)%Z → queue obj c w = (Val tt, c1, w)) ∧
  ((_batch_size c ≤ n)%Z →
     queue obj c w = dump_queue c1 w ∧
     ∀ r c' w', queue obj c w = (r, c', w') →
       flush_count (w_log w') = Datatypes.S (flush_count (w_log w)) ∧
       (r = Val tt → _queue c' = [])) ∧
  ((0 < _batch_size c)%Z →
     ∀ c' w', queue obj c w = (Val tt, c', w') →
       (Z.of_nat (length (_queue c')) < _batch_size c')%Z).
Proof.
  intros c1 n.
  assert (Z.of_nat (length (_queue c1)) = n) as Hn.
  { unfold c1, n. simpl. rewrite length_app. simpl. done. }
  assert (_queue c1 ≠ []) as Hne.
  { unfold c1. simpl. by destruct (_queue c). }
  assert ((_batch_size c ≤ n)%Z → queue obj c w = dump_queue c1 w) as Hflush.
  { intros Hge. unfold queue. fold c1. rewrite Hn.
    destruct (Z.geb_spec n (_batch_size c1)) as [_|Hlt]; [done|].
    unfold c1 in Hlt. simpl in Hlt. lia. }
  assert ((n < _batch_size c)%Z → queue obj c w = (Val tt, c1, w)) as Hbelow.
  { intros Hlt. unfold queue. fold c1. rewrite Hn.
    destruct (Z.geb_spec n (_batch_size c1)) as [Hge|_]; [|done].
    unfold c1 in Hge. simpl in Hge. lia. }
  split; [done|]. split.
  - intros Hge. split; [by apply Hflush|].
    intros r c' w'. rewrite Hflush by done. intros E.
    split; [by eapply dump_queue_flush_count|].
    intros ->. destruct (dump_queue_nonempty _ _ _ _ _ Hne E) as (_ & _ & _ & Hc & _).
    by destruct (Hc eq_refl) as [-> _].
  - intros Hpos c' w'. destruct (Z.lt_ge_cases n (_batch_size c)) as [Hlt|Hge].
    + rewrite Hbelow by done. intros [= <- _]. by rewrite Hn.
    + rewrite Hflush by done. intros E.
      destruct (dump_queue_nonempty _ _ _ _ _ Hne E) as (_ & _ & _ & Hc & _).
      destruct (Hc eq_refl) as [-> _]. simpl. lia.
Qed.


(** C9.  A flush of a non-empty buffer with an observer: the observer is
    called on the outcomes in the order they are produced, once each, and on
    nothing else.  If the flush completes, every batch's outcome was observed
    and the buffer is empty; if anything raises on the way, the observer
    included, the exception leaves [dump_queue] before the buffer is reset:
    the buffer still holds the flushed records. *)
Theorem observer_before_clear c cb w r c' w' :
  _cb c = Some cb → _queue c ≠ [] → dump_queue c w = (r, c', w') →
  ∃ evs,
    w_log w' = w_log w ++ EvFlush :: EvReconcile (_queue c) :: evs ∧
    Forall2 (outcome_of S (frame_of (dump_args c)))
            (take (length (observed evs)) (batches_of (dump_args c)))
            (observed evs) ∧
    (r = Val tt →
       length (observed evs) = length (batches_of (dump_args c)) ∧ _queue c' = []) ∧
    (∀ e, r = Exc e → _queue c' = _queue c).
Proof.
  intros Hcb Hq Ed.
  destruct (dump_queue_nonempty _ _ _ _ _ Hq Ed) as (evs & E & F & Hv & He & _ & Ho).
  destruct (Ho cb Hcb) as [HF Hlen].
  exists evs. rewrite (dump_args_batches c Hq). split; [done|]. split; [done|].
  split.
  - intros Hr. destruct (Hv Hr) as [-> _]. split; [by apply Hlen|done].
  - intros e Hr. by rewrite (He e Hr).
Qed.
End accumulator_claims.

(** ** Insertion-ordered dictionaries *)

Section odict_facts.
Context {K V : Type} `{EqDecision K}.
Implicit Types (d : odict K V) (k : K) (v : V).

Lemma dget_dset d k v k' :
  dget (dset d k v) k' = if decide (k' = k) then Some v else dget d k'.
Proof.
  induction d as [|[k0 v0] d IH]; simpl.
  - repeat case_decide; congruence.
  - destruct (decide (k = k0)) as [->|Hne]; simpl.
    + destruct (decide (k' = k0)); done.
    + rewrite IH. repeat case_decide; congruence.
Qed.

Lemma dget_None d k : dget d k = None ↔ k ∉ dkeys d.
Proof.
  induction d as [|[k0 v0] d IH]; simpl.
  - split; [intros _; apply not_elem_of_nil|done].
  - rewrite not_elem_of_cons. destruct (decide (k = k0)) as [->|Hne].
    + split; [done|]. by intros [? _].
    + rewrite IH. tauto.
Qed.

Lemma dget_Some_elem d k v : dget d k = Some v → (k, v) ∈ d.
Proof.
  induction d as [|[k0 v0] d IH]; simpl; [done|].
  destruct (decide (k = k0)) as [->|_].
  - intros [= ->]. by left.
  - intros ?. right. auto.
Qed.

Lemma elem_dget d k v : NoDup (dkeys d) → (k, v) ∈ d → dget d k = Some v.
Proof.
  induction d as [|[k0 v0] d IH]; simpl; [by intros _ ?%elem_of_nil|].
  intros [Hk0 Hnd]%NoDup_cons [[= -> ->]|Hin]%elem_of_cons.
  - by rewrite decide_True.
  - rewrite decide_False; [auto|]. intros ->. apply Hk0.
    apply list_elem_of_fmap. by exists (k0, v).
Qed.

Lemma dset_fresh d k v : k ∉ dkeys d → dset d k v = d ++ [(k, v)].
Proof.
  induction d as [|[k0 v0] d IH]; simpl; [done|].
  intros [Hne Hk]%not_elem_of_cons. rewrite decide_False by done. by rewrite IH.
Qed.

Lemma dkeys_dset_in d k v : k ∈ dkeys d → dkeys (dset d k v) = dkeys d.
Proof.
  induction d as [|[k0 v0] d IH]; cbn [dset dkeys map fst]; [by intros ?%elem_of_nil|].
  intros Hin. destruct (decide (k = k0)) as [->|Hne]; cbn [map fst]; [done|].
  apply elem_of_cons in Hin as [?|Hin]; [done|]. f_equal. by apply IH.
Qed.

Lemma dkeys_dset_fresh d k v : k ∉ dkeys d → dkeys (dset d k v) = dkeys d ++ [k].
Proof. intros Hk. rewrite dset_fresh by done. unfold dkeys. by rewrite map_app. Qed.

Lemma dkeys_dset_NoDup d k v : NoDup (dkeys d) → NoDup (dkeys (dset d k v)).
Proof.
  intros Hnd. destruct (decide (k ∈ dkeys d)) as [Hin|Hk].
  - by rewrite dkeys_dset_in.
  - rewrite dkeys_dset_fresh by done.
    apply NoDup_app. split; [done|]. split; [|apply NoDup_singleton].
    intros x Hx ->%list_elem_of_singleton. done.
Qed.

Lemma dkeys_dset_elem d k v k' : k' ∈ dkeys (dset d k v) ↔ k' = k ∨ k' ∈ dkeys d.
Proof.
  destruct (decide (k ∈ dkeys d)) as [Hin|Hk].
  - rewrite dkeys_dset_in by done. split; [auto|]. by intros [->|?].
  - rewrite dkeys_dset_fresh by done.
    rewrite elem_of_app, list_elem_of_singleton. tauto.
Qed.

Lemma dset_all_fresh d (xs : list (K * V)) :
  NoDup (dkeys d ++ xs.*1) → foldl (λ d kv, dset d kv.1 kv.2) d xs = d ++ xs.
Proof.
  revert d. induction xs as [|[k v] xs IH]; intros d Hnd; simpl.
  - by rewrite app_nil_r.
  - simpl in Hnd. rewrite dset_fresh.
    + rewrite IH; [by rewrite <- app_assoc|].
      unfold dkeys in *. rewrite map_app. simpl. by rewrite <- app_assoc.
    + apply NoDup_app in Hnd as (_ & Hd & _). intros Hk. apply (Hd k Hk). by left.
Qed.

(** Without duplicate keys the dictionary is the sequence itself. *)
Lemma dict_of_NoDup (xs : list (K * V)) : NoDup xs.*1 → dict_of xs = xs.
Proof. intros Hnd. unfold dict_of. by rewrite dset_all_fresh. Qed.

Lemma dict_of_snoc (xs : list (K * V)) k v :
  dict_of (xs ++ [(k, v)]) = dset (dict_of xs) k v.
Proof. unfold dict_of. by rewrite foldl_app. Qed.

Lemma dict_of_NoDup_keys (xs : list (K * V)) : NoDup (dkeys (dict_of xs)).
Proof.
  induction xs as [|[k v] xs IH] using rev_ind; [constructor|].
  rewrite dict_of_snoc. by apply dkeys_dset_NoDup.
Qed.

Lemma dict_of_keys_elem (xs : list (K * V)) k : k ∈ dkeys (dict_of xs) ↔ k ∈ xs.*1.
Proof.
  induction xs as [|[k0 v0] xs IH] using rev_ind.
  - done.
  - rewrite dict_of_snoc, dkeys_dset_elem, IH, fmap_app, elem_of_app. simpl.
    rewrite list_elem_of_singleton. tauto.
Qed.

(** Last write wins: the value under [k] is the one of the last pair with
    key [k]. *)
Lemma dict_of_last (xs1 xs2 : list (K * V)) k v :
  k ∉ xs2.*1 → dget (dict_of (xs1 ++ (k, v) :: xs2)) k = Some v.
Proof.
  induction xs2 as [|[k0 v0] xs2 IH] using rev_ind; intros Hk.
  - rewrite dict_of_snoc, dget_dset. by rewrite decide_True.
  - rewrite fmap_app, not_elem_of_app in Hk. destruct Hk as [Hk Hk0].
    simpl in Hk0. rewrite not_elem_of_cons in Hk0. destruct Hk0 as [Hk0 _].
    replace (xs1 ++ (k, v) :: xs2 ++ [(k0, v0)])
      with ((xs1 ++ (k, v) :: xs2) ++ [(k0, v0)]) by by rewrite <- app_assoc.
    rewrite dict_of_snoc, dget_dset. rewrite decide_False by done. auto.
Qed.

Lemma dict_of_get_last (xs : list (K * V)) k v :
  dget (dict_of xs) k = Some v →
  ∃ xs1 xs2, xs = xs1 ++ (k, v) :: xs2 ∧ k ∉ xs2.*1.
Proof.
  induction xs as [|[k0 v0] xs IH] using rev_ind; [done|].
  rewrite dict_of_snoc, dget_dset. destruct (decide (k = k0)) as [->|Hne].
  - intros [= ->]. exists xs, []. split; [done|]. apply not_elem_of_nil.
  - intros (xs1 & xs2 & -> & Hk)%IH. exists xs1, (xs2 ++ [(k0, v0)]).
    split; [by rewrite <- app_assoc|].
    rewrite fmap_app, not_elem_of_app. split; [done|].
    simpl. rewrite not_elem_of_cons. split; [done|apply not_elem_of_nil].
Qed.

Lemma ddel_Some_elem d k d' :
  NoDup (dkeys d) → ddel d k = Some d' →
  k ∈ dkeys d ∧ NoDup (dkeys d') ∧ length d = Datatypes.S (length d') ∧
  (∀ kv, kv ∈ d' ↔ kv ∈ d ∧ kv.1 ≠ k).
Proof.
  revert d'. induction d as [|[k0 v0] d IH]; intros d'; simpl; [done|].
  intros [Hk0 Hnd]%NoDup_cons. destruct (decide (k = k0)) as [->|Hne].
  - intros [= <-]. split; [by left|]. split; [done|]. split; [done|].
    intros [k1 v1]. simpl. rewrite elem_of_cons. split.
    + intros Hin. split; [by right|]. intros ->. apply Hk0.
      apply list_elem_of_fmap. by exists (k0, v1).
    + intros [[[= -> ->]|Hin] Hn]; done.
  - destruct (ddel d k) as [d''|] eqn:Ed; [|done]. intros [= <-].
    destruct (IH d'' Hnd eq_refl) as (Hk & Hnd' & Hlen & Hiff).
    split; [by right|]. split.
    { simpl. apply NoDup_cons. split; [|done].
      intros (kv & Hkv & Hin)%list_elem_of_fmap. apply Hiff in Hin as [Hin _].
      apply Hk0. apply list_elem_of_fmap. eauto. }
    split; [simpl; by rewrite Hlen|].
    intros kv. rewrite !elem_of_cons, Hiff. split.
    + intros [->|[? ?]]; [|by auto]. split; [by left|]. simpl. congruence.
    + intros [[->|?] ?]; auto.
Qed.

Lemma ddel_is_Some d k : k ∈ dkeys d → is_Some (ddel d k).
Proof.
  induction d as [|[k0 v0] d IH]; simpl; [by intros ?%elem_of_nil|].
  intros [->|Hin]%elem_of_cons.
  - rewrite decide_True by done. eauto.
  - destruct (decide (k = k0)); [eauto|]. destruct (IH Hin) as [d' ->]. eauto.
Qed.
End odict_facts.

(** ** Keys and the lookup map *)

Lemma obj_key_getter_attrs fr h o :
  _obj_key_getter fr h o = attrs_key fr (obj_attrs h o).
Proof. done. Qed.

Lemma obj_key_getter_ext fr h h' o :
  h' !! o = h !! o → _obj_key_getter fr h' o = _obj_key_getter fr h o.
Proof. intros E. rewrite !obj_key_getter_attrs. unfold obj_attrs. by rewrite E. Qed.

Lemma key_at_ext fr h h' o : h' !! o = h !! o → key_at fr h' o = key_at fr h o.
Proof. intros E. unfold key_at. by rewrite (obj_key_getter_ext fr h h' o). Qed.

Lemma getattrs_is_Val (a : attrs) fs :
  (∀ f, f ∈ fs → is_Some (a !! f)) → ∃ k, getattrs a fs = Val k.
Proof.
  induction fs as [|f fs IH]; simpl; [eauto|]. intros Hall.
  destruct (Hall f) as [v ->]; [by left|].
  destruct IH as [k ->]; [|eauto]. intros g Hg. apply Hall. by right.
Qed.

Lemma hasattr_is_Some h o f : hasattr h o f = true ↔ is_Some (obj_attrs h o !! f).
Proof. unfold hasattr. apply bool_decide_eq_true. Qed.

(** A record that passed validation has a key. *)
Lemma well_formed_key a h o :
  well_formed h a → o ∈ a_objs a →
  _obj_key_getter (frame_of a) h o = Val (key_at (frame_of a) h o).
Proof.
  intros Hwf Ho. unfold key_at.
  destruct (getattrs_is_Val (obj_attrs h o) (normalize_match_field (a_match_field a)))
    as [k Hk].
  { intros f Hf. apply hasattr_is_Some, Hwf; [done|]. apply elem_of_app. by left. }
  unfold _obj_key_getter, _obj_key_getter_sensitive, frame_of. simpl. rewrite Hk.
  by destruct (a_case_insensitive_match a).
Qed.

Lemma obj_filter_map mf (d : odict key loc) :
  _obj_filter mf d = map (key_kwargs mf) (dkeys d).
Proof.
  unfold _obj_filter. generalize (dkeys d). intros ks.
  induction ks as [|k ks IH] using rev_ind; [done|].
  by rewrite foldl_app, map_app, IH.
Qed.

Section lookup_map.
Context {S : Type} `{Store S}.
Implicit Types (w : world S) (fr : frame).

Lemma build_from fr batch (d : odict key loc) w :
  Forall (λ o, _obj_key_getter fr (w_heap w) o = Val (key_at fr (w_heap w) o)) batch →
  fold_each batch
    (λ obj_map obj, do k <- key_getter_m fr obj; ret (dset obj_map k obj)) d w
  = (Val (foldl (λ d kv, dset d kv.1 kv.2) d
                (zip (keys_at fr (w_heap w) batch) batch)), w).
Proof.
  revert d. induction batch as [|o batch IH]; intros d Hk; simpl; [done|].
  apply Forall_cons in Hk as [Ho Hk].
  unfold bind at 1. unfold bind at 1. unfold key_getter_m at 1. rewrite Ho.
  unfold ret at 1. by rewrite IH.
Qed.

Lemma build_obj_map_dict fr batch w :
  Forall (λ o, _obj_key_getter fr (w_heap w) o = Val (key_at fr (w_heap w) o)) batch →
  build_obj_map fr batch w
  = (Val (dict_of (zip (keys_at fr (w_heap w) batch) batch)), w).
Proof. intros Hk. unfold build_obj_map. by rewrite build_from. Qed.

Lemma process_batch_unfold fr batch w :
  Forall (λ o, _obj_key_getter fr (w_heap w) o = Val (key_at fr (w_heap w) o)) batch →
  process_batch fr batch w =
  (let obj_map := dict_of (zip (keys_at fr (w_heap w) batch) batch) in
   do to_update <- filter_m (_obj_filter (f_match_field fr) obj_map);
   do obj_map' <- fold_each to_update (update_one fr) obj_map;
   bulk_update_m to_update (f_update_fields fr) ;;
   do created_objs <- fold_each (dvalues obj_map') create_one [];
   ret (created_objs, to_update)) w.
Proof.
  intros Hk. unfold process_batch. unfold bind at 1. by rewrite build_obj_map_dict.
Qed.
End lookup_map.

Lemma zip_fst_keys {A B} (ks : list A) (xs : list B) :
  length ks = length xs → (zip ks xs).*1 = ks.
Proof. intros Hl. apply fst_zip. lia. Qed.

Lemma zip_snd_keys {A B} (ks : list A) (xs : list B) :
  length ks = length xs → (zip ks xs).*2 = xs.
Proof. intros Hl. apply snd_zip. lia. Qed.

Lemma keys_at_length fr h objs : length (keys_at fr h objs) = length objs.
Proof. unfold keys_at. by rewrite length_map. Qed.

Lemma zip_map_self {A B} (f : A → B) (l : list A) :
  zip (map f l) l = map (λ x, (f x, x)) l.
Proof. induction l as [|x l IH]; simpl; [done|]. by rewrite IH. Qed.

Lemma zip_keys_values {A B} (f : B → A) (d : list (A * B)) :
  (∀ kv, kv ∈ d → kv.1 = f kv.2) → zip (map f (map snd d)) (map snd d) = d.
Proof.
  induction d as [|[k v] d IH]; simpl; [done|]. intros Hd.
  pose proof (Hd (k, v) ltac:(by left)) as Hkv. simpl in Hkv. subst k.
  f_equal. apply IH. intros kv Hkv. apply Hd. by right.
Qed.

Lemma has_key_key_at fr h o :
  (∃ k, _obj_key_getter fr h o = Val k) →
  _obj_key_getter fr h o = Val (key_at fr h o).
Proof. intros [k Hk]. unfold key_at. by rewrite Hk. Qed.

Section last_write.
Context {S : Type} `{Store S}.
Implicit Types (w : world S) (fr : frame).

(** C5.  Building the lookup map of a sub-batch whose records all have a
    key never raises and touches nothing, duplicates or not.  The map has
    one entry per distinct key; under a key it holds the last record of the
    sub-batch with that key, so every earlier record with that key is gone
    from it, unreported.  The sub-batch is then reconciled exactly as the
    sub-batch made of the records kept in the map would be (each sitting
    where its key first occurred, a dictionary keeping the position of a
    key it already holds). *)
Theorem last_write_wins fr batch w :
  Forall (λ o, ∃ k, _obj_key_getter fr (w_heap w) o = Val k) batch →
  ∃ obj_map : odict key loc,
    build_obj_map fr batch w = (Val obj_map, w) ∧
    NoDup (dkeys obj_map) ∧
    (∀ k, k ∈ dkeys obj_map ↔ k ∈ keys_at fr (w_heap w) batch) ∧
    (∀ b1 o b2,
       batch = b1 ++ o :: b2 →
       key_at fr (w_heap w) o ∉ keys_at fr (w_heap w) b2 →
       dget obj_map (key_at fr (w_heap w) o) = Some o) ∧
    (∀ k o,
       dget obj_map k = Some o →
       ∃ b1 b2, batch = b1 ++ o :: b2 ∧ key_at fr (w_heap w) o = k ∧
                k ∉ keys_at fr (w_heap w) b2) ∧
    process_batch fr batch w = process_batch fr (dvalues obj_map) w.
Proof.
  intros Hk.
  assert (Forall (λ o, _obj_key_getter fr (w_heap w) o
                       = Val (key_at fr (w_heap w) o)) batch) as Hk'.
  { eapply Forall_impl; [exact Hk|]. intros o. apply has_key_key_at. }
  set (f := key_at fr (w_heap w)).
  set (d := dict_of (zip (keys_at fr (w_heap w) batch) batch)).
  assert (zip (keys_at fr (w_heap w) batch) batch = map (λ o, (f o, o)) batch) as Hzip
    by apply zip_map_self.
  assert (∀ k o, dget d k = Some o →
            ∃ b1 b2, batch = b1 ++ o :: b2 ∧ f o = k ∧ k ∉ keys_at fr (w_heap w) b2)
    as Hback.
  { intros k o Hget. unfold d in Hget. rewrite Hzip in Hget.
    apply dict_of_get_last in Hget as (xs1 & xs2 & Hsplit & Hnot).
    apply fmap_app_inv in Hsplit as (b1 & b2' & -> & Hcons & ->).
    symmetry in Hcons.
    apply fmap_cons_inv in Hcons as (o' & b2 & [= -> ->] & -> & ->).
    exists b1, b2. split; [done|]. split; [done|].
    unfold keys_at. fold f. by rewrite <- list_fmap_compose in Hnot. }
  exists d. split; [by apply build_obj_map_dict|].
  split; [apply dict_of_NoDup_keys|]. split; [|split; [|split; [done|]]].
  - intros k. unfold d. rewrite dict_of_keys_elem, zip_fst_keys; [done|].
    apply keys_at_length.
  - intros b1 o b2 -> Hnot. unfold d. rewrite Hzip, map_app. simpl.
    apply dict_of_last. by rewrite <- list_fmap_compose.
  - assert (∀ kv, kv ∈ d → kv.1 = f kv.2) as Hd.
    { intros [k o] Hin. apply elem_dget in Hin; [|apply dict_of_NoDup_keys].
      apply Hback in Hin as (_ & _ & _ & <- & _). done. }
    assert (Forall (λ o, _obj_key_getter fr (w_heap w) o
                         = Val (key_at fr (w_heap w) o)) (dvalues d)) as Hkd.
    { apply Forall_forall. intros o (kv & -> & Hin)%list_elem_of_fmap.
      destruct kv as [k o]. apply elem_dget in Hin; [|apply dict_of_NoDup_keys].
      apply Hback in Hin as (b1 & b2 & -> & _ & _).
      apply Forall_app in Hk' as [_ Hk']. by apply Forall_cons in Hk' as [? _]. }
    rewrite (process_batch_unfold fr batch) by done.
    rewrite (process_batch_unfold fr (dvalues d)) by done.
    fold d. unfold keys_at. fold f. unfold dvalues.
    rewrite (zip_keys_values f d Hd).
    rewrite (dict_of_NoDup d) by apply dict_of_NoDup_keys. done.
Qed.
End last_write.

(** ** Records that are all new *)

Lemma bind_val {S A B} (m : M S A) (k : A → M S B) w a w' :
  m w = (Val a, w') → bind m k w = k a w'.
Proof. intros E. unfold bind. by rewrite E. Qed.

Lemma bind_ret {S A B} (a : A) (k : A → M S B) w : bind (ret a) k w = k a w.
Proof. done. Qed.

Lemma bind_exc {S A B} (m : M S A) (k : A → M S B) w e w' :
  m w = (Exc e, w') → bind m k w = (Exc e, w').
Proof. intros E. unfold bind. by rewrite E. Qed.

Lemma saved_app l1 l2 : saved (l1 ++ l2) = saved l1 ++ saved l2.
Proof. apply omap_app. Qed.

Lemma bulk_updated_app l1 l2 : bulk_updated (l1 ++ l2) = bulk_updated l1 ++ bulk_updated l2.
Proof. unfold bulk_updated. by rewrite omap_app, concat_app. Qed.

Lemma saved_map_EvSave objs : saved (map EvSave objs) = objs.
Proof. induction objs as [|o objs IH]; [done|]. cbn. f_equal. exact IH. Qed.

Lemma bulk_updated_map_EvSave objs : bulk_updated (map EvSave objs) = [].
Proof. induction objs as [|o objs IH]; simpl; done. Qed.

Lemma keys_at_app fr h l1 l2 : keys_at fr h (l1 ++ l2) = keys_at fr h l1 ++ keys_at fr h l2.
Proof. apply map_app. Qed.

Lemma keys_at_ext fr h h' objs :
  (∀ o, o ∈ objs → h' !! o = h !! o) → keys_at fr h' objs = keys_at fr h objs.
Proof.
  intros Hext. apply map_ext_in. intros o Ho. apply key_at_ext, Hext.
  by apply list_elem_of_In.
Qed.

Section all_new.
Context {S : Type} `{Store S}.
Implicit Types (w : world S) (fr : frame).

Lemma create_all objs acc w r0 h' s' :
  save_each objs (w_heap w) (w_db w) = (r0, h', s') →
  ∃ done,
    fold_each objs create_one acc w
    = (match r0 with Val _ => Val (acc ++ objs) | Exc e => Exc e end,
       World h' s' (w_log w ++ map EvSave done)) ∧
    done `prefix_of` objs ∧
    (∀ u, r0 = Val u → done = objs) ∧
    (∀ o, o ∉ objs → h' !! o = w_heap w !! o) ∧
    (writes_succeed S → ∃ u, r0 = Val u).
Proof.
  revert acc w. induction objs as [|o objs IH]; intros acc w; cbn [save_each].
  - intros [= <- <- <-]. exists []. simpl. rewrite !app_nil_r.
    split; [by destruct w|]. split; [done|]. split; [done|]. split; [done|eauto].
  - destruct (st_save (obj_attrs (w_heap w) o) (w_db w)) as [[a'|e] s1] eqn:Es.
    + intros E.
      set (w1 := World (<[o := a']> (w_heap w)) s1 (w_log w ++ [EvSave o])).
      assert (create_one acc o w = (Val (acc ++ [o]), w1)) as Ec.
      { unfold create_one, bind, save_m. simpl. by rewrite Es. }
      destruct (IH (acc ++ [o]) w1 E) as (done & E2 & Hpre & Hval & Hframe & Hw).
      exists (o :: done). split.
      { cbn [fold_each]. rewrite (bind_val _ _ _ _ _ Ec), E2. cbn [w1 w_log map].
        rewrite <- !app_assoc. by destruct r0. }
      split; [by apply prefix_cons|]. split; [by intros u ->%Hval|].
      split; [|done].
      intros o' [Hne Hnot]%not_elem_of_cons. rewrite Hframe by done.
      cbn [w1 w_heap]. by rewrite lookup_insert_ne.
    + intros [= <- <- <-]. exists [o]. split.
      { cbn [fold_each]. apply bind_exc. unfold create_one. apply bind_exc.
        unfold save_m. simpl. by rewrite Es. }
      split; [apply prefix_cons, prefix_nil|]. split; [done|]. split; [done|].
      intros [_ Hsave]. destruct (Hsave (obj_attrs (w_heap w) o) (w_db w)) as (a' & s'' & Es').
      congruence.
Qed.

Lemma process_batch_all_new fr batch w r0 h' s' :
  finds_nothing fr [batch] w →
  Forall (λ o, ∃ k, _obj_key_getter fr (w_heap w) o = Val k) batch →
  NoDup (keys_at fr (w_heap w) batch) →
  insert_batch fr batch (w_heap w) (w_db w) = (r0, h', s') →
  ∃ done,
    process_batch fr batch w
    = (match r0 with Val _ => Val (batch, []) | Exc e => Exc e end,
       World h' s'
         (w_log w
          ++ EvFilter (map (key_kwargs (f_match_field fr)) (keys_at fr (w_heap w) batch))
             :: EvBulkUpdate [] (f_update_fields fr) :: map EvSave done)) ∧
    done `prefix_of` batch ∧
    (∀ u, r0 = Val u → done = batch) ∧
    (∀ o, o ∉ batch → h' !! o = w_heap w !! o) ∧
    (writes_succeed S → ∃ u, r0 = Val u).
Proof.
  intros Hfind Hk Hnd. unfold insert_batch.
  rewrite process_batch_unfold
    by (eapply Forall_impl; [exact Hk|]; intros o; apply has_key_key_at).
  set (h0 := w_heap w) in *. set (ks := keys_at fr h0 batch) in *.
  assert (length ks = length batch) as Hlen by apply keys_at_length.
  rewrite dict_of_NoDup by by rewrite zip_fst_keys.
  cbv zeta. rewrite obj_filter_map. unfold dkeys.
  change (map fst (zip ks batch)) with ((zip ks batch).*1).
  rewrite zip_fst_keys by done.
  set (q := map (key_kwargs (f_match_field fr)) ks).
  destruct Hfind as [[s1 Ef] _]. fold h0 ks q in Ef. rewrite Ef.
  set (w1 := World (w_heap w) s1 (w_log w ++ [EvFilter q])).
  assert (filter_m q w = (Val [], w1)) as E1.
  { unfold filter_m. simpl. by rewrite Ef. }
  rewrite (bind_val _ _ _ _ _ E1). simpl fold_each at 1.
  rewrite bind_ret.
  destruct (st_bulk_update [] (f_update_fields fr) s1) as [[[]|e] s2] eqn:Eb.
  - set (w2 := World (w_heap w) s2 (w_log w1 ++ [EvBulkUpdate [] (f_update_fields fr)])).
    assert (bulk_update_m [] (f_update_fields fr) w1 = (Val tt, w2)) as E2.
    { unfold bulk_update_m. simpl. by rewrite Eb. }
    rewrite (bind_val _ _ _ _ _ E2).
    unfold dvalues. change (map snd (zip ks batch)) with ((zip ks batch).*2).
    rewrite zip_snd_keys by done.
    intros Es.
    destruct (create_all batch [] w2 r0 h' s' Es) as (done & E3 & Hpre & Hval & Hframe & Hw).
    exists done. split.
    { unfold bind at 1. rewrite E3. cbn [w2 w1 w_log]. rewrite <- !app_assoc.
      by destruct r0. }
    split; [done|]. split; [done|]. split; [done|].
    intros Hwrite. by apply Hw.
  - intros [= <- <- <-]. exists []. split.
    { apply bind_exc. unfold bulk_update_m. simpl. rewrite Eb.
      by rewrite <- !app_assoc. }
    split; [apply prefix_nil|]. split; [done|]. split; [done|].
    intros [Hbulk _]. destruct (Hbulk [] (f_update_fields fr) s1) as [s'' Eb']. congruence.
Qed.

Lemma process_all_all_new fr bs w r0 h' s' :
  finds_nothing fr bs w →
  Forall (λ o, ∃ k, _obj_key_getter fr (w_heap w) o = Val k) (concat bs) →
  NoDup (keys_at fr (w_heap w) (concat bs)) →
  insert_batches fr bs (w_heap w) (w_db w) = (r0, h', s') →
  ∃ evs,
    process_all fr bs w
    = (match r0 with Val _ => Val (map (λ b, (b, [])) bs) | Exc e => Exc e end,
       World h' s' (w_log w ++ evs)) ∧
    saved evs `prefix_of` concat bs ∧ bulk_updated evs = [] ∧
    (∀ u, r0 = Val u → evs = concat (map (created_events fr (w_heap w)) bs)) ∧
    (writes_succeed S → ∃ u, r0 = Val u).
Proof.
  revert w. induction bs as [|b bs IH]; intros w Hfind Hk Hnd; cbn [insert_batches].
  - intros [= <- <- <-]. exists []. simpl. rewrite app_nil_r.
    split; [by destruct w|]. split; [done|]. split; [done|]. split; [done|eauto].
  - simpl in Hk, Hnd. apply Forall_app in Hk as [Hkb Hkr].
    rewrite keys_at_app in Hnd. apply NoDup_app in Hnd as (Hndb & Hdisj & Hndr).
    destruct Hfind as [Hfb Hfind].
    destruct (insert_batch fr b (w_heap w) (w_db w)) as [[rb h1] s1] eqn:Eb.
    destruct (process_batch_all_new fr b w rb h1 s1 (conj Hfb I) Hkb Hndb Eb)
      as (done & E1 & Hpre & Hval & Hframe & Hw).
    set (evs1 := EvFilter _ :: _) in E1.
    assert (saved evs1 = done ∧ bulk_updated evs1 = []) as [Hs1 Hb1].
    { unfold evs1. split.
      - change (saved (map EvSave done) = done). apply saved_map_EvSave.
      - change (bulk_updated (map EvSave done) = []). apply bulk_updated_map_EvSave. }
    destruct rb as [u|e].
    + rewrite E1 in Hfind. cbn [snd] in Hfind.
      set (w1 := World h1 s1 (w_log w ++ evs1)) in *.
      assert (∀ o, o ∈ concat bs → h1 !! o = w_heap w !! o) as Hsame.
      { intros o Ho. apply Hframe. intros Hb. apply (Hdisj (key_at fr (w_heap w) o)).
        - apply list_elem_of_fmap. eauto.
        - apply list_elem_of_fmap. eauto. }
      intros Er.
      destruct (IH w1 Hfind) as (evs2 & E2 & Hpre2 & Hb2 & Hval2 & Hw2); [| |exact Er|].
      { apply Forall_forall. intros o Ho. rewrite Forall_forall in Hkr.
        destruct (Hkr o Ho) as [k Hgk]. exists k.
        simpl. by rewrite (obj_key_getter_ext fr (w_heap w) h1 o (Hsame o Ho)). }
      { simpl. by rewrite (keys_at_ext fr (w_heap w) h1 _ Hsame). }
      assert (map (created_events fr h1) bs = map (created_events fr (w_heap w)) bs)
        as Hev.
      { apply map_ext_in. intros b' Hb'. unfold created_events.
        rewrite (keys_at_ext fr (w_heap w) h1 b'); [done|].
        intros o Ho. apply Hsame. apply list_elem_of_In, in_concat. exists b'.
        split; [done|]. by apply list_elem_of_In. }
      exists (evs1 ++ evs2). split.
      { cbn [process_all]. rewrite (bind_val _ _ _ _ _ E1). unfold bind at 1.
        rewrite E2. cbn [w1 w_log]. rewrite <- app_assoc. by destruct r0. }
      rewrite saved_app, bulk_updated_app, Hs1, Hb1, Hb2, (Hval u eq_refl).
      split; [cbn [concat]; by apply prefix_app|]. split; [done|]. split; [|done].
      intros u' Hu'. cbn [map concat]. rewrite (Hval2 u' Hu'). cbn [w1 w_heap].
      rewrite Hev. f_equal. unfold evs1, created_events. by rewrite (Hval u eq_refl).
    + intros [= <- <- <-]. exists evs1. split.
      { cbn [process_all]. by apply bind_exc. }
      rewrite Hs1. split; [cbn [concat]; by apply prefix_app_r|]. split; [done|].
      split; [done|]. intros Hwrite. by apply Hw.
Qed.
End all_new.

Lemma saved_created_batch fr h b :
  saved (created_events fr h b) = b ∧ bulk_updated (created_events fr h b) = [].
Proof.
  unfold created_events. split.
  - change (saved (map EvSave b) = b). apply saved_map_EvSave.
  - change (bulk_updated (map EvSave b) = []). apply bulk_updated_map_EvSave.
Qed.

Lemma saved_created_events fr h bs :
  saved (concat (map (created_events fr h) bs)) = concat bs ∧
  bulk_updated (concat (map (created_events fr h) bs)) = [].
Proof.
  induction bs as [|b bs [IH1 IH2]]; [done|].
  destruct (saved_created_batch fr h b) as [E1 E2].
  cbn [map concat]. by rewrite saved_app, bulk_updated_app, IH1, IH2, E1, E2.
Qed.

Lemma batches_of_concat a : accepted ∅ a ∨ a_objs a ≠ [] ∧ valid_batch_size (a_batch_size a) →
  concat (batches_of a) = a_objs a.
Proof.
  intros Hor.
  assert (a_objs a ≠ [] ∧ valid_batch_size (a_batch_size a)) as [Hne Hbs].
  { destruct Hor as [(? & _ & _ & ?)|?]; done. }
  unfold batches_of. destruct (a_batch_size a) as [N|] eqn:HN; simpl.
  - apply batches_concat. by apply Hbs.
  - rewrite batches_default by done. simpl. by rewrite app_nil_r.
Qed.

Section new_records.
Context {S : Type} `{Store S}.
Implicit Types (w : world S) (a : args).

(** C1.  For an accepted input whose records have pairwise distinct match
    keys, when the existence query of every batch finds nothing at the time
    it is asked: what the call does to the objects and to the database is
    what saving every record does, batch after batch, each batch being the
    query, a bulk update of no entity and one [save()] per record, in the
    order of the lookup map, which is the input order.  No entity is ever
    updated.  When no write raises (as is the case when the store's writes
    never raise) every record is saved exactly once, in input order, and a
    caller that asked for the outcomes is given, per batch, the whole batch
    as created and nothing as updated.  When a write raises, the call raises
    that exception, and the records saved until then are the first records of
    the input. *)
Theorem all_created a w r w' :
  accepted (w_heap w) a →
  NoDup (keys_at (frame_of a) (w_heap w) (a_objs a)) →
  finds_nothing (frame_of a) (batches_of a) (emit (EvReconcile (a_objs a)) w) →
  reconcile a w = (r, w') →
  ∃ r0,
    insert_batches (frame_of a) (batches_of a) (w_heap w) (w_db w)
    = (r0, w_heap w', w_db w') ∧
    concat (batches_of a) = a_objs a ∧
    bulk_updated (w_log w') = bulk_updated (w_log w) ∧
    (∃ done, saved (w_log w') = saved (w_log w) ++ done ∧ done `prefix_of` a_objs a) ∧
    (∀ u, r0 = Val u →
       r = Val (if a_yield_objects a then map (λ b, (b, [])) (batches_of a) else []) ∧
       w_log w'
       = w_log w ++ EvReconcile (a_objs a)
           :: concat (map (created_events (frame_of a) (w_heap w)) (batches_of a)) ∧
       saved (w_log w') = saved (w_log w) ++ a_objs a) ∧
    (∀ e, r0 = Exc e → r = Exc e) ∧
    (writes_succeed S → ∃ u, r0 = Val u).
Proof.
  intros Hacc Hnd Hfind. pose proof Hacc as (Hne & _ & Hwf & Hbs).
  assert (concat (batches_of a) = a_objs a) as Hcat
    by (apply batches_of_concat; by right).
  rewrite reconcile_accepted by done.
  set (w0 := emit (EvReconcile (a_objs a)) w) in *.
  destruct (insert_batches (frame_of a) (batches_of a) (w_heap w) (w_db w))
    as [[r0 h'] s'] eqn:Ei.
  destruct (process_all_all_new (frame_of a) (batches_of a) w0 r0 h' s' Hfind)
    as (evs & E & Hpre & Hbu & Hval & Hw).
  - rewrite Hcat. apply Forall_forall. intros o Ho.
    exists (key_at (frame_of a) (w_heap w) o). by apply well_formed_key.
  - by rewrite Hcat.
  - exact Ei.
  - rewrite E. rewrite Hcat in Hpre.
    assert (w_log w0 ++ evs = w_log w ++ EvReconcile (a_objs a) :: evs) as Hlog
      by (cbn [w0 emit w_log]; by rewrite <- app_assoc).
    assert (saved (w_log w0 ++ evs) = saved (w_log w) ++ saved evs) as Hsaved.
    { rewrite Hlog. change (EvReconcile (a_objs a) :: evs) with ([EvReconcile (a_objs a)] ++ evs).
      by rewrite !saved_app. }
    assert (bulk_updated (w_log w0 ++ evs) = bulk_updated (w_log w)) as Hupd.
    { rewrite Hlog. change (EvReconcile (a_objs a) :: evs) with ([EvReconcile (a_objs a)] ++ evs).
      rewrite !bulk_updated_app, Hbu. simpl. by rewrite !app_nil_r. }
    assert (∀ u, r0 = Val u →
              evs = concat (map (created_events (frame_of a) (w_heap w)) (batches_of a)))
      as Hval' by exact Hval.
    clear E Hfind Hval. clearbody w0.
    destruct r0 as [u|e]; intros [= <- <-].
    + exists (Val u). cbn [w_heap w_db w_log].
      split; [done|]. split; [done|]. split; [exact Hupd|].
      split; [exists (saved evs); by split|].
      split; [|split; [by intros e [=]|eauto]].
      intros u' _. split; [done|]. rewrite Hsaved, Hlog, (Hval' u eq_refl).
      split; [done|].
      destruct (saved_created_events (frame_of a) (w_heap w) (batches_of a)) as [Es _].
      by rewrite Es, Hcat.
    + exists (Exc e). cbn [w_heap w_db w_log].
      split; [done|]. split; [done|]. split; [exact Hupd|].
      split; [exists (saved evs); by split|].
      split; [by intros u [=]|]. split; [by intros e' [= <-]|exact Hw].
Qed.
End new_records.

(** ** Records that all exist *)

Lemma alloc_all_spec h rows ls h' :
  alloc_all h rows = (ls, h') →
  NoDup ls ∧ Forall (λ l, h !! l = None) ls ∧
  (∀ l, l ∉ ls → h' !! l = h !! l) ∧
  Forall2 (λ l r, h' !! l = Some r) ls rows.
Proof.
  revert h ls h'. induction rows as [|r rows IH]; intros h ls h'; simpl.
  - intros [= <- <-]. repeat split; constructor.
  - destruct (alloc_all (<[fresh (dom h) := r]> h) rows) as [ls' h2] eqn:E.
    intros [= <- <-]. destruct (IH _ _ _ E) as (Hnd & Hfresh & Hframe & Hrows).
    assert (h !! fresh (dom h) = None) as Hl.
    { apply not_elem_of_dom. apply is_fresh. }
    assert (fresh (dom h) ∉ ls') as Hnot.
    { intros Hin. rewrite Forall_forall in Hfresh. specialize (Hfresh _ Hin).
      by rewrite lookup_insert_eq in Hfresh. }
    split; [by apply NoDup_cons|]. split; [|split].
    + constructor; [done|]. eapply Forall_impl; [exact Hfresh|]. simpl.
      intros l Hnone. destruct (decide (fresh (dom h) = l)) as [<-|Hne].
      * by rewrite lookup_insert_eq in Hnone.
      * by rewrite lookup_insert_ne in Hnone.
    + intros l [Hne Hl']%not_elem_of_cons. rewrite Hframe by done.
      by rewrite lookup_insert_ne.
    + constructor; [|done]. rewrite Hframe by done. by rewrite lookup_insert_eq.
Qed.

Lemma copy_fields_lookup uf (src dst : attrs) f :
  (∀ g, g ∈ uf → is_Some (src !! g)) →
  copy_fields uf src dst !! f = if decide (f ∈ uf) then src !! f else dst !! f.
Proof.
  unfold copy_fields. revert dst.
  induction uf as [|g uf IH]; intros dst Hsrc; cbn [foldl].
  - rewrite decide_False; [done|apply not_elem_of_nil].
  - destruct (Hsrc g) as [v Hv]; [by left|]. rewrite Hv.
    rewrite IH by (intros g' Hg'; apply Hsrc; by right).
    destruct (decide (f ∈ uf)) as [Hin|Hnot].
    + rewrite decide_True; [done|by right].
    + destruct (decide (f = g)) as [->|Hne].
      * rewrite decide_True by by left. by rewrite lookup_insert_eq.
      * rewrite decide_False by (by intros [?|?]%elem_of_cons).
        by rewrite lookup_insert_ne.
Qed.

Lemma getattrs_copy_fields uf (src dst : attrs) mf (norm : value → value) vs vd :
  (∀ g, g ∈ uf → is_Some (src !! g)) →
  getattrs src mf = Val vs → getattrs dst mf = Val vd → map norm vs = map norm vd →
  ∃ vc, getattrs (copy_fields uf src dst) mf = Val vc ∧ map norm vc = map norm vd.
Proof.
  intros Hsrc. revert vs vd. induction mf as [|f mf IH]; intros vs vd; simpl.
  - intros [= <-] [= <-] _. by exists [].
  - destruct (src !! f) as [v1|] eqn:E1; [|done].
    destruct (getattrs src mf) as [vs'|] eqn:Es; [|done]. intros [= <-].
    destruct (dst !! f) as [v2|] eqn:E2; [|done].
    destruct (getattrs dst mf) as [vd'|] eqn:Ed; [|done]. intros [= <-].
    simpl. intros [= Hv Hrest].
    destruct (IH vs' vd' eq_refl eq_refl Hrest) as (vc & -> & Hvc).
    rewrite copy_fields_lookup by done.
    destruct (decide (f ∈ uf)); rewrite ?E1, ?E2; eexists; (split; [done|]);
      simpl; by rewrite ?Hv, Hvc.
Qed.

(** Copying the update fields of a record onto an entity with the same key
    leaves the entity's key as it was. *)
Lemma attrs_key_copy_fields fr (src dst : attrs) k :
  (∀ g, g ∈ f_update_fields fr → is_Some (src !! g)) →
  attrs_key fr src = Val k → attrs_key fr dst = Val k →
  attrs_key fr (copy_fields (f_update_fields fr) src dst) = Val k.
Proof.
  intros Hsrc. unfold attrs_key.
  destruct (getattrs src (f_match_field fr)) as [vs|] eqn:Es;
    [|by destruct (f_case_insensitive_match fr)].
  destruct (getattrs dst (f_match_field fr)) as [vd|] eqn:Ed;
    [|by destruct (f_case_insensitive_match fr)].
  destruct (f_case_insensitive_match fr).
  - intros [= <-] [= Hk].
    destruct (getattrs_copy_fields _ _ _ _ lower_value _ _ Hsrc Es Ed (eq_sym Hk))
      as (vc & -> & Hvc). by rewrite Hvc, Hk.
  - intros [= <-] [= Hk].
    destruct (getattrs_copy_fields _ _ _ _ id _ _ Hsrc Es Ed) as (vc & -> & Hvc).
    { by rewrite Hk. }
    rewrite !map_id in Hvc. by rewrite Hvc, Hk.
Qed.

Lemma obj_attrs_ext (h h' : heap) o : h' !! o = h !! o → obj_attrs h' o = obj_attrs h o.
Proof. intros E. unfold obj_attrs. by rewrite E. Qed.

Lemma obj_attrs_insert_eq (h : heap) o a : obj_attrs (<[o := a]> h) o = a.
Proof. unfold obj_attrs. by rewrite lookup_insert_eq. Qed.

Lemma obj_attrs_insert_ne (h : heap) o o' a :
  o ≠ o' → obj_attrs (<[o := a]> h) o' = obj_attrs h o'.
Proof. intros Hne. unfold obj_attrs. by rewrite lookup_insert_ne. Qed.

Section all_existing.
Context {S : Type} `{Store S}.
Implicit Types (w : world S) (fr : frame).

Lemma copy_loop uf o e w :
  o ≠ e → is_Some (w_heap w !! e) →
  (∀ f, f ∈ uf → is_Some (obj_attrs (w_heap w) o !! f)) →
  for_each uf (λ _f, do v <- getattr_m o _f; setattr_m e _f v) w
  = (Val tt,
     World (<[e := copy_fields uf (obj_attrs (w_heap w) o) (obj_attrs (w_heap w) e)]>
              (w_heap w)) (w_db w) (w_log w)).
Proof.
  intros Hne. revert w. induction uf as [|f uf IH]; intros w [ae Hae] Hsrc.
  - simpl. unfold ret, copy_fields. simpl. unfold obj_attrs at 1. rewrite Hae. simpl.
    rewrite insert_id by done. by destruct w.
  - destruct (Hsrc f) as [v Hv]; [by left|].
    set (w1 := World (setattr (w_heap w) e f v) (w_db w) (w_log w)).
    assert ((do v <- getattr_m o f; setattr_m e f v) w = (Val tt, w1)) as E1.
    { unfold bind, getattr_m, getattr. by rewrite Hv. }
    cbn [for_each]. rewrite (bind_val _ _ _ _ _ E1).
    rewrite IH.
    + unfold w1, setattr. cbn [w_heap w_db w_log].
      rewrite obj_attrs_insert_eq, obj_attrs_insert_ne by done.
      rewrite insert_insert_eq. unfold copy_fields at 2. cbn [foldl]. by rewrite Hv.
    + unfold w1, setattr. cbn [w_heap]. rewrite lookup_insert_eq. eauto.
    + intros g Hg. unfold w1, setattr. cbn [w_heap].
      rewrite obj_attrs_insert_ne by done. apply Hsrc. by right.
Qed.

Lemma update_one_spec fr d e o k w :
  is_Some (w_heap w !! e) → o ≠ e →
  attrs_key fr (obj_attrs (w_heap w) e) = Val k →
  dget d k = Some o →
  attrs_key fr (obj_attrs (w_heap w) o) = Val k →
  (∀ f, f ∈ f_update_fields fr → is_Some (obj_attrs (w_heap w) o !! f)) →
  ∃ d', ddel d k = Some d' ∧
    update_one fr d e w
    = (Val d',
       World (<[e := copy_fields (f_update_fields fr) (obj_attrs (w_heap w) o)
                                 (obj_attrs (w_heap w) e)]> (w_heap w))
             (w_db w) (w_log w)).
Proof.
  intros He Hne Hke Hget Hko Hsrc.
  destruct (ddel_is_Some d k) as [d' Hdel].
  { apply dget_Some_elem in Hget. apply list_elem_of_fmap. by exists (k, o). }
  exists d'. split; [done|]. unfold update_one.
  assert (key_getter_m fr e w = (Val k, w)) as E1.
  { unfold key_getter_m. by rewrite obj_key_getter_attrs, Hke. }
  rewrite (bind_val _ _ _ _ _ E1).
  assert (dget_m d k w = (Val o, w)) as E2 by (unfold dget_m; by rewrite Hget).
  rewrite (bind_val _ _ _ _ _ E2).
  rewrite (bind_val _ _ _ _ _ (copy_loop _ _ _ _ Hne He Hsrc)).
  set (w1 := World _ _ _).
  assert (key_getter_m fr e w1 = (Val k, w1)) as E3.
  { unfold key_getter_m. rewrite obj_key_getter_attrs. unfold w1. cbn [w_heap].
    rewrite obj_attrs_insert_eq. f_equal. by apply attrs_key_copy_fields. }
  rewrite (bind_val _ _ _ _ _ E3). unfold ddel_m. by rewrite Hdel.
Qed.

(** The loop over the entities the query returned, when each of them has
    its record in the map and no two of them share a key. *)
Lemma update_all fr ents (d : odict key loc) w :
  NoDup ents → NoDup (dkeys d) → NoDup (keys_at fr (w_heap w) ents) →
  Forall (λ e, is_Some (w_heap w !! e) ∧
               _obj_key_getter fr (w_heap w) e = Val (key_at fr (w_heap w) e) ∧
               key_at fr (w_heap w) e ∈ dkeys d) ents →
  (∀ k o, (k, o) ∈ d →
     (o ∉ ents) ∧ _obj_key_getter fr (w_heap w) o = Val k ∧
     (∀ f, f ∈ f_update_fields fr → is_Some (obj_attrs (w_heap w) o !! f))) →
  ∃ d' h',
    fold_each ents (update_one fr) d w = (Val d', World h' (w_db w) (w_log w)) ∧
    NoDup (dkeys d') ∧ length d = length ents + length d' ∧
    (∀ l, l ∉ ents → h' !! l = w_heap w !! l) ∧
    Forall (λ e, ∃ o, dget d (key_at fr (w_heap w) e) = Some o ∧
                      h' !! e = Some (copy_fields (f_update_fields fr)
                                        (obj_attrs (w_heap w) o)
                                        (obj_attrs (w_heap w) e))) ents.
Proof.
  revert d w. induction ents as [|e ents IH]; intros d w Hnde Hndd Hndk Hents Hd.
  - exists d, (w_heap w). simpl. split; [by destruct w|]. repeat split; done.
  - apply NoDup_cons in Hnde as [Hee Hnde].
    cbn [keys_at map] in Hndk. apply NoDup_cons in Hndk as [Hkk Hndk].
    apply Forall_cons in Hents as [(He & Hge & Hin) Hents].
    set (h := w_heap w) in *. set (k := key_at fr h e) in *.
    destruct (dget d k) as [o|] eqn:Hget; [|by apply dget_None in Hget].
    destruct (Hd k o (dget_Some_elem _ _ _ Hget)) as (Ho & Hgo & Hsrc).
    apply not_elem_of_cons in Ho as [Hoe Ho].
    destruct (update_one_spec fr d e o k w He Hoe) as (d1 & Hdel & E1); try done.
    destruct (ddel_Some_elem _ _ _ Hndd Hdel) as (_ & Hndd1 & Hlen1 & Hiff).
    set (C := copy_fields (f_update_fields fr) (obj_attrs h o) (obj_attrs h e)) in *.
    set (w1 := World (<[e := C]> h) (w_db w) (w_log w)) in *.
    assert (∀ l, l ≠ e → w_heap w1 !! l = h !! l) as Hsame.
    { intros l Hl. unfold w1. cbn [w_heap]. by rewrite lookup_insert_ne. }
    assert (∀ e', e' ∈ ents → e' ≠ e) as Hents_ne by (intros e' He' ->; done).
    assert (keys_at fr (w_heap w1) ents = keys_at fr h ents) as Hkeys.
    { apply keys_at_ext. intros e' He'. apply Hsame. by apply Hents_ne. }
    destruct (IH d1 w1) as (d' & h' & E2 & Hndd' & Hlen' & Hframe & Hcopied).
    + done.
    + done.
    + by rewrite Hkeys.
    + apply Forall_forall. intros e' He'. rewrite Forall_forall in Hents.
      destruct (Hents e' He') as (Hs & Hg & Hk).
      rewrite (Hsame e') by by apply Hents_ne.
      rewrite (obj_key_getter_ext fr h (w_heap w1) e') by (apply Hsame; by apply Hents_ne).
      rewrite (key_at_ext fr h (w_heap w1) e') by (apply Hsame; by apply Hents_ne).
      split; [done|]. split; [done|].
      apply list_elem_of_fmap in Hk as ([k' o'] & Hk' & Hin'). simpl in Hk'.
      apply list_elem_of_fmap. exists (k', o'). split; [done|].
      apply Hiff. split; [done|]. simpl. intros Heq. apply Hkk.
      rewrite <- Heq, <- Hk'. apply list_elem_of_fmap. eauto.
    + intros k' o' Hin'. apply Hiff in Hin' as [Hin' _].
      destruct (Hd k' o' Hin') as (Ho' & Hgo' & Hsrc').
      apply not_elem_of_cons in Ho' as [Ho'e Ho'].
      split; [done|].
      rewrite (obj_key_getter_ext fr h (w_heap w1) o') by by apply Hsame.
      rewrite (obj_attrs_ext h (w_heap w1) o') by by apply Hsame. done.
    + exists d', h'. split.
      { cbn [fold_each]. rewrite (bind_val _ _ _ _ _ E1). exact E2. }
      split; [done|]. split; [simpl; lia|]. split.
      { intros l [Hle Hl]%not_elem_of_cons. rewrite Hframe by done. by apply Hsame. }
      constructor.
      * exists o. split; [done|]. rewrite Hframe by done.
        unfold w1. cbn [w_heap]. by rewrite lookup_insert_eq.
      * apply Forall_forall. intros e' He'. rewrite Forall_forall in Hcopied.
        destruct (Hcopied e' He') as (o' & Hget' & Hh').
        rewrite (key_at_ext fr h (w_heap w1) e') in Hget'
          by (apply Hsame; by apply Hents_ne).
        apply dget_Some_elem, Hiff in Hget' as [Hin' _].
        destruct (Hd _ o' Hin') as (Ho' & _ & _).
        apply not_elem_of_cons in Ho' as [Ho'e _].
        exists o'. split; [by apply elem_dget|].
        rewrite Hh'.
        rewrite (obj_attrs_ext h (w_heap w1) o') by by apply Hsame.
        rewrite (obj_attrs_ext h (w_heap w1) e') by (apply Hsame; by apply Hents_ne).
        done.
Qed.
End all_existing.

Lemma key_at_row fr (h : heap) e r : h !! e = Some r → key_at fr h e = row_key fr r.
Proof.
  intros He. unfold key_at, row_key. rewrite obj_key_getter_attrs.
  unfold obj_attrs. by rewrite He.
Qed.

Lemma keys_at_rows fr (h : heap) ents rows :
  Forall2 (λ l r, h !! l = Some r) ents rows →
  keys_at fr h ents = map (row_key fr) rows.
Proof.
  induction 1 as [|e r ents rows He _ IH]; [done|].
  cbn [keys_at map]. rewrite (key_at_row fr h e r He). f_equal. exact IH.
Qed.

Lemma dget_zip_find {K V : Type} `{EqDecision K} (f : V → K) (l : list V) k :
  dget (zip (map f l) l) k = List.find (λ o, bool_decide (f o = k)) l.
Proof.
  induction l as [|x l IH]; [done|]. cbn [map zip zip_with dget List.find].
  destruct (decide (k = f x)) as [->|Hne].
  - by rewrite bool_decide_eq_true_2.
  - rewrite bool_decide_eq_false_2; [done|]. intros Heq. by apply Hne.
Qed.

Lemma record_with_key_dget fr h batch k :
  record_with_key fr h batch k = dget (zip (keys_at fr h batch) batch) k.
Proof. unfold record_with_key, keys_at. by rewrite dget_zip_find. Qed.


Section all_existing_batch.
Context {S : Type} `{Store S}.
Implicit Types (w : world S) (fr : frame).

Lemma process_batch_all_existing fr batch w rows s1 rb s2 :
  Forall (record_ok fr (w_heap w)) batch →
  NoDup (keys_at fr (w_heap w) batch) →
  st_filter (map (key_kwargs (f_match_field fr)) (keys_at fr (w_heap w) batch)) (w_db w)
  = (Val rows, s1) →
  Forall (λ r, ∃ k, attrs_key fr r = Val k) rows →
  map (row_key fr) rows ≡ₚ keys_at fr (w_heap w) batch →
  st_bulk_update (map (with_record_values fr (w_heap w) batch) rows)
                 (f_update_fields fr) s1 = (rb, s2) →
  ∃ ents h',
    process_batch fr batch w
    = (match rb with Val _ => Val ([], ents) | Exc e => Exc e end,
       World h' s2 (w_log w ++ updated_events fr (w_heap w) batch ([], ents))) ∧
    map (obj_attrs h') ents = map (with_record_values fr (w_heap w) batch) rows ∧
    length ents = length batch ∧
    Forall (λ e, w_heap w !! e = None ∧ is_Some (h' !! e)) ents ∧
    (∀ l, is_Some (w_heap w !! l) → h' !! l = w_heap w !! l) ∧
    all_copied fr (w_heap w) h' batch ents.
Proof.
  intros Hok Hnd Hfilter Hrows Hperm Hbulk.
  set (h := w_heap w) in *. set (ks := keys_at fr h batch) in *.
  assert (length ks = length batch) as Hlen by apply keys_at_length.
  assert (Forall (λ o, _obj_key_getter fr h o = Val (key_at fr h o)) batch) as Hk.
  { eapply Forall_impl; [exact Hok|]. intros o (_ & Hko & _). by apply has_key_key_at. }
  rewrite process_batch_unfold by done. fold h ks.
  rewrite dict_of_NoDup by by rewrite zip_fst_keys.
  cbv zeta. rewrite obj_filter_map. unfold dkeys.
  change (map fst (zip ks batch)) with ((zip ks batch).*1).
  rewrite zip_fst_keys by done.
  set (q := map (key_kwargs (f_match_field fr)) ks) in *.
  destruct (alloc_all h rows) as [ents h1] eqn:Ea.
  destruct (alloc_all_spec _ _ _ _ Ea) as (Hnde & Hfresh & Hframe1 & Hents).
  set (w1 := World h1 s1 (w_log w ++ [EvFilter q])).
  assert (filter_m q w = (Val ents, w1)) as E1.
  { unfold filter_m. cbn [emit w_db w_heap w_log]. fold h. rewrite Hfilter.
    fold h. by rewrite Ea. }
  rewrite (bind_val _ _ _ _ _ E1).
  assert (keys_at fr h1 ents = map (row_key fr) rows) as Hkeys1
    by by apply keys_at_rows.
  assert (∀ o, o ∈ batch → (o ∉ ents) ∧ h1 !! o = h !! o) as Hrec.
  { intros o Ho. rewrite Forall_forall in Hok. destruct (Hok o Ho) as ([a Ha] & _).
    assert (o ∉ ents) as Hnot.
    { intros Hin. rewrite Forall_forall in Hfresh. specialize (Hfresh o Hin).
      fold h in Ha. congruence. }
    split; [done|]. by apply Hframe1. }
  assert (∀ k o, (k, o) ∈ zip ks batch → o ∈ batch ∧ k = key_at fr h o) as Hzip.
  { intros k o Hin. unfold ks, keys_at in Hin. rewrite zip_map_self in Hin.
    apply list_elem_of_fmap in Hin as (o' & [= -> ->] & Hin). done. }
  destruct (update_all fr ents (zip ks batch) w1) as (d' & h2 & E2 & _ & Hlen2 & Hframe2 & Hcopied).
  { done. }
  { unfold dkeys. change (map fst (zip ks batch)) with ((zip ks batch).*1).
    by rewrite zip_fst_keys. }
  { cbn [w1 w_heap]. rewrite Hkeys1. by rewrite Hperm. }
  { cbn [w1 w_heap]. apply Forall_forall. intros e He.
    apply list_elem_of_lookup in He as [i Hi].
    destruct (Forall2_lookup_l _ _ _ _ _ Hents Hi) as (r & Hr & Her).
    split; [by rewrite Her|]. split.
    - rewrite Forall_forall in Hrows.
      destruct (Hrows r) as [k Hkr]; [by eapply list_elem_of_lookup_2|].
      apply has_key_key_at. exists k. rewrite obj_key_getter_attrs.
      unfold obj_attrs. by rewrite Her.
    - unfold dkeys. change (map fst (zip ks batch)) with ((zip ks batch).*1).
      rewrite zip_fst_keys by done. rewrite <- Hperm, <- Hkeys1.
      apply list_elem_of_fmap. exists e. split; [done|].
      by eapply list_elem_of_lookup_2. }
  { cbn [w1 w_heap]. intros k o [Ho ->]%Hzip. destruct (Hrec o Ho) as [Hnot Hsame].
    split; [done|]. rewrite (obj_key_getter_ext fr h h1 o Hsame).
    rewrite (obj_attrs_ext h h1 o Hsame).
    rewrite Forall_forall in Hok, Hk. destruct (Hok o Ho) as (_ & _ & Hsrc).
    split; [by apply Hk|done]. }
  assert (length ents = length batch) as Hlen_ents.
  { apply Forall2_length in Hents. rewrite Hents.
    apply Permutation_length in Hperm. rewrite length_map in Hperm. lia. }
  assert (d' = []) as ->.
  { rewrite length_zip in Hlen2. destruct d'; [done|]. simpl in Hlen2. lia. }
  rewrite (bind_val _ _ _ _ _ E2).
  cbn [w1 w_db w_log]. set (w2 := World h2 s1 _).
  assert (map (obj_attrs h2) ents = map (with_record_values fr h batch) rows) as Hmap.
  { apply (list_eq_same_length _ _ (length ents)).
    - rewrite length_map. symmetry. by eapply Forall2_length.
    - by rewrite length_map.
    - intros i x y _. rewrite !list_lookup_fmap.
      destruct (ents !! i) as [e|] eqn:Hei; [|done].
      destruct (rows !! i) as [r|] eqn:Hri; [|done].
      cbn [fmap option_fmap option_map]. intros [= <-] [= <-].
      pose proof (Forall2_lookup_lr _ _ _ _ _ _ Hents Hei Hri) as Her.
      assert (e ∈ ents) as He by by eapply list_elem_of_lookup_2.
      rewrite Forall_forall in Hcopied. destruct (Hcopied e He) as (o & Hget & Hh2).
      cbn [w1 w_heap] in Hget, Hh2.
      rewrite (key_at_row fr h1 e r Her) in Hget.
      pose proof Hget as Hin. apply dget_Some_elem, Hzip in Hin as [Ho _].
      destruct (Hrec o Ho) as [_ Hsame].
      rewrite (obj_attrs_ext h h1 o Hsame) in Hh2.
      assert (obj_attrs h1 e = r) as Hr1 by (unfold obj_attrs; by rewrite Her).
      rewrite Hr1 in Hh2. unfold obj_attrs at 1. rewrite Hh2. cbn [default]. unfold id.
      unfold with_record_values. rewrite record_with_key_dget. fold ks.
      by rewrite Hget. }
  set (w3 := World h2 s2 (w_log w2 ++ [EvBulkUpdate ents (f_update_fields fr)])).
  assert (bulk_update_m ents (f_update_fields fr) w2 = (rb, w3)) as E3.
  { unfold bulk_update_m. cbn [emit w2 w_db w_heap w_log]. by rewrite Hmap, Hbulk. }
  exists ents, h2. split.
  { assert (w3 = World h2 s2 (w_log w ++ updated_events fr h batch ([], ents))) as <-.
    { unfold w3, w2, updated_events. cbn [w_log snd]. fold ks q.
      by rewrite <- !app_assoc. }
    destruct rb as [[]|e].
    - rewrite (bind_val _ _ _ _ _ E3). cbn [dvalues map fold_each].
      by rewrite bind_ret.
    - by apply bind_exc. }
  split; [done|]. split; [done|]. split.
  { apply Forall_forall. intros e He. split.
    - rewrite Forall_forall in Hfresh. by apply Hfresh.
    - rewrite Forall_forall in Hcopied. destruct (Hcopied e He) as (o & _ & ->). eauto. }
  split.
  { intros l [a Ha]. assert (l ∉ ents) as Hnot.
    { intros Hin. rewrite Forall_forall in Hfresh. specialize (Hfresh l Hin). congruence. }
    rewrite Hframe2 by done. cbn [w1 w_heap]. by apply Hframe1. }
  intros o Ho.
  assert (key_at fr h o ∈ keys_at fr h1 ents) as Hin.
  { rewrite Hkeys1, Hperm. apply list_elem_of_fmap. eauto. }
  apply list_elem_of_fmap in Hin as (e & Hke & He).
  exists e. split; [done|].
  rewrite Forall_forall in Hcopied. destruct (Hcopied e He) as (o' & Hget & Hh2).
  cbn [w1 w_heap] in Hget, Hh2.
  assert (o' = o) as ->.
  { rewrite <- Hke in Hget.
    assert ((key_at fr h o, o) ∈ zip ks batch) as Hino.
    { unfold ks, keys_at. rewrite zip_map_self. apply list_elem_of_fmap. eauto. }
    apply elem_dget in Hino; [congruence|].
    unfold dkeys. change (map fst (zip ks batch)) with ((zip ks batch).*1).
    by rewrite zip_fst_keys. }
  destruct (Hrec o Ho) as [_ Hsame]. rewrite (obj_attrs_ext h h1 o Hsame) in Hh2.
  rewrite Forall_forall in Hok, Hk. destruct (Hok o Ho) as (_ & _ & Hsrc).
  apply list_elem_of_lookup in He as [i Hi].
  destruct (Forall2_lookup_l _ _ _ _ _ Hents Hi) as (r & Hr & Her).
  assert (obj_attrs h1 e = r) as Hr1 by (unfold obj_attrs; by rewrite Her).
  rewrite Hr1 in Hh2.
  assert (attrs_key fr r = Val (key_at fr h o)) as Hkr.
  { rewrite Forall_forall in Hrows.
    destruct (Hrows r) as [k Hkr]; [by eapply list_elem_of_lookup_2|].
    rewrite Hkr. f_equal. rewrite Hke, (key_at_row fr h1 e r Her).
    unfold row_key. by rewrite Hkr. }
  split.
  - unfold key_at at 1. rewrite obj_key_getter_attrs. unfold obj_attrs at 1.
    rewrite Hh2. cbn [default]. unfold id.
    rewrite (attrs_key_copy_fields fr _ _ (key_at fr h o)); [done|done| |done].
    rewrite <- obj_key_getter_attrs. by apply Hk.
  - intros f Hf. unfold getattr. unfold obj_attrs at 1. rewrite Hh2. cbn [default]. unfold id.
    rewrite copy_fields_lookup by done. by rewrite decide_True.
Qed.
End all_existing_batch.




Section known_records.
Context {S : Type} `{Store S}.
Implicit Types (w : world S) (a : args) (fr : frame).



End known_records.

(** ** Case-insensitive matching *)

Lemma attrs_key_normalize fr (a : attrs) vs :
  getattrs a (f_match_field fr) = Val vs → attrs_key fr a = Val (normalize fr vs).
Proof.
  intros E. unfold attrs_key, normalize. rewrite E.
  by destruct (f_case_insensitive_match fr).
Qed.

Section case_insensitive.
Context {S : Type} `{Store S}.
Implicit Types (w : world S) (fr : frame).

(** C6.  The key of an object is the tuple of its match-field values, each
    [str] among them lower-cased and every other value left as it is when
    [case_insensitive_match] is set, and the tuple unchanged otherwise.  The
    one getter serves the record, when the lookup map is built and the query
    is made from its keys, and the entity the query returned, when it is
    matched back.  If the two keys are equal the entity is given the record's
    values and is what the store's bulk update receives; if they differ (as
    "foo" and "Foo" do when the flag is off) the lookup of the entity's key
    raises [KeyError] and the store has only been asked the query. *)
Theorem case_insensitive_keys fr o w r s1 vs ve rb s2 :
  record_ok fr (w_heap w) o →
  getattrs (obj_attrs (w_heap w) o) (f_match_field fr) = Val vs →
  getattrs r (f_match_field fr) = Val ve →
  st_filter [key_kwargs (f_match_field fr) (normalize fr vs)] (w_db w) = (Val [r], s1) →
  st_bulk_update [copy_fields (f_update_fields fr) (obj_attrs (w_heap w) o) r]
                 (f_update_fields fr) s1 = (rb, s2) →
  (∀ s, lower_value (VStr s) = VStr (lower s)) ∧
  (∀ v, (∀ s, v ≠ VStr s) → lower_value v = v) ∧
  normalize fr vs
  = (if f_case_insensitive_match fr then map lower_value vs else vs) ∧
  _obj_key_getter fr (w_heap w) o = Val (normalize fr vs) ∧
  attrs_key fr r = Val (normalize fr ve) ∧
  (normalize fr vs = normalize fr ve →
     ∃ e w',
       process_batch fr [o] w
       = (match rb with Val _ => Val ([], [e]) | Exc x => Exc x end, w') ∧
       w_heap w !! e = None ∧
       w_db w' = s2 ∧
       w_log w'
       = w_log w ++ [EvFilter [key_kwargs (f_match_field fr) (normalize fr vs)];
                     EvBulkUpdate [e] (f_update_fields fr)] ∧
       obj_attrs (w_heap w') e
       = copy_fields (f_update_fields fr) (obj_attrs (w_heap w) o) r ∧
       key_at fr (w_heap w') e = normalize fr vs ∧
       ∀ f, f ∈ f_update_fields fr →
         getattr (w_heap w') e f = getattr (w_heap w) o f) ∧
  (normalize fr vs ≠ normalize fr ve →
     ∃ w',
       process_batch fr [o] w = (Exc (KeyError (normalize fr ve)), w') ∧
       w_db w' = s1 ∧
       w_log w'
       = w_log w ++ [EvFilter [key_kwargs (f_match_field fr) (normalize fr vs)]]).
Proof.
  intros Hok Hvs Hve Hfilter Hbulk.
  assert (_obj_key_getter fr (w_heap w) o = Val (normalize fr vs)) as Hko
    by (rewrite obj_key_getter_attrs; by apply attrs_key_normalize).
  assert (attrs_key fr r = Val (normalize fr ve)) as Hkr
    by by apply attrs_key_normalize.
  assert (key_at fr (w_heap w) o = normalize fr vs) as Hkat
    by (unfold key_at; by rewrite Hko).
  split; [done|]. split; [by intros [] Hv; [..|destruct (Hv s)]|].
  split; [done|]. split; [done|]. split; [done|]. split.
  - intros Heq.
    assert (with_record_values fr (w_heap w) [o] r
            = copy_fields (f_update_fields fr) (obj_attrs (w_heap w) o) r) as Hwrv.
    { unfold with_record_values, record_with_key, row_key. rewrite Hkr.
      cbn [List.find]. by rewrite Hkat, Heq, bool_decide_eq_true_2. }
    destruct (process_batch_all_existing fr [o] w [r] s1 rb s2)
      as (ents & h' & E & Hmap & Hlen & Hfresh & _ & Hcopied).
    + by constructor.
    + cbn [keys_at map]. apply NoDup_singleton.
    + cbn [keys_at map]. by rewrite Hkat.
    + constructor; eauto.
    + cbn [keys_at map]. unfold row_key. by rewrite Hkr, Hkat, Heq.
    + cbn [map]. by rewrite Hwrv.
    + destruct ents as [|e [|]]; try done.
      destruct (Hcopied o) as (e' & ->%list_elem_of_singleton & Hke & Hcopy);
        [by left|].
      apply Forall_cons in Hfresh as [[Hnone _] _].
      cbn [map] in Hmap. rewrite Hwrv in Hmap. injection Hmap as Hattrs.
      eexists e, _. split; [exact E|]. cbn [w_heap w_db w_log].
      split; [done|]. split; [done|]. split.
      { unfold updated_events. cbn [keys_at map snd]. by rewrite Hkat. }
      split; [done|]. split; [by rewrite Hke|done].
  - intros Hne.
    rewrite process_batch_unfold
      by (constructor; [by apply has_key_key_at; eauto|constructor]).
    cbn [keys_at map zip zip_with]. rewrite Hkat.
    unfold dict_of. cbn [foldl dset fst snd]. cbv zeta.
    unfold _obj_filter. cbn [dkeys map foldl fst app].
    set (l := fresh (dom (w_heap w))).
    set (w1 := World (<[l := r]> (w_heap w)) s1
                     (w_log w ++ [EvFilter [key_kwargs (f_match_field fr) (normalize fr vs)]])).
    assert (filter_m [key_kwargs (f_match_field fr) (normalize fr vs)] w = (Val [l], w1))
      as E1.
    { unfold filter_m. cbn [emit w_db w_heap w_log]. by rewrite Hfilter. }
    rewrite (bind_val _ _ _ _ _ E1).
    exists w1. split; [|done]. apply bind_exc. cbn [fold_each]. apply bind_exc.
    unfold update_one.
    assert (key_getter_m fr l w1 = (Val (normalize fr ve), w1)) as E2.
    { unfold key_getter_m. rewrite obj_key_getter_attrs. cbn [w1 w_heap].
      by rewrite obj_attrs_insert_eq, Hkr. }
    rewrite (bind_val _ _ _ _ _ E2). apply bind_exc.
    unfold dget_m. cbn [dget]. rewrite decide_False by done. done.
Qed.
End case_insensitive.

(** * Further properties of the reconciler *)

(** ** What one batch does to the world *)

Lemma ddel_sublist {K V : Type} `{EqDecision K} (d d' : odict K V) k :
  ddel d k = Some d' → sublist d' d ∧ length d = Datatypes.S (length d').
Proof.
  revert d'. induction d as [|[k0 v0] d IH]; intros d'; simpl; [done|].
  destruct (decide (k = k0)) as [->|Hne].
  - intros [= <-]. split; [by apply sublist_cons|done].
  - destruct (ddel d k) as [d''|] eqn:Ed; [|done]. intros [= <-].
    destruct (IH d'' eq_refl) as [Hsub Hlen].
    split; [by apply sublist_skip|simpl; by rewrite Hlen].
Qed.

Section batch_run.
Context {S : Type} `{Store S}.
Implicit Types (w : world S) (fr : frame).

Lemma build_from_inv fr batch (d : odict key loc) w r w' :
  fold_each batch
    (λ obj_map obj, do k <- key_getter_m fr obj; ret (dset obj_map k obj)) d w
  = (r, w') →
  w' = w ∧
  (∀ d', r = Val d' →
     Forall (λ o, ∃ k, _obj_key_getter fr (w_heap w) o = Val k) batch).
Proof.
  revert d. induction batch as [|o batch IH]; intros d; simpl.
  - intros [= <- <-]. split; [done|]. intros d' _. constructor.
  - unfold bind at 1. unfold bind at 1. unfold key_getter_m at 1.
    destruct (_obj_key_getter fr (w_heap w) o) as [k|e] eqn:Ek.
    + unfold ret at 1. intros E. destruct (IH _ E) as [-> Hall].
      split; [done|]. intros d' Hr. constructor; [eauto|by eapply Hall].
    + intros [= <- <-]. split; [done|]. by intros d' [=].
Qed.

Lemma build_obj_map_inv fr batch w r w' :
  build_obj_map fr batch w = (r, w') →
  w' = w ∧
  (∀ d, r = Val d →
     d = dict_of (zip (keys_at fr (w_heap w) batch) batch) ∧
     Forall (λ o, ∃ k, _obj_key_getter fr (w_heap w) o = Val k) batch).
Proof.
  intros E. pose proof E as E'. unfold build_obj_map in E'.
  apply build_from_inv in E' as [-> Hall]. split; [done|].
  intros d ->. specialize (Hall d eq_refl). split; [|done].
  rewrite build_obj_map_dict in E.
  - by injection E as <-.
  - eapply Forall_impl; [exact Hall|]. intros o. apply has_key_key_at.
Qed.

Lemma copy_loop_frame uf o e w r w' :
  for_each uf (λ _f, do v <- getattr_m o _f; setattr_m e _f v) w = (r, w') →
  w_db w' = w_db w ∧ w_log w' = w_log w ∧
  ∀ l, l ≠ e → w_heap w' !! l = w_heap w !! l.
Proof.
  revert w. induction uf as [|f uf IH]; intros w; simpl.
  - by intros [= <- <-].
  - unfold bind at 1. unfold bind at 1. unfold getattr_m at 1.
    destruct (getattr (w_heap w) o f) as [v|]; [|by intros [= <- <-]].
    unfold setattr_m at 1. intros E. destruct (IH _ E) as (Hdb & Hlog & Hheap).
    simpl in *. split; [done|]. split; [done|].
    intros l Hl. rewrite Hheap by done. unfold setattr. by rewrite lookup_insert_ne.
Qed.

Lemma update_one_frame fr (d : odict key loc) e w r w' :
  update_one fr d e w = (r, w') →
  w_db w' = w_db w ∧ w_log w' = w_log w ∧
  (∀ l, l ≠ e → w_heap w' !! l = w_heap w !! l) ∧
  (∀ d', r = Val d' → sublist d' d ∧ length d = Datatypes.S (length d')).
Proof.
  unfold update_one. unfold bind at 1. unfold key_getter_m at 1.
  destruct (_obj_key_getter fr (w_heap w) e) as [k|e1]; [|by intros [= <- <-]].
  unfold bind at 1. unfold dget_m.
  destruct (dget d k) as [o|]; [|by intros [= <- <-]].
  unfold ret at 1. unfold bind at 1.
  destruct (for_each _ _ w) as [[[]|e2] w1] eqn:Ec;
    apply copy_loop_frame in Ec as (Hdb & Hlog & Hheap);
    [|intros [= <- <-]; split; [done|]; split; [done|]; split; [done|];
      by intros d' [=]].
  unfold bind at 1. unfold key_getter_m at 1.
  destruct (_obj_key_getter fr (w_heap w1) e) as [k'|e3];
    [|intros [= <- <-]; split; [done|]; split; [done|]; split; [done|];
      by intros d' [=]].
  unfold ddel_m. destruct (ddel d k') as [d1|] eqn:Ed.
  - intros [= <- <-]. apply ddel_sublist in Ed as [Hs Hl].
    split; [done|]. split; [done|]. split; [done|]. by intros d' [= <-].
  - intros [= <- <-]. split; [done|]. split; [done|]. split; [done|]. by intros d' [=].
Qed.

Lemma update_loop_frame fr ents (d : odict key loc) w r w' :
  fold_each ents (update_one fr) d w = (r, w') →
  w_db w' = w_db w ∧ w_log w' = w_log w ∧
  (∀ l, l ∉ ents → w_heap w' !! l = w_heap w !! l) ∧
  (∀ d', r = Val d' → sublist d' d ∧ length d = length ents + length d').
Proof.
  revert d w. induction ents as [|e ents IH]; intros d w; simpl.
  - intros [= <- <-]. split; [done|]. split; [done|]. split; [done|].
    by intros d' [= <-].
  - unfold bind at 1. destruct (update_one fr d e w) as [[d1|e1] w1] eqn:E1;
      apply update_one_frame in E1 as (Hdb1 & Hlog1 & Hheap1 & Hd1).
    + intros E. destruct (IH _ _ E) as (Hdb & Hlog & Hheap & Hd).
      destruct (Hd1 d1 eq_refl) as [Hsub1 Hlen1].
      split; [congruence|]. split; [congruence|]. split.
      * intros l [Hle Hl]%not_elem_of_cons. rewrite Hheap by done. by apply Hheap1.
      * intros d' Hr. destruct (Hd d' Hr) as [Hsub Hlen].
        split; [by etrans|lia].
    + intros [= <- <-]. split; [done|]. split; [done|]. split; [|by intros d' [=]].
      intros l [Hle Hl]%not_elem_of_cons. by apply Hheap1.
Qed.

Lemma filter_m_inv q w r w' :
  filter_m q w = (r, w') →
  w_log w' = w_log w ++ [EvFilter q] ∧
  (∀ l, is_Some (w_heap w !! l) → w_heap w' !! l = w_heap w !! l) ∧
  (∀ ents, r = Val ents → Forall (λ e, w_heap w !! e = None) ents).
Proof.
  unfold filter_m. cbn [emit w_db w_heap w_log].
  destruct (st_filter q (w_db w)) as [[rows|e] s'].
  - destruct (alloc_all (w_heap w) rows) as [ls h'] eqn:Ea.
    destruct (alloc_all_spec _ _ _ _ Ea) as (_ & Hfresh & Hframe & _).
    intros [= <- <-]. split; [done|]. split.
    + intros l [a Ha]. apply Hframe. intros Hin.
      rewrite Forall_forall in Hfresh. specialize (Hfresh l Hin). congruence.
    + by intros ents [= <-].
  - intros [= <- <-]. by repeat split.
Qed.

Lemma bulk_update_m_inv ents fields w r w' :
  bulk_update_m ents fields w = (r, w') →
  w_log w' = w_log w ++ [EvBulkUpdate ents fields] ∧ w_heap w' = w_heap w.
Proof.
  unfold bulk_update_m. cbn [emit w_db w_heap w_log].
  destruct (st_bulk_update _ fields (w_db w)) as [r' s']. by intros [= <- <-].
Qed.

Lemma create_loop_inv objs acc w r w' :
  fold_each objs create_one acc w = (r, w') →
  ∃ done,
    w_log w' = w_log w ++ map EvSave done ∧ done `prefix_of` objs ∧
    (∀ l, l ∉ done → w_heap w' !! l = w_heap w !! l) ∧
    (∀ created, r = Val created → created = acc ++ objs ∧ done = objs).
Proof.
  revert acc w. induction objs as [|o objs IH]; intros acc w; simpl.
  - intros [= <- <-]. exists []. rewrite !app_nil_r.
    split; [done|]. split; [done|]. split; [done|]. by intros created [= <-].
  - unfold bind at 1. unfold create_one at 1. unfold bind at 1.
    unfold save_m at 1. cbn [emit w_db w_heap w_log].
    destruct (st_save (obj_attrs (w_heap w) o) (w_db w)) as [[a'|e] s'].
    + unfold ret at 1. intros E. destruct (IH _ _ E) as (done & Hlog & Hpre & Hheap & Hval).
      exists (o :: done). cbn [w_log w_heap] in *. split; [|split; [|split]].
      * rewrite Hlog. simpl. by rewrite <- app_assoc.
      * by apply prefix_cons.
      * intros l [Hle Hl]%not_elem_of_cons. rewrite Hheap by done.
        by rewrite lookup_insert_ne.
      * intros created Hr. destruct (Hval created Hr) as [-> ->].
        by rewrite <- app_assoc.
    + intros [= <- <-]. exists [o]. cbn [w_log w_heap]. split; [done|].
      split; [by apply prefix_cons, prefix_nil|]. split; [done|]. by intros created [=].
Qed.
End batch_run.

Lemma saved_batch_calls q ents uf done :
  saved (EvFilter q :: EvBulkUpdate ents uf :: map EvSave done) = done.
Proof. change (saved (map EvSave done) = done). apply saved_map_EvSave. Qed.

Section batch_anatomy.
Context {S : Type} `{Store S}.
Implicit Types (w : world S) (fr : frame).

(** Everything one batch does, read off the five steps of the loop body. *)
Lemma process_batch_inv fr batch w r w' :
  process_batch fr batch w = (r, w') →
  ∃ evs,
    w_log w' = w_log w ++ evs ∧ batch_calls fr evs ∧
    (∀ l, is_Some (w_heap w !! l) → l ∉ saved evs →
       w_heap w' !! l = w_heap w !! l) ∧
    (∀ st, r = Val st →
       ∃ d : odict key loc,
         build_obj_map fr batch w = (Val d, w) ∧
         evs = EvFilter (_obj_filter (f_match_field fr) d)
               :: EvBulkUpdate st.2 (f_update_fields fr) :: map EvSave st.1 ∧
         length st.1 + length st.2 = length d ∧
         sublist st.1 (dvalues d) ∧
         Forall (λ e, w_heap w !! e = None) st.2).
Proof.
  unfold process_batch. unfold bind at 1.
  destruct (build_obj_map fr batch w) as [[d|e] w0] eqn:Eb;
    pose proof (build_obj_map_inv _ _ _ _ _ Eb) as [-> _].
  2:{ intros [= <- <-]. exists []. rewrite app_nil_r. split; [done|].
      split; [by left|]. split; [done|]. by intros st [=]. }
  set (q := _obj_filter (f_match_field fr) d). unfold bind at 1.
  destruct (filter_m q w) as [[ents|e] w1] eqn:Ef;
    destruct (filter_m_inv _ _ _ _ Ef) as (Hlog1 & Hheap1 & Hfresh).
  2:{ intros [= <- <-]. exists [EvFilter q]. split; [done|].
      split; [right; left; eauto|]. split; [by intros l Hl _; apply Hheap1|].
      by intros st [=]. }
  specialize (Hfresh ents eq_refl).
  assert (∀ l, is_Some (w_heap w !! l) → l ∉ ents) as Hold.
  { intros l [a Ha] Hin. rewrite Forall_forall in Hfresh.
    specialize (Hfresh l Hin). congruence. }
  unfold bind at 1.
  destruct (fold_each ents (update_one fr) d w1) as [[d'|e] w2] eqn:Eu;
    destruct (update_loop_frame _ _ _ _ _ _ Eu) as (_ & Hlog2 & Hheap2 & Hd).
  2:{ intros [= <- <-]. exists [EvFilter q]. split; [congruence|].
      split; [right; left; eauto|]. split; [|by intros st [=]].
      intros l Hl _. rewrite Hheap2 by by apply Hold. by apply Hheap1. }
  destruct (Hd d' eq_refl) as [Hsub Hlen].
  unfold bind at 1.
  destruct (bulk_update_m ents (f_update_fields fr) w2) as [[[]|e] w3] eqn:Ebu;
    destruct (bulk_update_m_inv _ _ _ _ _ Ebu) as [Hlog3 Hheap3].
  2:{ intros [= <- <-].
      exists (EvFilter q :: EvBulkUpdate ents (f_update_fields fr) :: map EvSave []).
      split; [rewrite Hlog3, Hlog2, Hlog1; by rewrite <- app_assoc|].
      split; [right; right; eauto|]. split; [|by intros st [=]].
      intros l Hl _. rewrite Hheap3, Hheap2 by by apply Hold. by apply Hheap1. }
  unfold bind at 1.
  destruct (fold_each (dvalues d') create_one [] w3) as [[created|e] w4] eqn:Ec;
    destruct (create_loop_inv _ _ _ _ _ Ec) as (done & Hlog4 & Hpre & Hheap4 & Hval).
  - unfold ret. intros [= <- <-]. destruct (Hval created eq_refl) as [-> ->].
    exists (EvFilter q :: EvBulkUpdate ents (f_update_fields fr)
            :: map EvSave (dvalues d')).
    split; [rewrite Hlog4, Hlog3, Hlog2, Hlog1; by rewrite <- !app_assoc|].
    split; [right; right; eauto|]. split.
    + rewrite saved_batch_calls. intros l Hl Hnot.
      rewrite Hheap4, Hheap3, Hheap2 by (done || by apply Hold). by apply Hheap1.
    + intros st [= <-]. exists d. cbn [fst snd app]. split; [done|]. split; [done|].
      split; [unfold dvalues; rewrite length_map; lia|].
      split; [by apply (fmap_sublist snd)|done].
  - intros [= <- <-].
    exists (EvFilter q :: EvBulkUpdate ents (f_update_fields fr) :: map EvSave done).
    split; [rewrite Hlog4, Hlog3, Hlog2, Hlog1; by rewrite <- !app_assoc|].
    split; [right; right; eauto|]. split; [|by intros st [=]].
    rewrite saved_batch_calls. intros l Hl Hnot.
    rewrite Hheap4, Hheap3, Hheap2 by (done || by apply Hold). by apply Hheap1.
Qed.
End batch_anatomy.

(** ** The prologue: batch sizes and error messages *)

Lemma batches_negative (objs : list loc) (n : Z) : (n < 0)%Z → batches objs n = [].
Proof.
  intros Hn. unfold batches, range0. by destruct (Z.ltb_spec 0 n); [lia|].
Qed.

Lemma batches_large (objs : list loc) (N : Z) :
  objs ≠ [] → (Z.of_nat (length objs) ≤ N)%Z → batches objs N = [objs].
Proof.
  intros Hne HN. assert (0 < length objs) by (destruct objs; [done|simpl; lia]).
  rewrite batches_chunks by lia.
  replace (Z.to_nat (ceil_div _ _)) with 1.
  - simpl. rewrite drop_0. f_equal. apply take_ge. lia.
  - unfold ceil_div.
    replace (Z.of_nat (length objs) + N - 1)%Z
      with ((Z.of_nat (length objs) - 1) + 1 * N)%Z by lia.
    rewrite Z.div_add by lia. rewrite Z.div_small by lia. done.
Qed.

Lemma validate_first_bad h mf uf pre o post e :
  (∀ o' f, o' ∈ pre → f ∈ mf ++ uf → hasattr h o' f = true) →
  validate_obj h mf uf o = Some e →
  validate h mf uf (pre ++ o :: post) = Some e.
Proof.
  intros Hpre Ho. induction pre as [|o' pre IH]; simpl.
  - by rewrite Ho.
  - assert (validate_obj h mf uf o' = None) as ->.
    { apply validate_obj_None. intros f Hf. apply Hpre; [by left|done]. }
    apply IH. intros o'' f Ho'' Hf. apply Hpre; [by right|done].
Qed.

Lemma first_missing_first h o uf1 f uf2 :
  (∀ g, g ∈ uf1 → hasattr h o g = true) → hasattr h o f = false →
  first_missing h o (uf1 ++ f :: uf2) = Some f.
Proof.
  intros H1 Hf. induction uf1 as [|g uf1 IH]; simpl.
  - by rewrite Hf.
  - rewrite H1 by by left. apply IH. intros g' Hg'. apply H1. by right.
Qed.

Section prologue.
Context {S : Type} `{Store S}.
Implicit Types (w : world S) (a : args).

(** X1.  [batch_size=0] on an otherwise well-formed input: the first
    advance raises the [ValueError] of [range()], after validation and before
    any batch; nothing is asked of the store and nothing is written. *)
Theorem zero_batch_size a w :
  a_objs a ≠ [] → a_update_fields a ≠ [] → well_formed (w_heap w) a →
  a_batch_size a = Some 0%Z →
  gen_next (__bulk_update_or_create a) w
  = (Exc (ValueError "range() arg 3 must not be zero"), GenClosed, w) ∧
  reconcile a w
  = (Exc (ValueError "range() arg 3 must not be zero"),
     emit (EvReconcile (a_objs a)) w).
Proof.
  intros Hobjs Huf Hwf Hbs.
  assert (start a (w_heap w) = Exc (ValueError "range() arg 3 must not be zero")) as Hs.
  { unfold start. destruct (a_objs a) as [|o objs] eqn:Eo; [done|].
    destruct (a_update_fields a) as [|f uf] eqn:Ef; [done|].
    assert (validate (w_heap w) (normalize_match_field (a_match_field a))
                     (f :: uf) (o :: objs) = None) as ->.
    { apply validate_None. intros o' f' Ho' Hf'. apply Hwf; by rewrite ?Eo, ?Ef. }
    by rewrite Hbs. }
  split.
  - simpl. by rewrite Hs.
  - rewrite reconcile_unfold. unfold list_gen. simpl. by rewrite Hs.
Qed.

(** X2.  A negative [batch_size] on a well-formed input is not an error:
    [range(0, len(objs), batch_size)] is empty, so no batch is processed.
    The generator finishes at its first advance, the caller is given no
    outcome, no record is saved or updated and the store is never asked. *)
Theorem negative_batch_size a w n :
  a_objs a ≠ [] → a_update_fields a ≠ [] → well_formed (w_heap w) a →
  a_batch_size a = Some n → (n < 0)%Z →
  gen_next (__bulk_update_or_create a) w = (Val StopIteration, GenClosed, w) ∧
  reconcile a w = (Val [], emit (EvReconcile (a_objs a)) w).
Proof.
  intros Hobjs Huf Hwf Hbs Hn.
  assert (start a (w_heap w) = Val (frame_of a, [])) as Hs.
  { unfold start. destruct (a_objs a) as [|o objs] eqn:Eo; [done|].
    destruct (a_update_fields a) as [|f uf] eqn:Ef; [done|].
    assert (validate (w_heap w) (normalize_match_field (a_match_field a))
                     (f :: uf) (o :: objs) = None) as ->.
    { apply validate_None. intros o' f' Ho' Hf'. apply Hwf; by rewrite ?Eo, ?Ef. }
    rewrite Hbs. simpl. destruct (Z.eqb_spec n 0); [lia|].
    by rewrite batches_negative. }
  split.
  - simpl. by rewrite Hs.
  - rewrite reconcile_unfold. unfold list_gen. simpl. by rewrite Hs.
Qed.

(** X3.  Which [ValueError] the prologue raises.  An empty [objs] is
    reported first, then an empty [update_fields].  Otherwise the first
    record, in input order, that lacks a field decides: if it lacks a match
    field the message lists all the match fields, joined by a comma, whichever
    is missing; if it has them all, the message names the first update field
    it lacks. *)
Theorem validation_messages a h :
  (a_objs a = [] →
     start a h = Exc (ValueError "no objects to update_or_create...")) ∧
  (a_objs a ≠ [] → a_update_fields a = [] →
     start a h = Exc (ValueError "update_fields cannot be empty")) ∧
  (∀ pre o post,
     a_update_fields a ≠ [] → a_objs a = pre ++ o :: post →
     (∀ o' f, o' ∈ pre →
        f ∈ normalize_match_field (a_match_field a) ++ a_update_fields a →
        hasattr h o' f = true) →
     ((∃ f, f ∈ normalize_match_field (a_match_field a) ∧ hasattr h o f = false) →
        start a h
        = Exc (ValueError (match_field_msg (normalize_match_field (a_match_field a))))) ∧
     (∀ uf1 f uf2,
        (∀ g, g ∈ normalize_match_field (a_match_field a) → hasattr h o g = true) →
        a_update_fields a = uf1 ++ f :: uf2 →
        (∀ g, g ∈ uf1 → hasattr h o g = true) → hasattr h o f = false →
        start a h = Exc (ValueError (update_field_msg f)))).
Proof.
  split; [|split].
  - intros Ho. unfold start. by rewrite Ho.
  - intros Ho Hu. unfold start. destruct (a_objs a); [done|]. by rewrite Hu.
  - intros pre o post Hu Ho Hpre.
    assert (∀ e, validate_obj h (normalize_match_field (a_match_field a))
                   (a_update_fields a) o = Some e → start a h = Exc e) as Hstart.
    { intros e He. unfold start. rewrite Ho.
      destruct (pre ++ o :: post) as [|o1 objs] eqn:E1; [by destruct pre|].
      destruct (a_update_fields a) as [|f1 uf] eqn:E2; [done|].
      rewrite <- E1. by rewrite (validate_first_bad _ _ _ _ _ _ e Hpre He). }
    split.
    + intros (f & Hf & Hno). apply Hstart. unfold validate_obj.
      assert (forallb (hasattr h o) (normalize_match_field (a_match_field a)) = false)
        as ->; [|done].
      apply not_true_is_false. intros Hall. rewrite forallb_forall in Hall.
      rewrite Hall in Hno; [done|]. by apply list_elem_of_In.
    + intros uf1 f uf2 Hmf Huf H1 Hf. apply Hstart. unfold validate_obj.
      assert (forallb (hasattr h o) (normalize_match_field (a_match_field a)) = true)
        as ->.
      { apply forallb_forall. intros g Hg. apply Hmf. by apply list_elem_of_In. }
      simpl. rewrite Huf. by rewrite first_missing_first.
Qed.

(** X4.  A [batch_size] that is at least the number of records is the same
    as no [batch_size]: one batch, the whole input, and the same result in
    the same world, whatever the input. *)
Theorem large_batch_size objs uf mf N ci y w :
  (Z.of_nat (length objs) ≤ N)%Z →
  reconcile (Args objs uf mf (Some N) ci y) w
  = reconcile (Args objs uf mf None ci y) w.
Proof.
  intros HN. rewrite !reconcile_unfold. unfold list_gen, iter_gen.
  cbn [a_objs].
  assert (start (Args objs uf mf (Some N) ci y) (w_heap w)
          = start (Args objs uf mf None ci y) (w_heap w)) as Hs.
  { unfold start. cbn [a_objs a_update_fields a_match_field a_batch_size default].
    destruct objs as [|o objs]; [done|]. destruct uf as [|f uf]; [done|].
    destruct (validate _ _ _ _); [done|].
    set (l := o :: objs) in *. unfold id.
    assert (0 < Z.of_nat (length l))%Z by (simpl; lia).
    destruct (Z.eqb_spec N 0); [lia|].
    destruct (Z.eqb_spec (Z.of_nat (length l)) 0); [lia|].
    by rewrite batches_large, batches_default. }
  cbn [emit w_heap]. by rewrite Hs.
Qed.
End prologue.

(** ** The anatomy of a batch *)

Lemma remove_dups_length {A} `{EqDecision A} (l : list A) :
  length (remove_dups l) ≤ length l.
Proof. induction l as [|x l IH]; simpl; [done|]. case_decide; simpl; lia. Qed.

Lemma dict_of_elem {K V} `{EqDecision K} (xs : list (K * V)) kv :
  kv ∈ dict_of xs → kv ∈ xs.
Proof.
  destruct kv as [k v]. intros Hin.
  apply elem_dget in Hin; [|apply dict_of_NoDup_keys].
  apply dict_of_get_last in Hin as (xs1 & xs2 & -> & _).
  apply elem_of_app. right. by left.
Qed.

Lemma dict_of_length_distinct {K V} `{EqDecision K} (xs : list (K * V)) :
  length (dict_of xs) = length (remove_dups xs.*1).
Proof.
  rewrite <- (length_map fst (dict_of xs)). apply Permutation_length.
  apply NoDup_Permutation.
  - apply dict_of_NoDup_keys.
  - apply NoDup_remove_dups.
  - intros k. rewrite elem_of_remove_dups. apply dict_of_keys_elem.
Qed.

Lemma getattrs_length (a : attrs) fs k : getattrs a fs = Val k → length k = length fs.
Proof.
  revert k. induction fs as [|f fs IH]; intros k; simpl; [by intros [= <-]|].
  destruct (a !! f); [|done]. destruct (getattrs a fs) as [vs|]; [|done].
  intros [= <-]. simpl. by rewrite (IH vs).
Qed.

Lemma obj_key_getter_length fr h o k :
  _obj_key_getter fr h o = Val k → length k = length (f_match_field fr).
Proof.
  unfold _obj_key_getter, _obj_key_getter_sensitive.
  destruct (getattrs _ _) as [vs|] eqn:E; [|by destruct (f_case_insensitive_match fr)].
  apply getattrs_length in E.
  destruct (f_case_insensitive_match fr); intros [= <-]; by rewrite ?length_map.
Qed.

Lemma first_occurrences_snoc {A} `{EqDecision A} (l : list A) x :
  first_occurrences (l ++ [x])
  = if decide (x ∈ l) then first_occurrences l else first_occurrences l ++ [x].
Proof.
  induction l as [|y l IH]; cbn [app first_occurrences].
  - rewrite filter_nil. by rewrite decide_False by apply not_elem_of_nil.
  - rewrite IH. destruct (decide (x ∈ l)) as [Hin|Hnot].
    + by rewrite decide_True by by right.
    + rewrite filter_app. destruct (decide (x = y)) as [->|Hne].
      * rewrite decide_True by by left.
        rewrite filter_cons_False by (by intros Hy). by rewrite filter_nil, app_nil_r.
      * rewrite decide_False by (by intros [?|?]%elem_of_cons).
        rewrite filter_cons_True by done. by rewrite filter_nil.
Qed.

(** A dictionary built from pairs iterates over the distinct keys in the
    order they first occur. *)
Lemma dict_of_keys_first {K V : Type} `{EqDecision K} (xs : list (K * V)) :
  dkeys (dict_of xs) = first_occurrences xs.*1.
Proof.
  induction xs as [|[k v] xs IH] using rev_ind; [done|].
  rewrite dict_of_snoc, fmap_app. cbn [fmap list_fmap fst].
  rewrite first_occurrences_snoc.
  destruct (decide (k ∈ xs.*1)) as [Hin|Hnot].
  - rewrite dkeys_dset_in by by apply dict_of_keys_elem. exact IH.
  - rewrite dkeys_dset_fresh by by rewrite dict_of_keys_elem. by rewrite IH.
Qed.

Lemma key_kwargs_NoDup mf k :
  NoDup mf → length k = length mf → key_kwargs mf k = zip mf k.
Proof.
  intros Hnd Hlen. unfold key_kwargs. apply dict_of_NoDup.
  rewrite fst_zip by lia. done.
Qed.

Section batch_properties.
Context {S : Type} `{Store S}.
Implicit Types (w : world S) (fr : frame).

(** X5.  The store calls of one batch, whatever the store answers: the
    existence query once, then one bulk update, then the saves, and an
    exception cuts this short, so nothing is written unless the query and the
    matching went through.  When the batch completes, its outcome says
    exactly what was written: the updated list is what [bulk_update] was
    given, restricted to [update_fields], and the created list is the records
    saved, in the order they were saved. *)
Theorem batch_store_calls fr batch w r w' :
  process_batch fr batch w = (r, w') →
  ∃ evs,
    w_log w' = w_log w ++ evs ∧ batch_calls fr evs ∧
    (∀ st, r = Val st →
       ∃ q, evs = EvFilter q :: EvBulkUpdate st.2 (f_update_fields fr)
                  :: map EvSave st.1).
Proof.
  intros E. destruct (process_batch_inv _ _ _ _ _ E) as (evs & Hlog & Hcalls & _ & Hval).
  exists evs. split; [done|]. split; [done|].
  intros st Hr. destruct (Hval st Hr) as (d & _ & -> & _). eauto.
Qed.

(** X6.  A batch that completes classifies every distinct match key of the
    batch exactly once: the created records and the updated entities are
    together as many as the distinct keys.  Every created record is a record
    of the batch, and every updated entity is an object the query made, not
    one that existed before. *)
Theorem keys_classified_once fr batch w created updated w' :
  process_batch fr batch w = (Val (created, updated), w') →
  length created + length updated
  = length (remove_dups (keys_at fr (w_heap w) batch)) ∧
  (∀ o, o ∈ created → o ∈ batch) ∧
  Forall (λ e, w_heap w !! e = None) updated.
Proof.
  intros E. destruct (process_batch_inv _ _ _ _ _ E) as (evs & _ & _ & _ & Hval).
  destruct (Hval _ eq_refl) as (d & Eb & _ & Hlen & Hsub & Hfresh).
  cbn [fst snd] in *.
  destruct (build_obj_map_inv _ _ _ _ _ Eb) as [_ Hd].
  destruct (Hd d eq_refl) as [-> _].
  split; [|split; [|done]].
  - rewrite Hlen, dict_of_length_distinct, fst_zip; [done|].
    rewrite keys_at_length. lia.
  - intros o Ho. eapply elem_of_sublist in Ho; [|exact Hsub].
    apply list_elem_of_fmap in Ho as ([k o'] & -> & Hin).
    apply dict_of_elem in Hin. by eapply elem_of_zip_r.
Qed.

(** X9.  The predicate sent to the store has one conjunction per distinct
    match key of the batch, in the order the keys first occur ([dkeys d] is
    the list of the batch's keys with every repetition after the first
    removed): never more than the batch has records, and at least one when
    the batch is not empty.
    When the match fields are pairwise distinct, a conjunction binds each
    match field, in order, to the component of the key, that is to the
    lower-cased value when [case_insensitive_match] is set. *)
Theorem query_shape fr batch w (d : odict key loc) :
  build_obj_map fr batch w = (Val d, w) →
  _obj_filter (f_match_field fr) d = map (key_kwargs (f_match_field fr)) (dkeys d) ∧
  dkeys d = first_occurrences (keys_at fr (w_heap w) batch) ∧
  NoDup (dkeys d) ∧
  (∀ k, k ∈ dkeys d ↔ k ∈ keys_at fr (w_heap w) batch) ∧
  length (_obj_filter (f_match_field fr) d) ≤ length batch ∧
  (batch ≠ [] → _obj_filter (f_match_field fr) d ≠ []) ∧
  (NoDup (f_match_field fr) →
     _obj_filter (f_match_field fr) d = map (zip (f_match_field fr)) (dkeys d) ∧
     Forall (λ k, length k = length (f_match_field fr)) (dkeys d)).
Proof.
  intros Eb. destruct (build_obj_map_inv _ _ _ _ _ Eb) as [_ Hd].
  destruct (Hd d eq_refl) as [-> Hkeys].
  set (ks := keys_at fr (w_heap w) batch).
  assert (length ks = length batch) as Hlen by apply keys_at_length.
  assert (∀ k, k ∈ dkeys (dict_of (zip ks batch)) ↔ k ∈ ks) as Hmem.
  { intros k. by rewrite dict_of_keys_elem, zip_fst_keys. }
  assert (Forall (λ k, length k = length (f_match_field fr))
                 (dkeys (dict_of (zip ks batch)))) as Hlens.
  { apply Forall_forall. intros k Hk. apply Hmem in Hk.
    apply list_elem_of_fmap in Hk as (o & -> & Ho).
    rewrite Forall_forall in Hkeys. destruct (Hkeys o Ho) as [k Hk].
    unfold key_at. rewrite Hk. by eapply obj_key_getter_length. }
  rewrite obj_filter_map.
  split; [done|].
  split; [by rewrite dict_of_keys_first, zip_fst_keys|].
  split; [apply dict_of_NoDup_keys|]. split; [done|].
  split; [|split].
  - rewrite length_map. unfold dkeys. rewrite length_map.
    rewrite dict_of_length_distinct, zip_fst_keys by done.
    rewrite <- Hlen. apply remove_dups_length.
  - intros Hne Hnil. destruct batch as [|o batch]; [done|].
    apply (f_equal length) in Hnil. rewrite length_map in Hnil.
    assert (key_at fr (w_heap w) o ∈ dkeys (dict_of (zip ks (o :: batch)))) as Hin
      by (apply Hmem; by left).
    destruct (dkeys _); [by apply elem_of_nil in Hin|done].
  - intros Hnd. split; [|done].
    apply map_ext_in. intros k Hk. apply key_kwargs_NoDup; [done|].
    rewrite Forall_forall in Hlens. apply Hlens. by apply list_elem_of_In.
Qed.
End batch_properties.

(** ** The whole run *)

Lemma queries_saves done : queries (map EvSave done) = [].
Proof. induction done as [|o done IH]; [done|]. exact IH. Qed.

Lemma queries_batch q ents uf done :
  queries (EvFilter q :: EvBulkUpdate ents uf :: map EvSave done) = [q].
Proof.
  change (q :: queries (map EvSave done) = [q]). by rewrite queries_saves.
Qed.

Section whole_run.
Context {S : Type} `{Store S}.
Implicit Types (w : world S) (fr : frame) (a : args).

Lemma process_all_frame fr bs w r w' :
  process_all fr bs w = (r, w') →
  ∃ evs,
    w_log w' = w_log w ++ evs ∧
    ∀ l, is_Some (w_heap w !! l) → l ∉ saved evs → w_heap w' !! l = w_heap w !! l.
Proof.
  revert w r w'. induction bs as [|b bs IH]; intros w r w'; simpl.
  - intros [= <- <-]. exists []. by rewrite app_nil_r.
  - unfold bind at 1. destruct (process_batch fr b w) as [[st|e] w1] eqn:Eb;
      destruct (process_batch_inv _ _ _ _ _ Eb) as (evs1 & Hlog1 & _ & Hheap1 & _).
    + unfold bind at 1. destruct (process_all fr bs w1) as [[sts|e] w2] eqn:Ebs;
        destruct (IH _ _ _ Ebs) as (evs2 & Hlog2 & Hheap2);
        intros [= <- <-]; exists (evs1 ++ evs2);
        (split; [by rewrite Hlog2, Hlog1, app_assoc|]);
        intros l Hl Hnot; rewrite saved_app, not_elem_of_app in Hnot;
        destruct Hnot as [Hn1 Hn2];
        (rewrite Hheap2; [by apply Hheap1| |done]);
        by rewrite Hheap1.
    + intros [= <- <-]. exists evs1. split; [done|]. done.
Qed.

Lemma process_all_app fr bs1 bs2 w :
  process_all fr (bs1 ++ bs2) w =
  match process_all fr bs1 w with
  | (Val sts1, w1) =>
      match process_all fr bs2 w1 with
      | (Val sts2, w2) => (Val (sts1 ++ sts2), w2)
      | (Exc e, w2) => (Exc e, w2)
      end
  | (Exc e, w1) => (Exc e, w1)
  end.
Proof.
  revert w. induction bs1 as [|b bs1 IH]; intros w; simpl.
  - by destruct (process_all fr bs2 w) as [[sts|e] w2].
  - unfold bind at 1 3. destruct (process_batch fr b w) as [[st|e] w1]; [|done].
    unfold bind at 1 2. rewrite IH.
    destruct (process_all fr bs1 w1) as [[sts1|e] w2]; [|done].
    unfold ret. by destruct (process_all fr bs2 w2) as [[sts2|e] w3].
Qed.

(** X7.  The call changes no object that existed before it, other than
    the records it saved: entities are objects of their own, so [setattr]
    never lands on an input record, and a record that was matched to an
    existing row leaves the call as it entered it (its primary key, for one,
    is not filled in). *)
Theorem unsaved_objects_untouched a w r w' :
  reconcile a w = (r, w') →
  ∃ evs,
    w_log w' = w_log w ++ EvReconcile (a_objs a) :: evs ∧
    ∀ l, is_Some (w_heap w !! l) → l ∉ saved evs →
         w_heap w' !! l = w_heap w !! l.
Proof.
  rewrite reconcile_unfold. unfold list_gen, iter_gen. cbn [emit w_heap].
  destruct (start a (w_heap w)) as [[fr bs]|e].
  - rewrite iter_rest_collect.
    destruct (process_all fr bs _) as [[sts|e] w1] eqn:Ep;
      destruct (process_all_frame _ _ _ _ _ Ep) as (evs & Hlog & Hheap);
      intros [= <- <-]; exists evs; cbn [emit w_log w_heap] in *;
      (split; [by rewrite Hlog, <- app_assoc|done]).
  - intros [= <- <-]. exists []. by split.
Qed.

Lemma nexts_suspended fr bs1 rest w sts1 w1 :
  f_yield_objects fr = true →
  process_all fr bs1 w = (Val sts1, w1) →
  nexts (length bs1) (GenSuspended fr (bs1 ++ rest)) w
  = (sts1, GenSuspended fr rest, w1).
Proof.
  intros Hy. revert w sts1. induction bs1 as [|b bs1 IH]; intros w sts1.
  - simpl. by intros [= <- <-].
  - cbn [process_all length nexts app gen_next gen_loop]. unfold bind at 1.
    destruct (process_batch fr b w) as [[st|e] w'] eqn:Eb; [|done].
    rewrite Hy. unfold bind at 1.
    destruct (process_all fr bs1 w') as [[sts|e] w''] eqn:Ebs; [|done].
    intros [= <- <-]. by rewrite (IH w' sts Ebs).
Qed.

(** X8.  An exception in a batch ends the run there: nothing is rolled
    back, the world is the one the earlier batches and the failing batch's
    own steps left, and the batches after it are never started.  Without
    [yield_objects] the call raises the exception, so the outcomes of the
    earlier batches do not reach the caller.  With [yield_objects] the caller
    is first given the outcome of every earlier batch, one per advance; the
    advance that reaches the failing batch raises the exception and finishes
    the generator, which only stops the iteration from then on. *)
Theorem failed_batch_stops_run a w bs1 b bs2 sts1 w1 e w2 :
  accepted (w_heap w) a →
  batches_of a = bs1 ++ b :: bs2 →
  process_all (frame_of a) bs1 (emit (EvReconcile (a_objs a)) w) = (Val sts1, w1) →
  process_batch (frame_of a) b w1 = (Exc e, w2) →
  (a_yield_objects a = false → bulk_update_or_create a w = (Exc e, w2)) ∧
  (a_yield_objects a = true →
     ∃ g1,
       bulk_update_or_create a w
       = (Val (RGen (GenCreated a)), emit (EvReconcile (a_objs a)) w) ∧
       nexts (length bs1) (GenCreated a) (emit (EvReconcile (a_objs a)) w)
       = (sts1, g1, w1) ∧
       gen_next g1 w1 = (Exc e, GenClosed, w2) ∧
       gen_next GenClosed w2 = (Val StopIteration, GenClosed, w2)) ∧
  reconcile a w = (Exc e, w2).
Proof.
  intros Hacc Hbs E1 Eb.
  assert (reconcile a w = (Exc e, w2)) as Hrec.
  { rewrite reconcile_accepted by done.
    rewrite Hbs, process_all_app, E1. simpl. unfold bind. by rewrite Eb. }
  set (w0 := emit (EvReconcile (a_objs a)) w) in *.
  assert (start a (w_heap w0) = Val (frame_of a, bs1 ++ b :: bs2)) as Hstart.
  { cbn [w0 emit w_heap]. rewrite <- Hbs. by apply accepted_start. }
  split; [|split; [|done]].
  - intros Hy. rewrite reconcile_unfold in Hrec. fold w0 in Hrec.
    unfold bulk_update_or_create, __bulk_update_or_create. rewrite Hy.
    fold w0. by rewrite Hrec.
  - intros Hy.
    assert (f_yield_objects (frame_of a) = true) as Hfy by done.
    assert (gen_next (GenSuspended (frame_of a) (b :: bs2)) w1 = (Exc e, GenClosed, w2))
      as Hfail by (cbn [gen_next gen_loop]; by rewrite Eb).
    destruct bs1 as [|b1 bs1].
    + exists (GenCreated a). simpl in E1. injection E1 as <- <-.
      split; [unfold bulk_update_or_create, __bulk_update_or_create; by rewrite Hy|].
      split; [done|]. split; [|done].
      cbn [gen_next]. rewrite Hstart. exact Hfail.
    + exists (GenSuspended (frame_of a) (b :: bs2)).
      split; [unfold bulk_update_or_create, __bulk_update_or_create; by rewrite Hy|].
      split; [|by split].
      rewrite <- (nexts_suspended (frame_of a) (b1 :: bs1) (b :: bs2) w0 sts1 w1 Hfy E1).
      cbn [length nexts gen_next]. by rewrite Hstart.
Qed.

(** X11.  With [yield_objects=True] an advance of the generator does the
    work of exactly one batch: it asks the store one query, and when it
    yields, the outcome is that of the first batch still to come and the
    generator is left with the others.  When no batch is left the advance
    stops the iteration and touches nothing; an exception finishes the
    generator. *)
Theorem one_batch_per_advance fr rest w r g' w' :
  f_yield_objects fr = true →
  gen_next (GenSuspended fr rest) w = (r, g', w') →
  (rest = [] → r = Val StopIteration ∧ g' = GenClosed ∧ w' = w) ∧
  (∀ b rest', rest = b :: rest' →
     ∃ evs,
       w_log w' = w_log w ++ evs ∧ batch_calls fr evs ∧
       r ≠ Val StopIteration ∧
       (∀ st, r = Val (Yield st) →
          g' = GenSuspended fr rest' ∧ process_batch fr b w = (Val st, w') ∧
          length (queries evs) = 1) ∧
       (∀ e, r = Exc e → g' = GenClosed)).
Proof.
  intros Hy E. split.
  - intros ->. simpl in E. by injection E as <- <- <-.
  - intros b rest' ->. simpl in E.
    destruct (process_batch fr b w) as [[st|e] w1] eqn:Eb;
      destruct (process_batch_inv _ _ _ _ _ Eb) as (evs & Hlog & Hcalls & _ & Hval).
    + rewrite Hy in E. injection E as <- <- <-. exists evs.
      split; [done|]. split; [done|]. split; [done|]. split; [|by intros e [=]].
      intros st' [= <-]. split; [done|]. split; [done|].
      destruct (Hval st eq_refl) as (d & _ & -> & _). by rewrite queries_batch.
    + injection E as <- <- <-. exists evs.
      split; [done|]. split; [done|]. split; [done|]. split; [by intros st [=]|done].
Qed.
End whole_run.

(** ** Runs of the accumulator *)

Section accumulator_runs.
Context {S : Type} `{Store S}.
Implicit Types (w : world S) (c : cm S).

(** What a push that returned has done. *)
Lemma queue_completed obj c w c' w' :
  queue obj c w = (Val tt, c', w') →
  ∃ calls,
    c' = set_queue c (_queue c') ∧
    reconcile_calls (w_log w') = reconcile_calls (w_log w) ++ calls ∧
    concat calls ++ _queue c' = _queue c ++ [obj] ∧
    (calls = [] ∧ (Z.of_nat (length (_queue c')) < _batch_size c)%Z ∨
     calls = [_queue c ++ [obj]] ∧ _queue c' = [] ∧
     (_batch_size c ≤ Z.of_nat (length (_queue c ++ [obj])))%Z).
Proof.
  unfold queue. set (c1 := set_queue c (_queue c ++ [obj])).
  change (_queue c1) with (_queue c ++ [obj]).
  change (_batch_size c1) with (_batch_size c).
  destruct (Z.geb_spec (Z.of_nat (length (_queue c ++ [obj]))) (_batch_size c))
    as [Hge|Hlt].
  - intros E.
    assert (_queue c1 ≠ []) as Hne by (unfold c1; simpl; by destruct (_queue c)).
    destruct (dump_queue_nonempty _ _ _ _ _ Hne E) as (evs & Hlog & F & Hv & _).
    destruct (Hv eq_refl) as [-> _]. apply inner_events_quiet in F as [_ F].
    exists [_queue c ++ [obj]]. split; [done|]. split.
    + rewrite Hlog.
      change (EvFlush :: EvReconcile (_queue c1) :: evs)
        with ([EvFlush; EvReconcile (_queue c1)] ++ evs).
      by rewrite !reconcile_calls_app, F, app_nil_r.
    + split; [simpl; by rewrite !app_nil_r|]. right. done.
  - intros [= <- <-]. exists []. split; [done|]. split; [by rewrite app_nil_r|].
    split; [done|]. left. done.
Qed.

Lemma pushes_conserve_records_aux objs c w c' w' :
  queue_all objs c w = (Val tt, c', w') →
  ∃ calls,
    reconcile_calls (w_log w') = reconcile_calls (w_log w) ++ calls ∧
    concat calls ++ _queue c' = _queue c ++ objs ∧
    c' = set_queue c (_queue c') ∧
    ((0 < _batch_size c)%Z → (Z.of_nat (length (_queue c)) < _batch_size c)%Z →
       (Z.of_nat (length (_queue c')) < _batch_size c)%Z ∧
       Forall (λ q, Z.of_nat (length q) = _batch_size c) calls).
Proof.
  revert c w. induction objs as [|obj objs IH]; intros c w; simpl.
  - intros [= <- <-]. exists []. rewrite !app_nil_r.
    split; [done|]. split; [done|]. split; [by destruct c|]. by split.
  - destruct (queue obj c w) as [[[[]|e] c1] w1] eqn:Eq; [|done].
    intros E. destruct (queue_completed _ _ _ _ _ Eq) as (calls1 & Hc1 & Hlog1 & Hcat1 & Hcase).
    destruct (IH _ _ E) as (calls2 & Hlog2 & Hcat2 & Hc2 & Hbound).
    assert (_batch_size c1 = _batch_size c) as Hbs by by rewrite Hc1.
    exists (calls1 ++ calls2). split; [by rewrite Hlog2, Hlog1, app_assoc|].
    split.
    { rewrite concat_app, <- app_assoc, Hcat2, app_assoc, Hcat1.
      by rewrite <- app_assoc. }
    split; [by rewrite Hc2, Hc1|].
    intros Hpos Hlt. rewrite Hbs in Hbound.
    assert ((Z.of_nat (length (_queue c1)) < _batch_size c)%Z ∧
            Forall (λ q, Z.of_nat (length q) = _batch_size c) calls1) as [Hlt1 HF1].
    { destruct Hcase as [[-> Hl]|(-> & Hq & Hge)].
      - split; [done|constructor].
      - rewrite Hq. split; [simpl; lia|].
        constructor; [|constructor]. rewrite length_app in *. simpl in *. lia. }
    destruct (Hbound Hpos Hlt1) as [Hlt' HF2].
    split; [done|]. by apply Forall_app.
Qed.

(** X10.  A run of pushes that all returned loses no record and repeats
    none: the record sequences handed to reconcile during the run, one
    after the other, followed by what is still in the buffer, are the buffer
    as it was followed by the pushed records, in push order.  From a buffer
    below a positive threshold, every one of these reconcile calls got
    exactly threshold-many records and the buffer ends below the
    threshold. *)
Theorem pushes_conserve_records objs c w c' w' :
  queue_all objs c w = (Val tt, c', w') →
  ∃ calls,
    reconcile_calls (w_log w') = reconcile_calls (w_log w) ++ calls ∧
    concat calls ++ _queue c' = _queue c ++ objs ∧
    c' = set_queue c (_queue c') ∧
    ((0 < _batch_size c)%Z → (Z.of_nat (length (_queue c)) < _batch_size c)%Z →
       (Z.of_nat (length (_queue c')) < _batch_size c)%Z ∧
       Forall (λ q, Z.of_nat (length q) = _batch_size c) calls).
Proof. apply pushes_conserve_records_aux. Qed.

(** X12.  A block that starts with an empty buffer, pushes records and
    leaves the scope without an exception has handed every pushed record to
    reconcile exactly once, in push order, the last ones at the exit; the
    buffer is empty afterwards. *)
Theorem scope_reconciles_everything objs (mgr : cm S) w c' w' :
  _queue mgr = [] →
  with_ mgr (queue_all objs) w = (Val tt, c', w') →
  concat (reconcile_calls (w_log w'))
  = concat (reconcile_calls (w_log w)) ++ objs ∧
  _queue c' = [].
Proof.
  intros Hq. unfold with_, __enter__, __exit__.
  destruct (queue_all objs mgr w) as [[[[]|e] c1] w1] eqn:Eb.
  2:{ by destruct (dump_queue c1 w1) as [[[|] ?] ?]. }
  destruct (pushes_conserve_records_aux objs mgr w c1 w1 Eb)
    as (calls & Hlog & Hcat & _).
  rewrite Hq in Hcat. simpl in Hcat.
  destruct (dump_queue c1 w1) as [[[[]|e] c2] w2] eqn:Ed; [|done].
  intros [= <- <-].
  destruct (decide (_queue c1 = [])) as [Hempty|Hne].
  - rewrite dump_queue_empty in Ed by done. injection Ed as <- <-.
    split; [|done]. simpl. rewrite reconcile_calls_app, Hlog. simpl.
    rewrite app_nil_r, concat_app. rewrite Hempty, app_nil_r in Hcat. by rewrite Hcat.
  - destruct (dump_queue_nonempty _ _ _ _ _ Hne Ed) as (evs & Hlog2 & F & Hv & _).
    destruct (Hv eq_refl) as [-> _]. apply inner_events_quiet in F as [_ F].
    split; [|done]. rewrite Hlog2.
    change (EvFlush :: EvReconcile (_queue c1) :: evs)
      with ([EvFlush; EvReconcile (_queue c1)] ++ evs).
    rewrite !reconcile_calls_app, F, Hlog, app_nil_r. simpl.
    rewrite !concat_app. simpl. rewrite app_nil_r, <- app_assoc. by rewrite Hcat.
Qed.
End accumulator_runs.

(** ** The [yield_objects] flag *)

Section yield_flag.
Context {S : Type} `{Store S}.
Implicit Types (w : world S).

Lemma process_batch_yield uf mf ci y y' batch w :
  process_batch (Frame uf mf ci y) batch w = process_batch (Frame uf mf ci y') batch w.
Proof. reflexivity. Qed.

Lemma process_all_yield uf mf ci y y' bs w :
  process_all (Frame uf mf ci y) bs w = process_all (Frame uf mf ci y') bs w.
Proof.
  revert w. induction bs as [|b bs IH]; intros w; simpl; [done|].
  unfold bind at 1 3. rewrite (process_batch_yield uf mf ci y y').
  destruct (process_batch _ b w) as [[st|e] w1]; [|done].
  unfold bind. by rewrite IH.
Qed.

Lemma reconcile_by_flag objs uf mf bs ci y w :
  reconcile (Args objs uf mf bs ci y) w =
  match start (Args objs uf mf bs ci true) (w_heap w) with
  | Val (fr, batches) =>
      match process_all fr batches (emit (EvReconcile objs) w) with
      | (Val sts, w') => (Val (if y then sts else []), w')
      | (Exc e, w') => (Exc e, w')
      end
  | Exc e => (Exc e, emit (EvReconcile objs) w)
  end.
Proof.
  rewrite reconcile_unfold. unfold list_gen, iter_gen. cbn [a_objs emit w_heap].
  unfold start. cbn [a_objs a_update_fields a_match_field a_batch_size].
  destruct objs as [|o objs]; [done|]. destruct uf as [|f uf]; [done|].
  destruct (validate _ _ _ _); [done|].
  destruct (_ =? 0)%Z; [done|].
  rewrite iter_rest_collect. unfold frame_of.
  cbn [a_update_fields a_match_field a_case_insensitive_match a_yield_objects
       f_yield_objects].
  by rewrite (process_all_yield _ _ _ y true).
Qed.

(** X13.  [yield_objects] changes what the caller is given and nothing
    else.  For a caller that consumes the generator to its end, the world
    after the call (objects, database, store calls) is the same with the flag
    set or not, and the call raises the same exception; but where the call
    with the flag set gives the outcomes of the batches, the call without it
    returns the empty list, whatever was created or updated. *)
Theorem yield_flag_changes_only_result objs uf mf bs ci w :
  (reconcile (Args objs uf mf bs ci false) w).2
  = (reconcile (Args objs uf mf bs ci true) w).2 ∧
  (∀ sts, (reconcile (Args objs uf mf bs ci true) w).1 = Val sts →
     (bulk_update_or_create (Args objs uf mf bs ci false) w).1 = Val (RList [])) ∧
  (∀ e, (reconcile (Args objs uf mf bs ci true) w).1 = Exc e →
     (bulk_update_or_create (Args objs uf mf bs ci false) w).1 = Exc e).
Proof.
  assert (∀ r, (reconcile (Args objs uf mf bs ci false) w).1 = r →
               (bulk_update_or_create (Args objs uf mf bs ci false) w).1
               = match r with Val l => Val (RList l) | Exc e => Exc e end) as Hraw.
  { intros r <-. unfold reconcile, bind, bulk_update_or_create.
    cbn [a_yield_objects].
    by destruct (list_gen _ _) as [[l|e] w1]. }
  pose proof (reconcile_by_flag objs uf mf bs ci false w) as Hoff.
  pose proof (reconcile_by_flag objs uf mf bs ci true w) as Hon.
  destruct (start _ _) as [[fr batches]|e0].
  - destruct (process_all fr batches _) as [[sts0|e0] w1].
    + rewrite Hoff, Hon in *. split; [done|]. split; [|done].
      intros sts _. by rewrite (Hraw (Val [])) by done.
    + rewrite Hoff, Hon in *. split; [done|]. split; [done|].
      intros e [= <-]. by rewrite (Hraw (Exc e0)) by done.
  - rewrite Hoff, Hon in *. split; [done|]. split; [done|].
    intros e [= <-]. by rewrite (Hraw (Exc e0)) by done.
Qed.
End yield_flag.
End properties.

(** * The properties on concrete inputs *)

Import Examples Scenarios.
#[local] Existing Instance ascii_text.

Lemma table_writes_succeed : writes_succeed MemStore.table.
Proof.
  split; [intros ents fields s; by eexists|].
  intros a s. simpl. destruct (MemStore.insert_row a s) as [a' s']. eauto.
Qed.

Lemma validation_before_store_witness :
  rejected (w_heap third_malformed) (by_name (Some 2%Z) true) ∧
  ∃ msg,
    gen_next (__bulk_update_or_create (by_name (Some 2%Z) true)) third_malformed
    = (Exc (ValueError msg), GenClosed, third_malformed) ∧
    reconcile (by_name (Some 2%Z) true) third_malformed
    = (Exc (ValueError msg), emit (EvReconcile [0; 1; 2]%nat) third_malformed).
Proof.
  assert (rejected (w_heap third_malformed) (by_name (Some 2%Z) true)) as Hrej.
  { right. right. exists 2%nat, "num". split; [|split].
    - simpl. repeat constructor.
    - simpl. repeat constructor.
    - vm_compute. reflexivity. }
  split; [exact Hrej|].
  exact (validation_before_store (by_name (Some 2%Z) true) third_malformed Hrej).
Defined.

Lemma generator_is_lazy_witness :
  ∃ msg,
    gen_next (GenCreated (by_name (Some 2%Z) true))
             (emit (EvReconcile [0; 1; 2]%nat) third_malformed)
    = (Exc (ValueError msg), GenClosed, emit (EvReconcile [0; 1; 2]%nat) third_malformed).
Proof.
  apply (generator_is_lazy [0; 1; 2]%nat ["num"] (MFStr "name") (Some 2%Z) false third_malformed).
  right. right. exists 2%nat, "num". split; [|split].
  - simpl. repeat constructor.
  - simpl. repeat constructor.
  - vm_compute. reflexivity.
Defined.

Lemma batching_outcomes_witness :
  accepted (w_heap three_new) (by_name (Some 2%Z) true) ∧
  concat (batches_of (by_name (Some 2%Z) true)) = [0; 1; 2]%nat.
Proof.
  assert (accepted (w_heap three_new) (by_name (Some 2%Z) true)) as Hacc.
  { apply acceptedb_accepted. vm_compute. reflexivity. }
  split; [exact Hacc|].
  apply (batching_outcomes (by_name (Some 2%Z) true) three_new Hacc).
Defined.

(** C3 as it is stated fails for the default [yield_objects=False]: three
    accepted records with [batch_size=2] make ceil(3/2) = 2 batches, both are
    processed (two existence queries), and no outcome is produced. *)
Lemma batching_outcomes_counterexample :
  accepted (w_heap three_new) (by_name (Some 2%Z) false) ∧
  Z.to_nat (ceil_div 3 2) = 2%nat ∧
  (reconcile (by_name (Some 2%Z) false) three_new).1 = Val [] ∧
  (bulk_update_or_create (by_name (Some 2%Z) false) three_new).1 = Val (RList []) ∧
  length (List.filter (λ e, match e with EvFilter _ => true | _ => false end)
            (w_log (reconcile (by_name (Some 2%Z) false) three_new).2)) = 2%nat.
Proof.
  split; [apply acceptedb_accepted; vm_compute; reflexivity|].
  repeat split; vm_compute; reflexivity.
Qed.

Lemma queue_threshold_witness :
  queue 1%nat (accumulator [0%nat] 2 None) three_new
  = dump_queue (accumulator [0; 1]%nat 2 None) three_new ∧
  ∀ r c' w',
    queue 1%nat (accumulator [0%nat] 2 None) three_new = (r, c', w') →
    flush_count (w_log w') = Datatypes.S (flush_count (w_log three_new)) ∧
    (r = Val tt → _queue c' = []).
Proof.
  apply (queue_threshold (accumulator [0%nat] 2 None) 1%nat three_new).
  vm_compute. discriminate.
Defined.


Lemma observer_before_clear_witness :
  (dump_queue (accumulator [0; 1]%nat 5 (Some raising_observer)) three_new).1.1
  = Exc (ExternalError "observer") ∧
  _queue (dump_queue (accumulator [0; 1]%nat 5 (Some raising_observer)) three_new).1.2
  = [0; 1]%nat.
Proof.
  split; [vm_compute; reflexivity|].
  destruct (observer_before_clear
              (accumulator [0; 1]%nat 5 (Some raising_observer)) raising_observer
              three_new (Exc (ExternalError "observer"))
              (dump_queue (accumulator [0; 1]%nat 5 (Some raising_observer)) three_new).1.2
              (dump_queue (accumulator [0; 1]%nat 5 (Some raising_observer)) three_new).2)
    as (evs & _ & _ & _ & Hexc).
  - reflexivity.
  - discriminate.
  - vm_compute. reflexivity.
  - exact (Hexc _ eq_refl).
Defined.

Lemma last_write_wins_witness :
  ∃ obj_map : odict key loc,
    build_obj_map (frame_of (by_name None true)) [0; 1; 2]%nat two_anns
    = (Val obj_map, two_anns) ∧
    dget obj_map [VStr "ann"] = Some 2%nat ∧
    dvalues obj_map = [2; 1]%nat.
Proof.
  destruct (last_write_wins (frame_of (by_name None true)) [0; 1; 2]%nat two_anns)
    as (obj_map & Hb & _ & _ & Hlast & _).
  - repeat constructor; eexists; vm_compute; reflexivity.
  - exists obj_map. split; [exact Hb|].
    split.
    + apply (Hlast [0; 1]%nat 2%nat []); [reflexivity|]. apply not_elem_of_nil.
    + vm_compute in Hb. injection Hb as <-. reflexivity.
Defined.

Lemma all_created_witness :
  ∃ w',
    reconcile (by_name (Some 2%Z) true) three_new
    = (Val [([0; 1]%nat, []); ([2%nat], [])], w') ∧
    saved (w_log w') = [0; 1; 2]%nat ∧
    bulk_updated (w_log w') = [] ∧
    MemStore.rows (w_db w')
    = [MemStore.stored 100 "ann" 1; MemStore.stored 101 "bob" 2;
       MemStore.stored 102 "cat" 3] ∧
    w_heap w' !! 1%nat = Some (MemStore.stored 101 "bob" 2).
Proof.
  assert (batches_of (by_name (Some 2%Z) true) = [[0; 1]; [2]]%nat) as Hbs
    by (vm_compute; reflexivity).
  exists (reconcile (by_name (Some 2%Z) true) three_new).2.
  destruct (all_created (by_name (Some 2%Z) true) three_new
              (Val [([0; 1]%nat, []); ([2%nat], [])])
              (reconcile (by_name (Some 2%Z) true) three_new).2)
    as (r0 & Hins & _ & Hb & _ & Hval & _ & Hw).
  - apply acceptedb_accepted. vm_compute. reflexivity.
  - apply (bool_decide_unpack _). vm_compute. exact I.
  - rewrite Hbs. cbn [finds_nothing].
    split; [eexists; vm_compute; reflexivity|].
    split; [eexists; vm_compute; reflexivity|exact I].
  - vm_compute. reflexivity.
  - destruct (Hw table_writes_succeed) as [u ->].
    destruct (Hval u eq_refl) as (_ & _ & Hs).
    split; [vm_compute; reflexivity|]. split; [exact Hs|]. split; [exact Hb|].
    pose proof (f_equal (λ x, x.1.2) Hins) as Hh.
    pose proof (f_equal snd Hins) as Hd. cbn [fst snd] in Hh, Hd.
    rewrite <- Hh, <- Hd. split; vm_compute; reflexivity.
Defined.



(** The run of that call: the entities are the objects the two queries
    made, and the second of them holds bob's number. *)
Example all_updated_on_table :
  (reconcile (by_name (Some 2%Z) true) three_known).1
  = Val [([], [3; 4]%nat); ([], [5%nat])] ∧
  w_log (reconcile (by_name (Some 2%Z) true) three_known).2
  = [EvReconcile [0; 1; 2]%nat;
     EvFilter [[("name", VStr "ann")]; [("name", VStr "bob")]];
     EvBulkUpdate [3; 4]%nat ["num"];
     EvFilter [[("name", VStr "cat")]];
     EvBulkUpdate [5%nat] ["num"]] ∧
  getattr (w_heap (reconcile (by_name (Some 2%Z) true) three_known).2) 4%nat "num"
  = Some (VInt 2).
Proof. repeat split; vm_compute; reflexivity. Qed.


Lemma case_insensitive_keys_witness :
  lower "Foo" = "foo" ∧
  ∃ e w',
    process_batch (Frame ["num"] ["name"] true true) [0%nat] foo_and_Foo
    = (Val ([], [e]), w') ∧
    getattr (w_heap w') e "num" = Some (VInt 1) ∧
    MemStore.rows (w_db w') = [MemStore.stored 1 "Foo" 1].
Proof.
  split; [reflexivity|].
  destruct (case_insensitive_keys (Frame ["num"] ["name"] true true) 0%nat foo_and_Foo
              (MemStore.stored 1 "Foo" 0) (w_db foo_and_Foo) [VStr "foo"] [VStr "Foo"]
              (Val tt)
              (MemStore.update_rows
                 [copy_fields ["num"] (obj_attrs (w_heap foo_and_Foo) 0%nat)
                              (MemStore.stored 1 "Foo" 0)]
                 ["num"] (w_db foo_and_Foo)))
    as (_ & _ & _ & _ & _ & Hmatch & _).
  - split; [vm_compute; eauto|]. split; [eexists; vm_compute; reflexivity|].
    intros f ->%list_elem_of_singleton. vm_compute. eauto.
  - vm_compute. reflexivity.
  - vm_compute. reflexivity.
  - vm_compute. reflexivity.
  - reflexivity.
  - destruct Hmatch as (e & w' & E & _ & Hdb & _ & _ & _ & Hcopy);
      [vm_compute; reflexivity|].
    exists e, w'. split; [exact E|]. split.
    + rewrite (Hcopy "num"); [|by left]. vm_compute. reflexivity.
    + rewrite Hdb. vm_compute. reflexivity.
Defined.

(** With the flag off the same entity is not matched: its key is
    [("Foo",)], the map has [("foo",)]. *)
Example case_sensitive_mismatch :
  (process_batch (Frame ["num"] ["name"] false true) [0%nat] foo_and_Foo).1
  = Exc (KeyError [VStr "Foo"]).
Proof. vm_compute. reflexivity. Qed.

Lemma zero_batch_size_witness :
  gen_next (__bulk_update_or_create (by_name (Some 0%Z) true)) three_new
  = (Exc (ValueError "range() arg 3 must not be zero"), GenClosed, three_new) ∧
  reconcile (by_name (Some 0%Z) true) three_new
  = (Exc (ValueError "range() arg 3 must not be zero"),
     emit (EvReconcile [0; 1; 2]%nat) three_new).
Proof.
  assert (accepted (w_heap three_new) (by_name None true)) as Hacc.
  { apply acceptedb_accepted. vm_compute. reflexivity. }
  apply (zero_batch_size (by_name (Some 0%Z) true) three_new).
  - discriminate.
  - discriminate.
  - exact (proj1 (proj2 (proj2 Hacc))).
  - reflexivity.
Defined.

Lemma negative_batch_size_witness :
  gen_next (__bulk_update_or_create (by_name (Some (-2)%Z) true)) three_new
  = (Val StopIteration, GenClosed, three_new) ∧
  reconcile (by_name (Some (-2)%Z) true) three_new
  = (Val [], emit (EvReconcile [0; 1; 2]%nat) three_new).
Proof.
  assert (accepted (w_heap three_new) (by_name None true)) as Hacc.
  { apply acceptedb_accepted. vm_compute. reflexivity. }
  apply (negative_batch_size (by_name (Some (-2)%Z) true) three_new (-2)%Z).
  - discriminate.
  - discriminate.
  - exact (proj1 (proj2 (proj2 Hacc))).
  - reflexivity.
  - lia.
Defined.

Lemma validation_messages_witness :
  start (by_name (Some 2%Z) true) (w_heap third_malformed)
  = Exc (ValueError (update_field_msg "num")).
Proof.
  destruct (validation_messages (by_name (Some 2%Z) true) (w_heap third_malformed))
    as (_ & _ & Hthird).
  destruct (Hthird [0; 1]%nat 2%nat []) as [_ Hupdate].
  - discriminate.
  - reflexivity.
  - intros o' f Ho' Hf.
    assert (forallb (λ o, forallb (hasattr (w_heap third_malformed) o) ["name"; "num"])
                    [0; 1]%nat = true) as Hall by (vm_compute; reflexivity).
    rewrite forallb_forall in Hall. apply list_elem_of_In, Hall in Ho'.
    rewrite forallb_forall in Ho'. by apply Ho', list_elem_of_In.
  - apply (Hupdate [] "num" []).
    + intros g Hg. apply list_elem_of_singleton in Hg as ->. vm_compute. reflexivity.
    + reflexivity.
    + intros g Hg. by apply elem_of_nil in Hg.
    + vm_compute. reflexivity.
Defined.

Lemma large_batch_size_witness :
  reconcile (by_name (Some 5%Z) true) three_new = reconcile (by_name None true) three_new.
Proof.
  apply (large_batch_size [0; 1; 2]%nat ["num"] (MFStr "name") 5%Z false true three_new).
  simpl. lia.
Defined.

Lemma batch_store_calls_witness :
  ∃ evs,
    w_log (process_batch (frame_of (by_name None true)) [0; 1; 2]%nat three_known).2
    = w_log three_known ++ evs ∧
    batch_calls (frame_of (by_name None true)) evs.
Proof.
  destruct (batch_store_calls (frame_of (by_name None true)) [0; 1; 2]%nat three_known
              (process_batch (frame_of (by_name None true)) [0; 1; 2]%nat three_known).1
              (process_batch (frame_of (by_name None true)) [0; 1; 2]%nat three_known).2)
    as (evs & Hlog & Hcalls & _).
  - apply surjective_pairing.
  - exists evs. split; [exact Hlog|exact Hcalls].
Defined.

Lemma keys_classified_once_witness :
  (process_batch (frame_of (by_name None true)) [0; 1; 2]%nat two_anns).1
  = Val ([2; 1]%nat, []) ∧
  length [2; 1]%nat + length (@nil loc)
  = length (remove_dups (keys_at (frame_of (by_name None true)) (w_heap two_anns)
                                 [0; 1; 2]%nat)).
Proof.
  split; [vm_compute; reflexivity|].
  apply (keys_classified_once (frame_of (by_name None true)) [0; 1; 2]%nat two_anns
           [2; 1]%nat []
           (process_batch (frame_of (by_name None true)) [0; 1; 2]%nat two_anns).2).
  vm_compute. reflexivity.
Defined.

Lemma query_shape_witness :
  ∃ d : odict key loc,
    build_obj_map (frame_of (by_name None true)) [0; 1; 2]%nat two_anns
    = (Val d, two_anns) ∧
    _obj_filter ["name"] d = [[("name", VStr "ann")]; [("name", VStr "bob")]] ∧
    dkeys d = [[VStr "ann"]; [VStr "bob"]] ∧
    length (_obj_filter ["name"] d) ≤ 3.
Proof.
  exists [([VStr "ann"], 2%nat); ([VStr "bob"], 1%nat)].
  assert (build_obj_map (frame_of (by_name None true)) [0; 1; 2]%nat two_anns
          = (Val [([VStr "ann"], 2%nat); ([VStr "bob"], 1%nat)], two_anns)) as Hb
    by (vm_compute; reflexivity).
  split; [exact Hb|]. split; [vm_compute; reflexivity|].
  destruct (query_shape (frame_of (by_name None true)) [0; 1; 2]%nat two_anns _ Hb)
    as (_ & Hfirst & _ & _ & Hlen & _).
  split; [|exact Hlen]. rewrite Hfirst. vm_compute. reflexivity.
Defined.

Lemma unsaved_objects_untouched_witness :
  ∃ evs,
    w_log (reconcile (by_name None true) three_known).2
    = w_log three_known ++ EvReconcile [0; 1; 2]%nat :: evs ∧
    ∀ l, is_Some (w_heap three_known !! l) → l ∉ saved evs →
         w_heap (reconcile (by_name None true) three_known).2 !! l
         = w_heap three_known !! l.
Proof.
  apply (unsaved_objects_untouched (by_name None true) three_known
           (reconcile (by_name None true) three_known).1
           (reconcile (by_name None true) three_known).2).
  apply surjective_pairing.
Defined.

Lemma failed_batch_stops_run_witness :
  (bulk_update_or_create (by_name_on [0; 1]%nat (Some 1%Z) false) new_then_ambiguous).1
  = Exc (KeyError [VStr "ann"]) ∧
  saved (w_log (bulk_update_or_create (by_name_on [0; 1]%nat (Some 1%Z) false)
                  new_then_ambiguous).2)
  = [0%nat].
Proof.
  assert (accepted (w_heap new_then_ambiguous) (by_name_on [0; 1]%nat (Some 1%Z) false))
    as Hacc by (apply acceptedb_accepted; vm_compute; reflexivity).
  destruct (failed_batch_stops_run
             (by_name_on [0; 1]%nat (Some 1%Z) false) new_then_ambiguous
             [[0%nat]] [1%nat] [] [([0%nat], [])]
             (process_all (frame_of (by_name_on [0; 1]%nat (Some 1%Z) false)) [[0%nat]]
                (emit (EvReconcile [0; 1]%nat) new_then_ambiguous)).2
             (KeyError [VStr "ann"])
             (process_batch (frame_of (by_name_on [0; 1]%nat (Some 1%Z) false)) [1%nat]
                (process_all (frame_of (by_name_on [0; 1]%nat (Some 1%Z) false)) [[0%nat]]
                   (emit (EvReconcile [0; 1]%nat) new_then_ambiguous)).2).2
             Hacc) as (Hlist & _ & _).
  - vm_compute. reflexivity.
  - vm_compute. reflexivity.
  - vm_compute. reflexivity.
  - rewrite (Hlist eq_refl). split; [reflexivity|vm_compute; reflexivity].
Defined.

(** The same input with [yield_objects=True]: the first advance yields the
    outcome of the first batch, the second raises. *)
Example failed_batch_in_generator :
  (nexts 1 (GenCreated (by_name_on [0; 1]%nat (Some 1%Z) true))
         (emit (EvReconcile [0; 1]%nat) new_then_ambiguous)).1.1
  = [([0%nat], [])] ∧
  (gen_next
     (nexts 1 (GenCreated (by_name_on [0; 1]%nat (Some 1%Z) true))
            (emit (EvReconcile [0; 1]%nat) new_then_ambiguous)).1.2
     (nexts 1 (GenCreated (by_name_on [0; 1]%nat (Some 1%Z) true))
            (emit (EvReconcile [0; 1]%nat) new_then_ambiguous)).2).1
  = (Exc (KeyError [VStr "ann"]), GenClosed).
Proof. split; vm_compute; reflexivity. Qed.

Lemma one_batch_per_advance_witness :
  ∃ evs,
    w_log (gen_next (GenSuspended (frame_of (by_name (Some 2%Z) true))
                                  [[0; 1]; [2]]%nat) three_new).2
    = w_log three_new ++ evs ∧
    batch_calls (frame_of (by_name (Some 2%Z) true)) evs.
Proof.
  destruct (one_batch_per_advance (frame_of (by_name (Some 2%Z) true))
              [[0; 1]; [2]]%nat three_new
              (gen_next (GenSuspended (frame_of (by_name (Some 2%Z) true))
                                      [[0; 1]; [2]]%nat) three_new).1.1
              (gen_next (GenSuspended (frame_of (by_name (Some 2%Z) true))
                                      [[0; 1]; [2]]%nat) three_new).1.2
              (gen_next (GenSuspended (frame_of (by_name (Some 2%Z) true))
                                      [[0; 1]; [2]]%nat) three_new).2)
    as [_ Hstep].
  - reflexivity.
  - by destruct (gen_next _ _) as [[? ?] ?].
  - destruct (Hstep [0; 1]%nat [[2%nat]] eq_refl) as (evs & Hlog & Hcalls & _).
    exists evs. split; [exact Hlog|exact Hcalls].
Defined.

Lemma pushes_conserve_records_witness :
  ∃ calls,
    reconcile_calls
      (w_log (queue_all [0; 1; 2]%nat (accumulator [] 2 None) three_new).2)
    = reconcile_calls (w_log three_new) ++ calls ∧
    concat calls
    ++ _queue (queue_all [0; 1; 2]%nat (accumulator [] 2 None) three_new).1.2
    = [0; 1; 2]%nat.
Proof.
  destruct (pushes_conserve_records [0; 1; 2]%nat (accumulator [] 2 None) three_new
              (queue_all [0; 1; 2]%nat (accumulator [] 2 None) three_new).1.2
              (queue_all [0; 1; 2]%nat (accumulator [] 2 None) three_new).2)
    as (calls & Hlog & Hcat & _).
  - vm_compute. reflexivity.
  - exists calls. split; [exact Hlog|exact Hcat].
Defined.

Lemma scope_reconciles_everything_witness :
  concat (reconcile_calls
            (w_log (with_ (accumulator [] 2 None) (queue_all [0; 1; 2]%nat) three_new).2))
  = concat (reconcile_calls (w_log three_new)) ++ [0; 1; 2]%nat ∧
  _queue (with_ (accumulator [] 2 None) (queue_all [0; 1; 2]%nat) three_new).1.2 = [].
Proof.
  apply (scope_reconciles_everything [0; 1; 2]%nat (accumulator [] 2 None) three_new
           (with_ (accumulator [] 2 None) (queue_all [0; 1; 2]%nat) three_new).1.2
           (with_ (accumulator [] 2 None) (queue_all [0; 1; 2]%nat) three_new).2).
  - reflexivity.
  - vm_compute. reflexivity.
Defined.

Lemma yield_flag_changes_only_result_witness :
  (bulk_update_or_create (by_name (Some 2%Z) false) three_new).1 = Val (RList []) ∧
  (reconcile (by_name (Some 2%Z) false) three_new).2
  = (reconcile (by_name (Some 2%Z) true) three_new).2.
Proof.
  destruct (yield_flag_changes_only_result [0; 1; 2]%nat ["num"] (MFStr "name")
              (Some 2%Z) false three_new) as (Hworld & Hval & _).
  split; [|exact Hworld].
  apply (Hval [([0; 1]%nat, []); ([2%nat], [])]).
  vm_compute. reflexivity.
Defined.
